(** * The continuous ping engine of the globalping CLI (cmd/ping.go)

    A shallow embedding of [MeasurementsBuffer] (the polling window), of
    [createMeasurement], of the [ping] loop and of [pingInfinite] / [RunPing],
    together with the properties of the measurement session engine.

    Conventions.
    - Go [int] and [time.Duration] values are [Z].  They are 64-bit: where
      the code adds to a counter or computes with durations the wrap-around
      is written out ([wrap64]).  The cursor [pos] is bounded by the length
      of [items], so its arithmetic cannot wrap.
    - A [*view.HistoryItem] is a [Ptr]: [Nil] or the address of a cell of the
      heap; the items themselves live in the heap, so that the window and the
      history alias the same cells.
    - A Go run-time panic (nil dereference, index out of range, a capacity
      out of range given to [make]) is the [Panic] result of the [Go] type.
    - The collaborators behind Go interfaces (client, viewer, clock, session
      store) are a type class over an abstract world; every call is also
      logged in a trace of events. *)

From stdpp Require Import base decidable option list numbers strings.

Open Scope Z_scope.

(** ** Results of code that may panic *)

Inductive Go (A : Type) : Type :=
  | Ok (a : A)
  | Panic.
Arguments Ok {A} a.
Arguments Panic {A}.

#[global] Instance Go_ret : MRet Go := fun _ a => Ok a.

#[global] Instance Go_bind : MBind Go := fun _ _ k m =>
  match m with
  | Ok a => k a
  | Panic => Panic
  end.

(** ** 64-bit arithmetic *)

(** The value a Go [int] or [int64] holds after an addition or a
    subtraction whose exact result is [z]: the result wraps around. *)
Definition wrap64 (z : Z) : Z :=
  (z + 9223372036854775808) `mod` 18446744073709551616 - 9223372036854775808.
Arguments wrap64 : simpl never.

(** The values of a Go [int]. *)
Definition in_int64 (z : Z) : Prop :=
  -9223372036854775808 ≤ z ≤ 9223372036854775807.

(** [t.Sub(u)] of [time.Time], with instants counted in nanoseconds: the
    difference, held at the largest or the smallest [time.Duration] when it
    leaves the range. *)
Definition Time_Sub (t u : Z) : Z :=
  Z.max (-9223372036854775808) (Z.min 9223372036854775807 (t - u)).
Arguments Time_Sub : simpl never.

(** ** Pointers to history items *)

Inductive Ptr : Type :=
  | Nil
  | Addr (a : nat).

#[global] Instance Ptr_eq_dec : EqDecision Ptr.
Proof. solve_decision. Defined.

(** ** globalping data *)

Inductive MeasurementStatus : Type :=
  | StatusInProgress
  | StatusFinished
  | StatusOther (code : string).

#[global] Instance MeasurementStatus_eq_dec : EqDecision MeasurementStatus.
Proof. solve_decision. Defined.

(** [view.HistoryItem] *)
Record HistoryItem : Type := {
  Id : string;
  Status : MeasurementStatus;
  ProbeStatus : list MeasurementStatus;
  StartedAt : Z;
  IsPartiallyFinishedFlag : bool
}.

(** The heap: the history items allocated so far, by address. *)
Abbreviation heap_t := (list HistoryItem).

Definition set_Status (s : MeasurementStatus) (it : HistoryItem) : HistoryItem :=
  {| Id := Id it; Status := s; ProbeStatus := ProbeStatus it;
     StartedAt := StartedAt it; IsPartiallyFinishedFlag := IsPartiallyFinishedFlag it |}.

Definition set_IsPartiallyFinished (f : bool) (it : HistoryItem) : HistoryItem :=
  {| Id := Id it; Status := Status it; ProbeStatus := ProbeStatus it;
     StartedAt := StartedAt it; IsPartiallyFinishedFlag := f |}.

(** ** MeasurementsBuffer (ping.go, lines 221-279) *)

Record MeasurementsBuffer : Type := {
  capacity : Z;
  items : list Ptr;
  pos : Z
}.

Definition len_items (b : MeasurementsBuffer) : Z := Z.of_nat (length (items b)).

(** [make([]*view.HistoryItem, 0, cap)]: the run time ([runtime.makeslice])
    panics when [cap] is negative or when [cap] pointers of 8 bytes are more
    than the largest allocation, 2^48 bytes on 64-bit Linux.  Within this
    range the allocation is taken to succeed: running out of memory is a
    fatal error of the run time, it is not a panic and not part of this
    model. *)
Definition maxAlloc : Z := 281474976710656.

Definition make_cap_ok (cap : Z) : bool :=
  (0 <=? cap) && (cap * 8 <=? maxAlloc).

Definition NewMeasurementsBuffer (capacity : Z) : Go MeasurementsBuffer :=
  if make_cap_ok capacity
  then Ok {| capacity := capacity; items := []; pos := 0 |}
  else Panic.

Definition Len (b : MeasurementsBuffer) : Z := len_items b.

(** [s[i]] for a Go slice: panics out of range. *)
Definition index {A : Type} (l : list A) (i : Z) : Go A :=
  if i <? 0 then Panic
  else match l !! Z.to_nat i with
       | Some x => Ok x
       | None => Panic
       end.

Definition Next (b : MeasurementsBuffer) : Go (Ptr * MeasurementsBuffer) :=
  if len_items b <=? pos b then Ok (Nil, b)
  else
    let b' := {| capacity := capacity b; items := items b; pos := pos b + 1 |} in
    x ← index (items b') (pos b' - 1);
    Ok (x, b').

Definition Restart (b : MeasurementsBuffer) : MeasurementsBuffer :=
  {| capacity := capacity b; items := items b; pos := 0 |}.

Definition Append (b : MeasurementsBuffer) (hm : Ptr) : MeasurementsBuffer :=
  {| capacity := capacity b; items := items b ++ [hm]; pos := pos b |}.

(** The [range] loop of [Remove]: [i] is the index of the head of [rest],
    [newb] the slice built so far; [pos] is read and written as the loop
    runs, as [b.pos] is in the source. *)
Fixpoint Remove_loop (el : Ptr) (i : Z) (rest newb : list Ptr) (pos : Z)
  : list Ptr * Z :=
  match rest with
  | [] => (newb, pos)
  | item :: rest' =>
      if decide (item ≠ el) then Remove_loop el (i + 1) rest' (newb ++ [item]) pos
      else if i <? pos then Remove_loop el (i + 1) rest' newb (pos - 1)
      else Remove_loop el (i + 1) rest' newb pos
  end.

(** ping.go, lines 254-267: on a window that is not empty the new slice is
    made with [make([]*view.HistoryItem, 0, b.capacity)], which panics on a
    capacity out of range. *)
Definition Remove (b : MeasurementsBuffer) (el : Ptr) : Go MeasurementsBuffer :=
  if len_items b =? 0 then Ok b
  else if make_cap_ok (capacity b) then
    let '(newb, pos') := Remove_loop el 0 (items b) [] (pos b) in
    Ok {| capacity := capacity b; items := newb; pos := pos' |}
  else Panic.

(** [el.IsPartiallyFinished] for each held item, in order; a nil item (or an
    address outside the heap) panics. *)
Fixpoint CanAppend_loop (h : heap_t) (l : list Ptr) : Go bool :=
  match l with
  | [] => Ok false
  | Nil :: _ => Panic
  | Addr a :: l' =>
      match h !! a with
      | None => Panic
      | Some it => if IsPartiallyFinishedFlag it then Ok true else CanAppend_loop h l'
      end
  end.

Definition CanAppend (h : heap_t) (b : MeasurementsBuffer) : Go bool :=
  if capacity b <=? len_items b then Ok false
  else CanAppend_loop h (items b).

(** ** Measurements and requests (package globalping, as used by ping.go) *)

Definition error : Type := string.

Definition newline : string := String (Ascii.ascii_of_nat 10) EmptyString.

Record Locations : Type := { Magic : string }.

Record MeasurementOptions : Type := { opt_Packets : Z }.

Record MeasurementCreate : Type := {
  mc_Type : string;
  mc_Target : string;
  mc_Limit : Z;
  mc_InProgressUpdates : bool;
  mc_Locations : list Locations;
  mc_Options : MeasurementOptions
}.

Definition set_Locations (l : list Locations) (o : MeasurementCreate) : MeasurementCreate :=
  {| mc_Type := mc_Type o; mc_Target := mc_Target o; mc_Limit := mc_Limit o;
     mc_InProgressUpdates := mc_InProgressUpdates o; mc_Locations := l;
     mc_Options := mc_Options o |}.

(** [m.Results[i].Result.Status] *)
Record ProbeMeasurement : Type := { Result_Status : MeasurementStatus }.

Record Measurement : Type := {
  m_ID : string;
  m_Status : MeasurementStatus;
  m_Results : list ProbeMeasurement
}.

(** The three results of [client.CreateMeasurement]: the response (its ID) on
    success, else the show-help flag and the error. *)
Inductive CreateResult : Type :=
  | CreateOk (id : string)
  | CreateErr (showHelp : bool) (err : error).

(** ping.go, lines 184-194 *)
Definition IsPartiallyFinished (m : Measurement) : bool :=
  if decide (m_Status m ≠ StatusInProgress) then false
  else existsb (fun p => bool_decide (Result_Status p = StatusFinished)) (m_Results m).

(** ** The session history *)

(** Modelled from the spec: [view.HistoryBuffer] with [Push] and [Last], whose
    source is not part of the files at hand.  A fixed number of slots, a write
    index that wraps modulo the capacity, and the count of items ever pushed;
    [Last] is the most recently pushed item, [Nil] before the first push. *)
Record HistoryBuffer : Type := {
  slots : list Ptr;
  writeIndex : nat;
  createdCount : nat
}.

(** Modelled from the spec: [view.NewHistoryBuffer], a history of fixed
    capacity with nothing pushed yet. *)
Definition NewHistoryBuffer (cap : nat) : HistoryBuffer :=
  {| slots := replicate cap Nil; writeIndex := 0; createdCount := 0 |}.

(** Modelled from the spec: [HistoryBuffer.Push] writes the item at the
    write index, advances the index with wrap-around and counts the item. *)
Definition History_Push (h : HistoryBuffer) (item : Ptr) : HistoryBuffer :=
  {| slots := <[writeIndex h := item]> (slots h);
     writeIndex := (writeIndex h + 1) `mod` length (slots h);
     createdCount := createdCount h + 1 |}%nat.

(** Modelled from the spec: [HistoryBuffer.Last] is the most recently
    pushed item, nil when nothing has been pushed. *)
Definition History_Last (h : HistoryBuffer) : Ptr :=
  match createdCount h with
  | O => Nil
  | S _ => default Nil
             (slots h !! ((writeIndex h + length (slots h) - 1) `mod` length (slots h))%nat)
  end.

(** ** The command context ([view.Context], the fields ping.go uses) *)

Record Context : Type := {
  ctx_Target : string;
  ctx_Limit : Z;
  ctx_CIMode : bool;
  ctx_Packets : Z;
  ctx_Infinite : bool;
  ctx_RecordToSession : bool;
  ctx_MeasurementsCreated : Z;
  ctx_APIMinInterval : Z;
  ctx_History : HistoryBuffer
}.

Definition set_Packets (p : Z) (c : Context) : Context :=
  {| ctx_Target := ctx_Target c; ctx_Limit := ctx_Limit c; ctx_CIMode := ctx_CIMode c;
     ctx_Packets := p; ctx_Infinite := ctx_Infinite c;
     ctx_RecordToSession := ctx_RecordToSession c;
     ctx_MeasurementsCreated := ctx_MeasurementsCreated c;
     ctx_APIMinInterval := ctx_APIMinInterval c; ctx_History := ctx_History c |}.

Definition set_Infinite (b : bool) (c : Context) : Context :=
  {| ctx_Target := ctx_Target c; ctx_Limit := ctx_Limit c; ctx_CIMode := ctx_CIMode c;
     ctx_Packets := ctx_Packets c; ctx_Infinite := b;
     ctx_RecordToSession := ctx_RecordToSession c;
     ctx_MeasurementsCreated := ctx_MeasurementsCreated c;
     ctx_APIMinInterval := ctx_APIMinInterval c; ctx_History := ctx_History c |}.

Definition set_RecordToSession (b : bool) (c : Context) : Context :=
  {| ctx_Target := ctx_Target c; ctx_Limit := ctx_Limit c; ctx_CIMode := ctx_CIMode c;
     ctx_Packets := ctx_Packets c; ctx_Infinite := ctx_Infinite c;
     ctx_RecordToSession := b;
     ctx_MeasurementsCreated := ctx_MeasurementsCreated c;
     ctx_APIMinInterval := ctx_APIMinInterval c; ctx_History := ctx_History c |}.

Definition set_MeasurementsCreated (n : Z) (c : Context) : Context :=
  {| ctx_Target := ctx_Target c; ctx_Limit := ctx_Limit c; ctx_CIMode := ctx_CIMode c;
     ctx_Packets := ctx_Packets c; ctx_Infinite := ctx_Infinite c;
     ctx_RecordToSession := ctx_RecordToSession c;
     ctx_MeasurementsCreated := n;
     ctx_APIMinInterval := ctx_APIMinInterval c; ctx_History := ctx_History c |}.

Definition set_History (h : HistoryBuffer) (c : Context) : Context :=
  {| ctx_Target := ctx_Target c; ctx_Limit := ctx_Limit c; ctx_CIMode := ctx_CIMode c;
     ctx_Packets := ctx_Packets c; ctx_Infinite := ctx_Infinite c;
     ctx_RecordToSession := ctx_RecordToSession c;
     ctx_MeasurementsCreated := ctx_MeasurementsCreated c;
     ctx_APIMinInterval := ctx_APIMinInterval c; ctx_History := h |}.

(** ping.go, lines 53-56: the flags [--packets] and [--infinite] are bound to
    fields of the context, with defaults 0 and false; the parsed values are
    there when [RunPing] starts. A flag left out is [None]. *)
Definition bind_flags (packets : option Z) (infinite : option bool) (c : Context)
  : Context :=
  set_Infinite (default false infinite) (set_Packets (default 0 packets) c).

(** ** Collaborators and events *)

(** Every call the engine makes on a collaborator, in program order. *)
Inductive Event : Type :=
  | EvCreateMeasurement (opts : MeasurementCreate)
  | EvGetMeasurement (id : string)
  | EvOutput (id : string) (opts : MeasurementCreate)
  | EvOutputInfinite (m : Measurement)
  | EvOutputSummary
  | EvNow
  | EvSleep (d : Z)
  | EvSaveIdToSession (id : string)
  | EvPrintf (msg : string).

#[global] Instance Locations_eq_dec : EqDecision Locations.
Proof. solve_decision. Defined.
#[global] Instance MeasurementOptions_eq_dec : EqDecision MeasurementOptions.
Proof. solve_decision. Defined.
#[global] Instance MeasurementCreate_eq_dec : EqDecision MeasurementCreate.
Proof. solve_decision. Defined.
#[global] Instance ProbeMeasurement_eq_dec : EqDecision ProbeMeasurement.
Proof. solve_decision. Defined.
#[global] Instance Measurement_eq_dec : EqDecision Measurement.
Proof. solve_decision. Defined.
#[global] Instance Event_eq_dec : EqDecision Event.
Proof. solve_decision. Defined.

(** The interfaces [globalping.Client], [view.Viewer] and the clock, and the
    outcome of the file write behind [saveIdToSession], over a world [W]
    that each call may change.

    The client is taken under its contract: a call answers with an error
    or with a result, never with a nil result and a nil error.  ping.go
    relies on it: it reads [m.Status] (line 134) and [res.ID] (line 206)
    after testing only [err], and would panic on such an answer.  An
    answer with both a result and an error is an error: the result is not
    looked at. *)
Class Collaborators (W : Type) : Type := {
  client_CreateMeasurement : MeasurementCreate → W → CreateResult * W;
  client_GetMeasurement : string → W → (Measurement + error) * W;
  viewer_Output : string → MeasurementCreate → W → option error * W;
  viewer_OutputInfinite : Measurement → W → option error * W;
  viewer_OutputSummary : W → W;
  time_Now : W → Z * W;
  store_Append : string → W → option error * W
}.

(** ** The engine *)

Section Engine.
Context {W : Type} `{!Collaborators W}.

(** The receiver [r *Root] with what it reaches: the context, cobra's
    [SilenceUsage] flag, the heap of history items, the persisted session
    record (one id per line), the world of the collaborators and the
    trace of calls made so far. *)
Record Root : Type := {
  ctx : Context;
  SilenceUsage : bool;
  heap : heap_t;
  session : list string;
  world : W;
  trace : list Event
}.

Definition with_ctx (c : Context) (r : Root) : Root :=
  {| ctx := c; SilenceUsage := SilenceUsage r; heap := heap r;
     session := session r; world := world r; trace := trace r |}.

Definition with_SilenceUsage (b : bool) (r : Root) : Root :=
  {| ctx := ctx r; SilenceUsage := b; heap := heap r;
     session := session r; world := world r; trace := trace r |}.

Definition with_heap (h : heap_t) (r : Root) : Root :=
  {| ctx := ctx r; SilenceUsage := SilenceUsage r; heap := h;
     session := session r; world := world r; trace := trace r |}.

Definition with_session (l : list string) (r : Root) : Root :=
  {| ctx := ctx r; SilenceUsage := SilenceUsage r; heap := heap r;
     session := l; world := world r; trace := trace r |}.

(** A call on a collaborator: the world moves on and the event is logged. *)
Definition call (e : Event) (w : W) (r : Root) : Root :=
  {| ctx := ctx r; SilenceUsage := SilenceUsage r; heap := heap r;
     session := session r; world := w; trace := trace r ++ [e] |}.

Definition Now (r : Root) : Z * Root :=
  let '(t, w) := time_Now (world r) in (t, call EvNow w r).

(** Modelled from the spec: [saveIdToSession], whose source is not part of
    the files at hand: a best-effort append of the id to the session
    record, one id per line; when the write fails nothing is appended and
    the error is handed back. *)
Definition saveIdToSession (id : string) (r : Root) : option error * Root :=
  let '(res, w) := store_Append id (world r) in
  let r := call (EvSaveIdToSession id) w r in
  match res with
  | None => (None, with_session (session r ++ [id]) r)
  | Some e => (Some e, r)
  end.

Definition Printf (msg : string) (r : Root) : Root :=
  call (EvPrintf msg) (world r) r.

(** ping.go, lines 196-219 *)
Definition createMeasurement (opts : MeasurementCreate) (r : Root)
  : (Ptr * option error) * Root :=
  let '(res, w) := client_CreateMeasurement opts (world r) in
  let r := call (EvCreateMeasurement opts) w r in
  match res with
  | CreateErr showHelp err =>
      ((Nil, Some err), if showHelp then r else with_SilenceUsage true r)
  | CreateOk id =>
      let r := with_ctx (set_MeasurementsCreated
                           (wrap64 (ctx_MeasurementsCreated (ctx r) + 1))
                           (ctx r)) r in
      let '(now, r) := Now r in
      let a := length (heap r) in
      let r := with_heap (heap r ++ [ {| Id := id; Status := StatusInProgress;
                                         ProbeStatus := []; StartedAt := now;
                                         IsPartiallyFinishedFlag := false |} ]) r in
      let r := with_ctx (set_History (History_Push (ctx_History (ctx r)) (Addr a))
                           (ctx r)) r in
      let r :=
        if ctx_RecordToSession (ctx r) then
          let r := with_ctx (set_RecordToSession false (ctx r)) r in
          let '(err, r) := saveIdToSession id r in
          match err with
          | Some e => Printf ("Warning: " +:+ e +:+ newline) r
          | None => r
          end
        else r in
      ((Addr a, None), r)
  end.

(** *** The loop of [ping] (ping.go, lines 121-182)

    The locals of [ping], with the receiver and the request [opts] (a
    pointer the loop writes through). [el] is the loop variable of the
    inner [for el != nil]. *)
Record PingState : Type := {
  root : Root;
  opts : MeasurementCreate;
  runErr : option error;
  mbuf : MeasurementsBuffer;
  elapsedTime : Z;
  el : Ptr
}.

Inductive Outcome : Type :=
  | Continue (s : PingState)
  | Return (err : error) (s : PingState)
  | Crash (r : Root).

Definition with_root (r : Root) (s : PingState) : PingState :=
  {| root := r; opts := opts s; runErr := runErr s; mbuf := mbuf s;
     elapsedTime := elapsedTime s; el := el s |}.

Definition with_mbuf (b : MeasurementsBuffer) (s : PingState) : PingState :=
  {| root := root s; opts := opts s; runErr := runErr s; mbuf := b;
     elapsedTime := elapsedTime s; el := el s |}.

(** [el = mbuf.Next()] *)
Definition advance (s : PingState) : Outcome :=
  match Next (mbuf s) with
  | Panic => Crash (root s)
  | Ok (x, b) =>
      Continue {| root := root s; opts := opts s; runErr := runErr s; mbuf := b;
                  elapsedTime := elapsedTime s; el := x |}
  end.

(** Lines 125-127: [mbuf.Restart()], [elapsedTime := 0], [el := mbuf.Next()]. *)
Definition start_round (s : PingState) : Outcome :=
  advance {| root := root s; opts := opts s; runErr := runErr s;
             mbuf := Restart (mbuf s); elapsedTime := 0; el := el s |}.

(** [opts.Locations = []Locations{{Magic: r.ctx.History.Last().Id}}]: a nil
    [Last()] panics. *)
Definition retarget (s : PingState) : Go PingState :=
  match History_Last (ctx_History (ctx (root s))) with
  | Nil => Panic
  | Addr a =>
      match heap (root s) !! a with
      | None => Panic
      | Some last =>
          Ok {| root := root s;
                opts := set_Locations [ {| Magic := Id last |} ] (opts s);
                runErr := runErr s; mbuf := mbuf s;
                elapsedTime := elapsedTime s; el := el s |}
      end
  end.

(** Lines 153-162, entered when [runErr == nil && mbuf.CanAppend()]. *)
Definition overlap (s : PingState) : Go PingState :=
  s ← retarget s;
  let '(start, r) := Now (root s) in
  let '((hm, err), r) := createMeasurement (opts s) r in
  let runErr' := match err with Some e => Some e | None => runErr s end in
  let b := Append (mbuf s) hm in
  let '(stop, r) := Now r in
  Ok {| root := r; opts := opts s; runErr := runErr'; mbuf := b;
        elapsedTime := wrap64 (elapsedTime s + Time_Sub stop start);
        el := el s |}.

(** Lines 153-163: the guard of the overlap, then [el = mbuf.Next()]. *)
Definition maybe_overlap (s : PingState) : Outcome :=
  match runErr s with
  | Some _ => advance s
  | None =>
      match CanAppend (heap (root s)) (mbuf s) with
      | Panic => Crash (root s)
      | Ok false => advance s
      | Ok true =>
          match overlap s with
          | Panic => Crash (root s)
          | Ok s' => advance s'
          end
      end
  end.

(** Lines 129-163: one iteration of the inner loop, at [el = Addr a].
    (The string [statuses] of lines 149-152 is built and never read; it
    is left out.) *)
Definition ping_body (a : nat) (s : PingState) : Outcome :=
  match heap (root s) !! a with
  | None => Crash (root s)
  | Some it =>
      let '(res, w) := client_GetMeasurement (Id it) (world (root s)) in
      let r := call (EvGetMeasurement (Id it)) w (root s) in
      match res with
      | inr err => Return err (with_root (with_SilenceUsage true r) s)
      | inl m =>
          let it := set_Status (m_Status m) it in
          let r := with_heap (<[a := it]> (heap r)) r in
          if bool_decide (length (m_Results m) = 0%nat) then advance (with_root r s)
          else
            let '(oerr, w) := viewer_OutputInfinite m (world r) in
            let r := call (EvOutputInfinite m) w r in
            match oerr with
            | Some err => Return err (with_root (with_SilenceUsage true r) s)
            | None =>
                if decide (m_Status m ≠ StatusInProgress) then
                  match Remove (mbuf s) (Addr a) with
                  | Panic => Crash r
                  | Ok b => maybe_overlap (with_mbuf b (with_root r s))
                  end
                else
                  let it := set_IsPartiallyFinished (IsPartiallyFinished m) it in
                  maybe_overlap (with_root (with_heap (<[a := it]> (heap r)) r) s)
            end
      end
  end.

(** Lines 165-181, reached when the inner loop ends ([el == nil]), then
    the head of the next round (lines 125-127). *)
Definition ping_after_sweep (s : PingState) : Outcome :=
  if 0 <? Len (mbuf s) then
    let d := wrap64 (ctx_APIMinInterval (ctx (root s)) - elapsedTime s) in
    start_round (with_root (call (EvSleep d) (world (root s)) (root s)) s)
  else
    match runErr s with
    | Some e => Return e s
    | None =>
        match
          (match History_Last (ctx_History (ctx (root s))) with
           | Nil => Ok s
           | Addr _ => retarget s
           end)
        with
        | Panic => Crash (root s)
        | Ok s =>
            let '((hm, err), r) := createMeasurement (opts s) (root s) in
            match err with
            | Some e => Return e (with_root r s)
            | None => start_round (with_mbuf (Append (mbuf s) hm) (with_root r s))
            end
        end
    end.

Definition ping_step (s : PingState) : Outcome :=
  match el s with
  | Addr a => ping_body a s
  | Nil => ping_after_sweep s
  end.

(** At most [n] steps of the loop: [Continue] when it is still running. *)
Fixpoint ping_run (n : nat) (s : PingState) : Outcome :=
  match n with
  | O => Continue s
  | S n' =>
      match ping_step s with
      | Continue s' => ping_run n' s'
      | o => o
      end
  end.

(** Lines 122-127: the locals of [ping] at the first test of the inner loop. *)
Definition ping_init (o : MeasurementCreate) (r : Root) : Outcome :=
  match NewMeasurementsBuffer 2 with
  | Panic => Crash r
  | Ok b =>
      start_round {| root := r; opts := o; runErr := None; mbuf := b;
                     elapsedTime := 0; el := Nil |}
  end.

Definition ping (n : nat) (o : MeasurementCreate) (r : Root) : Outcome :=
  match ping_init o r with
  | Continue s => ping_run n s
  | out => out
  end.

Definition OutputSummary (r : Root) : Root :=
  call EvOutputSummary (viewer_OutputSummary (world r)) r.

(** What a command hands back: its error (nil on success) and the
    receiver as it leaves it, or a panic that ends the process. *)
Inductive Result : Type :=
  | Done (err : option error) (r : Root)
  | Panicked (r : Root).

Definition result_root (x : Result) : Root :=
  match x with Done _ r => r | Panicked r => r end.

(** ping.go, lines 97-119.  The goroutine runs [ping]; the main task waits
    on [sig], which receives either the interrupt of the operating system
    or the [SIGINT] the goroutine sends itself once [ping] has returned.
    The two tasks share [err] without synchronisation: the goroutine
    writes it (line 107), the main task tests it (line 115) and reads it
    again for its result (line 118); and the interrupt does not stop the
    goroutine, which goes on while the summary is rendered.

    A run is given by two numbers.  [n] is the number of loop steps the
    goroutine has completed when the main task tests [err]: when [ping]
    has returned within [n] steps the test sees its error (this is also
    the run in which the goroutine wakes the main task itself), otherwise
    it sees nil and the summary is rendered.  [m] is the number of steps
    the goroutine completes from then to the read of line 118: the result
    is the error [ping] has returned by then, nil when it is still
    running.  The two tasks are interleaved at the steps of the loop, and
    a panic of the goroutine ends the process. *)
Definition pingInfinite (n m : nat) (o : MeasurementCreate) (r : Root) : Result :=
  if 5 <? ctx_Limit (ctx r) then
    Done (Some "continous mode is currently limited to 5 probes") r
  else
    match ping n o r with
    | Crash r' => Panicked r'
    | Return err s => Done (Some err) (root s)
    | Continue s =>
        match ping_run m (with_root (OutputSummary (root s)) s) with
        | Crash r' => Panicked r'
        | Return err s' => Done (Some err) (root s')
        | Continue s' => Done None (root s')
        end
    end.

(** *** The command (ping.go, lines 60-95)

    [updateContext] and [getLocations] are methods of [Root] defined in
    other files of the package; they are taken as they come, as functions
    on the receiver. *)

(** Lines 66-69: the session flag is raised, and with [--infinite] the
    packets option is overwritten. *)
Definition prepare (r : Root) : Root :=
  let r := with_ctx (set_RecordToSession true (ctx r)) r in
  if ctx_Infinite (ctx r) then with_ctx (set_Packets 16 (ctx r)) r else r.

(** Lines 71-79: the request, before its locations are filled in. *)
Definition request (r : Root) : MeasurementCreate :=
  {| mc_Type := "ping"; mc_Target := ctx_Target (ctx r);
     mc_Limit := ctx_Limit (ctx r);
     mc_InProgressUpdates := negb (ctx_CIMode (ctx r));
     mc_Locations := [];
     mc_Options := {| opt_Packets := ctx_Packets (ctx r) |} |}.

Section Command.
Variable updateContext : Root → option error * Root.
Variable getLocations : Root → (list Locations + error) * Root.

Definition RunPing (n m : nat) (r : Root) : Result :=
  let '(err, r) := updateContext r in
  match err with
  | Some e => Done (Some e) r
  | None =>
      let r := prepare r in
      let o := request r in
      let '(locs, r) := getLocations r in
      match locs with
      | inr e => Done (Some e) (with_SilenceUsage true r)
      | inl l =>
          let o := set_Locations l o in
          if ctx_Infinite (ctx r) then pingInfinite n m o r
          else
            let '((hm, err), r) := createMeasurement o r in
            match err with
            | Some e => Done (Some e) r
            | None =>
                match hm with
                | Nil => Panicked r
                | Addr a =>
                    match heap r !! a with
                    | None => Panicked r
                    | Some it =>
                        let '(oerr, w) := viewer_Output (Id it) o (world r) in
                        Done oerr (call (EvOutput (Id it) o) w r)
                    end
                end
            end
      end
  end.
End Command.

End Engine.

Arguments Root : clear implicits.
Arguments PingState : clear implicits.
Arguments Outcome : clear implicits.
Arguments Result : clear implicits.

(** ** A scripted world

    Collaborators that answer from scripts, one answer per call, as the
    mocks of ping_test.go do; it is used to run the engine on concrete
    inputs. A call beyond the end of its script gets a fixed answer. *)

Record Script : Type := {
  creates : list CreateResult;
  gets : list (Measurement + error);
  outputs : list (option error);
  clock : Z;
  appends : list (option error)
}.

#[global] Instance Script_collaborators : Collaborators Script := {|
  client_CreateMeasurement := fun _ w =>
    (default (CreateErr false "unexpected call") (head (creates w)),
     {| creates := tail (creates w); gets := gets w; outputs := outputs w;
        clock := clock w; appends := appends w |});
  client_GetMeasurement := fun _ w =>
    (default (inr "unexpected call") (head (gets w)),
     {| creates := creates w; gets := tail (gets w); outputs := outputs w;
        clock := clock w; appends := appends w |});
  viewer_Output := fun _ _ w =>
    (default None (head (outputs w)),
     {| creates := creates w; gets := gets w; outputs := tail (outputs w);
        clock := clock w; appends := appends w |});
  viewer_OutputInfinite := fun _ w =>
    (default None (head (outputs w)),
     {| creates := creates w; gets := gets w; outputs := tail (outputs w);
        clock := clock w; appends := appends w |});
  viewer_OutputSummary := fun w => w;
  time_Now := fun w => (clock w, w);
  store_Append := fun _ w =>
    (default None (head (appends w)),
     {| creates := creates w; gets := gets w; outputs := outputs w;
        clock := clock w; appends := tail (appends w) |})
|}.

Definition defaultContext : Context :=
  {| ctx_Target := "jsdelivr.com"; ctx_Limit := 1; ctx_CIMode := true;
     ctx_Packets := 3; ctx_Infinite := true; ctx_RecordToSession := false;
     ctx_MeasurementsCreated := 0; ctx_APIMinInterval := 0;
     ctx_History := NewHistoryBuffer 10 |}.

Definition defaultRoot (w : Script) : Root Script :=
  {| ctx := defaultContext; SilenceUsage := false; heap := []; session := [];
     world := w; trace := [] |}.

Definition defaultOpts : MeasurementCreate :=
  {| mc_Type := "ping"; mc_Target := "jsdelivr.com"; mc_Limit := 1;
     mc_InProgressUpdates := false; mc_Locations := [ {| Magic := "Berlin" |} ];
     mc_Options := {| opt_Packets := 16 |} |}.

(** A poll answer: overall status and the per-probe statuses. *)
Definition measurement (id : string) (st : MeasurementStatus)
    (probes : list MeasurementStatus) : Measurement :=
  {| m_ID := id; m_Status := st;
     m_Results := map (fun s => {| Result_Status := s |}) probes |}.


(** ** Sequences of window operations *)

Inductive Op : Type :=
  | OpRestart
  | OpNext
  | OpAppend (hm : Ptr)
  | OpRemove (el : Ptr).

Definition run_op (o : Op) (b : MeasurementsBuffer) : Go MeasurementsBuffer :=
  match o with
  | OpRestart => Ok (Restart b)
  | OpNext => xb ← Next b; Ok (snd xb)
  | OpAppend hm => Ok (Append b hm)
  | OpRemove x => Remove b x
  end.

Fixpoint run_ops (ops : list Op) (b : MeasurementsBuffer) : Go MeasurementsBuffer :=
  match ops with
  | [] => Ok b
  | o :: ops' => b' ← run_op o b; run_ops ops' b'
  end.

(** The discipline the callers of [Append] follow in ping.go: an item is
    appended only while the window has room, and it is not one the window
    already holds. *)
Definition admissible_op (o : Op) (b : MeasurementsBuffer) : Prop :=
  match o with
  | OpAppend hm => len_items b < capacity b ∧ hm ∉ items b
  | _ => True
  end.

Fixpoint admissible (ops : list Op) (b : MeasurementsBuffer) : Prop :=
  match ops with
  | [] => True
  | o :: ops' =>
      admissible_op o b ∧
      match run_op o b with
      | Ok b' => admissible ops' b'
      | Panic => True
      end
  end.

(** The window invariant of the data model. *)
Definition window_inv (b : MeasurementsBuffer) : Prop :=
  len_items b ≤ capacity b ∧ 0 ≤ pos b ≤ len_items b.

(** The addresses handed out by successive calls of [Next], up to the call
    that returns the nil sentinel: the rest of the sweep, as the loop
    [for el != nil] of [ping] sees it. *)
Fixpoint Next_seq (fuel : nat) (b : MeasurementsBuffer) : Go (list nat) :=
  match fuel with
  | O => Ok []
  | S fuel' =>
      xb ← Next b;
      match fst xb with
      | Nil => Ok []
      | Addr a => l ← Next_seq fuel' (snd xb); Ok (a :: l)
      end
  end.

(** The addresses of a slice up to its first nil entry. *)
Fixpoint until_nil (l : list Ptr) : list nat :=
  match l with
  | Addr a :: l' => a :: until_nil l'
  | _ => []
  end.

(** A reference to an allocated history item (not nil). *)
Definition allocated (h : heap_t) (p : Ptr) : Prop :=
  match p with
  | Nil => False
  | Addr a => is_Some (h !! a)
  end.

(** Every held item is a reference to an allocated history item. *)
Definition held_allocated (h : heap_t) (b : MeasurementsBuffer) : Prop :=
  Forall (allocated h) (items b).

(** Some held item has its partially-finished flag set. *)
Definition some_partially_finished (h : heap_t) (b : MeasurementsBuffer) : Prop :=
  ∃ a it, Addr a ∈ items b ∧ h !! a = Some it ∧ IsPartiallyFinishedFlag it = true.

(** The representation invariant kept by admissible operation sequences:
    the window invariant, with pairwise distinct items. *)
Definition window_ok (b : MeasurementsBuffer) : Prop :=
  make_cap_ok (capacity b) = true ∧ window_inv b ∧ NoDup (items b).

(** ** Predicates on the trace *)

(** The events the loop of [ping] may log for a request with options [O]:
    every creation carries these options, and neither the summary nor the
    one-shot output is rendered. *)
Definition ping_event (O : MeasurementOptions) (e : Event) : Prop :=
  match e with
  | EvCreateMeasurement o => mc_Options o = O
  | EvOutputSummary | EvOutput _ _ => False
  | _ => True
  end.

Definition creates_with_packets (p : Z) (e : Event) : Prop :=
  match e with
  | EvCreateMeasurement o => opt_Packets (mc_Options o) = p
  | _ => True
  end.

(** The ids of the measurements rendered incrementally, in order. *)
Definition rendered (tr : list Event) : list string :=
  omap (fun e => match e with EvOutputInfinite m => Some (m_ID m) | _ => None end) tr.

(** The ids of the measurements polled, in order. *)
Definition polled (tr : list Event) : list string :=
  omap (fun e => match e with EvGetMeasurement id => Some id | _ => None end) tr.

(** ** Invariants of the loop *)

Section EngineInvariants.
Context {W : Type} `{!Collaborators W}.

Definition outcome_root (o : Outcome W) : Root W :=
  match o with Continue s | Return _ s => root s | Crash r => r end.

Definition outcome_opts (d : MeasurementCreate) (o : Outcome W) : MeasurementCreate :=
  match o with Continue s | Return _ s => opts s | Crash _ => d end.

(** The session record grows by at most one line, and by none once the
    record-to-session flag is down; the flag is never raised again. *)
Definition session_grows (r r' : Root W) : Prop :=
  ∃ l, session r' = session r ++ l ∧ (length l ≤ 1)%nat ∧
       (ctx_RecordToSession (ctx r) = false →
        l = [] ∧ ctx_RecordToSession (ctx r') = false) ∧
       (l ≠ [] → ctx_RecordToSession (ctx r') = false).

(** The window of [ping]: capacity 2, cursor in range, pairwise distinct
    items that are allocated, and no nil entry unless an error has been
    recorded. *)
Definition window_sound (s : PingState W) : Prop :=
  capacity (mbuf s) = 2 ∧
  len_items (mbuf s) ≤ 2 ∧
  0 ≤ pos (mbuf s) ≤ len_items (mbuf s) ∧
  NoDup (items (mbuf s)) ∧
  (∀ a, Addr a ∈ items (mbuf s) → (a < length (heap (root s)))%nat) ∧
  (runErr s = None → Nil ∉ items (mbuf s)).

(** Inside an iteration, before [el = mbuf.Next()]: no nil entry lies before
    the cursor. *)
Definition mid_state (s : PingState W) : Prop :=
  window_sound s ∧ Nil ∉ take (Z.to_nat (pos (mbuf s))) (items (mbuf s)).

(** At the test of the inner loop: [el] is the item just before the cursor,
    and no nil entry lies before it. *)
Definition wf_state (s : PingState W) : Prop :=
  window_sound s ∧
  (Nil ∉ take (Z.to_nat (pos (mbuf s) - 1)) (items (mbuf s))) ∧
  (match el s with
   | Nil => True
   | Addr a => 1 ≤ pos (mbuf s) ∧
               items (mbuf s) !! Z.to_nat (pos (mbuf s) - 1) = Some (Addr a)
   end).

(** The window holds a nil entry, it is not empty, and the item being
    polled, if any, lies before the first nil entry. *)
Definition blocked (s : PingState W) : Prop :=
  ∃ l1 l2, items (mbuf s) = l1 ++ Nil :: l2 ∧ (Nil ∉ l1) ∧
           (el s = Nil ∨ el s ∈ l1) ∧ 0 < Len (mbuf s).

(** The history can serve [ping]: its write index is in range, its last
    item, if any, is allocated, and the window is empty as long as
    nothing was pushed. *)
Definition history_sound (s : PingState W) : Prop :=
  let h := ctx_History (ctx (root s)) in
  (writeIndex h < length (slots h))%nat ∧
  (∀ a, History_Last h = Addr a → (a < length (heap (root s)))%nat) ∧
  (History_Last h = Nil → items (mbuf s) = []).

(** The poll of the item [it] fails with [err], or it answers with results
    and rendering them fails with [err]. *)
Definition sweep_call_fails (s : PingState W) (it : HistoryItem) (err : error) : Prop :=
  match client_GetMeasurement (Id it) (world (root s)) with
  | (inr e, _) => e = err
  | (inl m, w) => m_Results m ≠ [] ∧ (viewer_OutputInfinite m w).1 = Some err
  end.

End EngineInvariants.

(** ** Concrete runs *)

Definition script (cs : list CreateResult) (gs : list (Measurement + error))
    (os : list (option error)) : Script :=
  {| creates := cs; gets := gs; outputs := os; clock := 0; appends := [] |}.

(** A measurement with one probe done and one still running. *)
Definition partial (id : string) : Measurement :=
  measurement id StatusInProgress [StatusFinished; StatusInProgress].

(** Two measurements overlap; then the poll of the first one fails. *)
Definition poll_fails : Script :=
  script [CreateOk "m1"; CreateOk "m2"]
         [inl (partial "m1"); inl (measurement "m2" StatusInProgress []);
          inr "poll failed"]
         [].

(** Two measurements overlap; then rendering the first one fails. *)
Definition render_fails : Script :=
  script [CreateOk "m1"; CreateOk "m2"]
         [inl (partial "m1"); inl (measurement "m2" StatusInProgress []);
          inl (partial "m1")]
         [None; Some "render failed"].

(** The creation issued mid-sweep fails; the first measurement finishes
    two rounds later. *)
Definition creation_fails : Script :=
  script [CreateOk "m1"; CreateErr false "quota exceeded"]
         [inl (partial "m1"); inl (partial "m1");
          inl (measurement "m1" StatusFinished [StatusFinished; StatusFinished])]
         [].

(** The first poll answers with a terminal status and no results. *)
Definition finished_without_results : Script :=
  script [CreateOk "m1"] [inl (measurement "m1" StatusFinished [])] [].

(** A history item as [createMeasurement] allocates it. *)
Definition item (id : string) (flag : bool) : HistoryItem :=
  {| Id := id; Status := StatusInProgress; ProbeStatus := []; StartedAt := 0;
     IsPartiallyFinishedFlag := flag |}.

(** The loop at the test of its inner [for], polling the one measurement
    in flight: [flagged] tells whether it was seen partially finished. *)
Definition polling_first (flagged : bool) (w : Script) : PingState Script :=
  {| root := {| ctx := set_History (History_Push (NewHistoryBuffer 10) (Addr 0))
                         (set_MeasurementsCreated 1
                            (set_RecordToSession false defaultContext));
                SilenceUsage := false; heap := [item "m1" flagged];
                session := ["m1"]; world := w; trace := [] |};
     opts := defaultOpts; runErr := None;
     mbuf := {| capacity := 2; items := [Addr 0]; pos := 1 |};
     elapsedTime := 0; el := Addr 0 |}.

Definition no_updateContext (r : Root Script) : option error * Root Script :=
  (None, r).

Definition locations_Berlin (r : Root Script) : (list Locations + error) * Root Script :=
  (inl [ {| Magic := "Berlin" |} ], r).

(** ** Further window facts *)

(** The number of entries of [l] that are [el]. *)
Definition occurrences (el : Ptr) (l : list Ptr) : nat :=
  length (filter (λ x, x = el) l).

(** ** Further predicates on runs *)

(** The ids handed to [saveIdToSession], in order. *)
Definition saved_ids (tr : list Event) : list string :=
  omap (fun e => match e with EvSaveIdToSession id => Some id | _ => None end) tr.

(** The requests handed to [CreateMeasurement], in order. *)
Definition created (tr : list Event) : list MeasurementCreate :=
  omap (fun e => match e with EvCreateMeasurement o => Some o | _ => None end) tr.

(** The request [o] is [o0] but for its locations. *)
Definition same_but_locations (o0 o : MeasurementCreate) : Prop :=
  mc_Type o = mc_Type o0 ∧ mc_Target o = mc_Target o0 ∧ mc_Limit o = mc_Limit o0 ∧
  mc_InProgressUpdates o = mc_InProgressUpdates o0 ∧ mc_Options o = mc_Options o0.

(** The calls the loop of [ping] makes for a request [o0]: creations of
    [o0] with other locations, polls, incremental renders, clock reads,
    session saves, warnings and sleeps; never the one-shot render or the
    summary. *)
Definition loop_event (o0 : MeasurementCreate) (e : Event) : Prop :=
  match e with
  | EvCreateMeasurement o => same_but_locations o0 o
  | EvOutputSummary | EvOutput _ _ => False
  | _ => True
  end.

(** Clock reads, session saves and warnings. *)
Definition housekeeping (e : Event) : Prop :=
  match e with
  | EvNow | EvSaveIdToSession _ | EvPrintf _ => True
  | _ => False
  end.

(** What a history item keeps for life: its id, its probe statuses and its
    start time. *)
Definition same_identity (it it' : HistoryItem) : Prop :=
  Id it' = Id it ∧ ProbeStatus it' = ProbeStatus it ∧ StartedAt it' = StartedAt it.

Section RunInvariants.
Context {W : Type} `{!Collaborators W}.

(** From [r] to [r']: every history item is still at its address with its
    identity, the counter of created measurements has been incremented
    once for each item allocated (an increment wraps around at 64 bits),
    and the settings of the command are the same. *)
Definition root_evolves (r r' : Root W) : Prop :=
  (∀ a it, heap r !! a = Some it →
           ∃ it', heap r' !! a = Some it' ∧ same_identity it it') ∧
  (length (heap r) ≤ length (heap r'))%nat ∧
  ctx_MeasurementsCreated (ctx r')
  = Nat.iter (length (heap r') - length (heap r)) (λ c, wrap64 (c + 1))
             (ctx_MeasurementsCreated (ctx r)) ∧
  ctx_Target (ctx r') = ctx_Target (ctx r) ∧
  ctx_Limit (ctx r') = ctx_Limit (ctx r) ∧
  ctx_CIMode (ctx r') = ctx_CIMode (ctx r) ∧
  ctx_Packets (ctx r') = ctx_Packets (ctx r) ∧
  ctx_Infinite (ctx r') = ctx_Infinite (ctx r) ∧
  ctx_APIMinInterval (ctx r') = ctx_APIMinInterval (ctx r).

(** From [r] to [r'] the session store is asked to save at most one id,
    and only with the record-to-session flag up at [r]: then either nothing
    has been saved yet, the flag is still up and no item has been
    allocated, or the one id saved is that of the first item allocated
    since [r] and the flag is down. With the flag down at [r] nothing is
    saved and the flag stays down. *)
Definition saves_first (r r' : Root W) : Prop :=
  ∃ evs, trace r' = trace r ++ evs ∧
         (ctx_RecordToSession (ctx r) = false →
          saved_ids evs = [] ∧ ctx_RecordToSession (ctx r') = false) ∧
         (ctx_RecordToSession (ctx r) = true →
          (saved_ids evs = [] ∧ ctx_RecordToSession (ctx r') = true ∧
           length (heap r') = length (heap r)) ∨
          (∃ it, saved_ids evs = [Id it] ∧
                 heap r' !! length (heap r) = Some it ∧
                 ctx_RecordToSession (ctx r') = false)).

(** Both at once. *)
Definition follows (r r' : Root W) : Prop :=
  root_evolves r r' ∧ saves_first r r'.

(** The item at address [a] is allocated and out of the window. *)
Definition out_of_window (a : nat) (s : PingState W) : Prop :=
  (a < length (heap (root s)))%nat ∧ Addr a ∉ items (mbuf s).

(** The item at address [a] is allocated, out of the window and not the
    one being polled. *)
Definition retired (a : nat) (s : PingState W) : Prop :=
  out_of_window a s ∧ el s ≠ Addr a.

End RunInvariants.

(** ** The first command line (package cmd, root.go as it was)

    The positional arguments of a command are [target] or
    [target from <location words>]; the context of this version of the
    command line is [model.Context]. *)

Module model.

(** model/root.go, lines 4-12 *)
Record Context : Type := {
  Target : string;
  From : string;
  Limit : Z;
  JsonOutput : bool;
  Latency : bool
}.

Definition set_Target (t : string) (c : Context) : Context :=
  {| Target := t; From := From c; Limit := Limit c;
     JsonOutput := JsonOutput c; Latency := Latency c |}.

Definition set_From (f : string) (c : Context) : Context :=
  {| Target := Target c; From := f; Limit := Limit c;
     JsonOutput := JsonOutput c; Latency := Latency c |}.

End model.

(** [strings.Split(s, sep)] for a separator of one byte: the pieces of [s]
    between the separators, in order; a string without separator is its
    own single piece. *)
Fixpoint Split (sep : Ascii.ascii) (s : string) : list string :=
  match s with
  | EmptyString => [EmptyString]
  | String c s' =>
      if Ascii.eqb c sep then EmptyString :: Split sep s'
      else match Split sep s' with
           | [] => [String c EmptyString]
           | x :: xs => String c x :: xs
           end
  end.

(** The byte of the comma. *)
Definition comma : Ascii.ascii := Ascii.ascii_of_nat 44.

(** [strings.Join(elems, sep)] *)
Definition Join (elems : list string) (sep : string) : string :=
  String.concat sep elems.

(** The number of bytes of [s] equal to [c]. *)
Fixpoint count_byte (c : Ascii.ascii) (s : string) : nat :=
  match s with
  | EmptyString => 0
  | String c' s' => (if Ascii.eqb c' c then 1 else 0) + count_byte c s'
  end.

Section CommandLine.
(** [strings.TrimSpace], of the Go library, is taken as it comes. *)
Variable TrimSpace : string → string.

(** root.go, lines 58-65: the check that cobra runs on the positional
    arguments; [cmd] is not looked at. *)
Definition checkCommandFormat (args : list string) : Go (option error) :=
  if 1 <? Z.of_nat (length args) then
    a ← index args 1;
    if decide (a ≠ "from") then Ok (Some "invalid command format") else Ok None
  else Ok None.

(** root.go, lines 67-79, on the package variable [ctx]. *)
Definition createContext (args : list string) (c : model.Context)
  : Go model.Context :=
  t ← index args 0;
  let c := model.set_Target t c in
  let c := if Z.of_nat (length args) =? 1 then model.set_From "world" c else c in
  if 1 <? Z.of_nat (length args) then
    a ← index args 1;
    if decide (a = "from")
    then Ok (model.set_From (TrimSpace (Join (drop 2 args) " ")) c)
    else Ok c
  else Ok c.

(** root.go, lines 81-90 *)
Definition createLocations (from : string) : list Locations :=
  (fun v => {| Magic := TrimSpace v |}) <$> Split comma from.

End CommandLine.

(** ** The chain of creations *)

(** The locations of the creation that follows the ones that were given
    the ids [ids]: the id given last, and [locs0] when there is none. *)
Definition next_locations (locs0 : list Locations) (ids : list string)
  : list Locations :=
  match last ids with
  | None => locs0
  | Some id => [ {| Magic := id |} ]
  end.

(** The requests [cs] were answered, in order, with the ids [ids], but
    possibly the last one: the first request asks for the locations
    [locs0] and every later one for the id its predecessor was given. *)
Definition chained (locs0 : list Locations) (cs : list MeasurementCreate)
    (ids : list string) : Prop :=
  (length ids ≤ length cs ≤ S (length ids))%nat ∧
  (∀ c, cs !! 0%nat = Some c → mc_Locations c = locs0) ∧
  (∀ k c, cs !! S k = Some c →
          ∃ id, ids !! k = Some id ∧ mc_Locations c = [ {| Magic := id |} ]).

Section ChainInvariants.
Context {W : Type} `{!Collaborators W}.

(** The ids of the items allocated since [r0]. *)
Definition new_ids (r0 r : Root W) : list string :=
  drop (length (heap r0)) (Id <$> heap r).

(** The history has room for a push. *)
Definition history_usable (r : Root W) : Prop :=
  (writeIndex (ctx_History (ctx r)) < length (slots (ctx_History (ctx r))))%nat.

(** The next creation of the loop will ask for [next_locations]: the last
    item of the history is the one created last, and with an empty history
    the request still has the locations it came with. *)
Definition primed (locs0 : list Locations) (ids : list string)
    (s : PingState W) : Prop :=
  match History_Last (ctx_History (ctx (root s))) with
  | Nil => ids = [] ∧ mc_Locations (opts s) = locs0
  | Addr a => ∃ it, heap (root s) !! a = Some it ∧ last ids = Some (Id it)
  end.

Definition chain_inv (r0 : Root W) (locs0 : list Locations) (s : PingState W)
  : Prop :=
  (length (heap r0) ≤ length (heap (root s)))%nat ∧
  ∃ evs, trace (root s) = trace r0 ++ evs ∧
         chained locs0 (created evs) (new_ids r0 (root s)) ∧
         (runErr s = None →
          length (created evs) = length (new_ids r0 (root s)) ∧
          history_usable (root s) ∧
          primed locs0 (new_ids r0 (root s)) s).

(** What holds of the creations when the loop has returned. *)
Definition chain_done (r0 : Root W) (locs0 : list Locations) (r : Root W)
  : Prop :=
  (length (heap r0) ≤ length (heap r))%nat ∧
  ∃ evs, trace r = trace r0 ++ evs ∧
         chained locs0 (created evs) (new_ids r0 r).

End ChainInvariants.

(** ** Further scripts *)

(** The first measurement is finished at the first poll; a second one can
    be created. *)
Definition finishes_at_once : Script :=
  script [CreateOk "m2"]
         [inl (measurement "m1" StatusFinished [StatusFinished])]
         [None].

(** Three measurements, each finished at its first poll. *)
Definition three_rounds : Script :=
  script [CreateOk "m1"; CreateOk "m2"; CreateOk "m3"]
         [inl (measurement "m1" StatusFinished [StatusFinished]);
          inl (measurement "m2" StatusFinished [StatusFinished])]
         [None; None].

(** The root of [defaultRoot] with the infinite flag down. *)
Definition oneShotRoot (w : Script) : Root Script :=
  with_ctx (set_Infinite false defaultContext) (defaultRoot w).

(** * 64-bit arithmetic *)

Lemma wrap64_id (z : Z) : in_int64 z → wrap64 z = z.
Proof.
  unfold in_int64, wrap64. intros Hz. rewrite Z.mod_small; lia.
Qed.

Lemma wrap64_add (x y : Z) : wrap64 (wrap64 x + y) = wrap64 (x + y).
Proof.
  unfold wrap64. f_equal.
  replace ((x + 9223372036854775808) `mod` 18446744073709551616
           - 9223372036854775808 + y + 9223372036854775808)
    with ((x + 9223372036854775808) `mod` 18446744073709551616 + y) by lia.
  rewrite Zplus_mod_idemp_l. f_equal. lia.
Qed.

(** * Properties of the polling window *)

Lemma make_cap_ok_spec (cap : Z) :
  make_cap_ok cap = true ↔ 0 ≤ cap ≤ 35184372088832.
Proof. unfold make_cap_ok, maxAlloc. lia. Qed.

Lemma CanAppend_loop_spec (h : heap_t) (l : list Ptr) :
  Forall (allocated h) l →
  ∃ r, CanAppend_loop h l = Ok r ∧
       (r = true ↔ ∃ a it, Addr a ∈ l ∧ h !! a = Some it ∧ IsPartiallyFinishedFlag it = true).
Proof.
  induction l as [|p l IH]; intros Hall.
  - exists false. split; [done|]. split; [done|].
    intros (a & it & Hin & _). by apply elem_of_nil in Hin.
  - apply Forall_cons in Hall as [Hp Hall].
    destruct p as [|a]; [done|]. destruct Hp as [it Hit].
    simpl. rewrite Hit.
    destruct (IsPartiallyFinishedFlag it) eqn:Hf.
    + exists true. split; [done|]. split; [|done].
      intros _. exists a, it. split; [by left|done].
    + destruct (IH Hall) as (r & Hr & Hiff).
      exists r. split; [done|]. rewrite Hiff. split.
      * intros (a' & it' & Hin & H1 & H2). exists a', it'. split; [by right|done].
      * intros (a' & it' & Hin & H1 & H2).
        apply elem_of_cons in Hin as [Heq|Hin].
        -- simplify_eq. congruence.
        -- by exists a', it'.
Qed.

(** C4, as amended. On a window whose held entries are references to
    allocated history items (none of them nil), [CanAppend] returns true
    exactly when the occupancy is strictly below the capacity and some held
    item has its partially-finished flag set; on a full window it returns
    false whatever the flags and the entries are: there the items are not
    inspected. *)
Theorem CanAppend_spec (h : heap_t) (b : MeasurementsBuffer)
    (Hheld : len_items b < capacity b → held_allocated h b) :
  ∃ r, CanAppend h b = Ok r ∧
       (r = true ↔ len_items b < capacity b ∧ some_partially_finished h b) ∧
       (len_items b = capacity b → r = false).
Proof.
  unfold CanAppend.
  destruct (Z.leb_spec (capacity b) (len_items b)) as [Hle|Hlt].
  - exists false. split; [done|]. split; [|done]. split; [done|]. intros [? _]. lia.
  - destruct (CanAppend_loop_spec h (items b) (Hheld Hlt)) as (r & Hr & Hiff).
    exists r. split; [done|]. split; [|lia].
    rewrite Hiff. unfold some_partially_finished. tauto.
Qed.

Lemma Remove_loop_notin el l r i newb p :
  el ∉ l →
  Remove_loop el i (l ++ r) newb p
  = Remove_loop el (i + Z.of_nat (length l)) r (newb ++ l) p.
Proof.
  revert i newb. induction l as [|x l IH]; intros i newb Hnotin; simpl.
  - by rewrite Z.add_0_r, app_nil_r.
  - apply not_elem_of_cons in Hnotin as [Hne Hnotin].
    rewrite decide_True by done.
    rewrite IH by done. rewrite <- app_assoc. simpl. f_equal. lia.
Qed.

Lemma Remove_loop_absent el l p :
  el ∉ l → Remove_loop el 0 l [] p = (l, p).
Proof.
  intros Hnotin. rewrite <- (app_nil_r l) at 1.
  by rewrite Remove_loop_notin.
Qed.

Lemma Remove_loop_once el l1 l2 p :
  el ∉ l1 → el ∉ l2 →
  Remove_loop el 0 (l1 ++ el :: l2) [] p
  = (l1 ++ l2, if Z.of_nat (length l1) <? p then p - 1 else p).
Proof.
  intros H1 H2. rewrite Remove_loop_notin by done. simpl.
  destruct (decide (el ≠ el)) as [Hne|_]; [done|]. rewrite Z.add_0_l.
  destruct (Z.of_nat (length l1) <? p);
    rewrite <- (app_nil_r l2) at 1; by rewrite Remove_loop_notin.
Qed.

Lemma Next_at_end b :
  len_items b ≤ pos b → Next b = Ok (Nil, b).
Proof. intros Hle. unfold Next. by destruct (Z.leb_spec (len_items b) (pos b)); [|lia]. Qed.

Lemma Next_in_range b x :
  0 ≤ pos b → items b !! Z.to_nat (pos b) = Some x →
  Next b = Ok (x, {| capacity := capacity b; items := items b; pos := pos b + 1 |}).
Proof.
  intros Hpos Hx. unfold Next.
  apply lookup_lt_Some in Hx as Hlt. unfold len_items.
  destruct (Z.leb_spec (Z.of_nat (length (items b))) (pos b)); [lia|].
  simpl. unfold index. destruct (Z.ltb_spec (pos b + 1 - 1) 0); [lia|].
  replace (pos b + 1 - 1) with (pos b) by lia. by rewrite Hx.
Qed.

Lemma Next_seq_closed fuel b :
  0 ≤ pos b →
  (length (until_nil (drop (Z.to_nat (pos b)) (items b))) ≤ fuel)%nat →
  Next_seq fuel b = Ok (until_nil (drop (Z.to_nat (pos b)) (items b))).
Proof.
  revert b. induction fuel as [|fuel IH]; intros b Hpos Hfuel.
  - simpl. destruct (until_nil _); [done|simpl in Hfuel; lia].
  - simpl. destruct (items b !! Z.to_nat (pos b)) as [x|] eqn:Hx.
    + rewrite (Next_in_range b x) by done. simpl.
      rewrite (drop_S _ _ _ Hx) in Hfuel |- *.
      destruct x as [|a]; [done|]. simpl in Hfuel |- *.
      specialize (IH {| capacity := capacity b; items := items b; pos := pos b + 1 |}).
      simpl in IH. replace (Z.to_nat (pos b + 1)) with (S (Z.to_nat (pos b))) in IH by lia.
      rewrite IH by lia. done.
    + apply lookup_ge_None in Hx.
      rewrite Next_at_end by (unfold len_items; lia). simpl.
      by rewrite drop_ge.
Qed.

Lemma until_nil_length l : (length (until_nil l) ≤ length l)%nat.
Proof.
  induction l as [|[|a] l IH]; simpl; lia.
Qed.





Lemma Next_ok b :
  window_ok b → ∃ x b', Next b = Ok (x, b') ∧ window_ok b' ∧
                        capacity b' = capacity b ∧ items b' = items b.
Proof.
  intros (Hcap & (Hlen & Hpos) & Hnd). unfold len_items in *.
  destruct (items b !! Z.to_nat (pos b)) as [x|] eqn:Hx.
  - exists x. eexists. split; [by apply Next_in_range; [lia|]|].
    apply lookup_lt_Some in Hx.
    unfold window_ok, window_inv, len_items. simpl. repeat split; try done; lia.
  - exists Nil, b. apply lookup_ge_None in Hx.
    split; [apply Next_at_end; unfold len_items; lia|].
    unfold window_ok, window_inv, len_items. repeat split; try done; lia.
Qed.

Lemma Remove_loop_items el rest i newb p :
  (Remove_loop el i rest newb p).1 = newb ++ filter (λ x, x ≠ el) rest.
Proof.
  revert i newb p. induction rest as [|x rest IH]; intros i newb p; simpl.
  - by rewrite app_nil_r.
  - destruct (decide (x ≠ el)) as [Hne|Heq].
    + rewrite IH, filter_cons_True by done. by rewrite <- app_assoc.
    + rewrite filter_cons_False by done. destruct (i <? p); apply IH.
Qed.

Lemma Remove_items b el b' :
  Remove b el = Ok b' →
  capacity b' = capacity b ∧ items b' = filter (λ x, x ≠ el) (items b).
Proof.
  unfold Remove, len_items. intros Hrm.
  destruct (Z.eqb_spec (Z.of_nat (length (items b))) 0) as [H0|H0].
  { simplify_eq. destruct (items b'); [done|simpl in H0; lia]. }
  destruct (make_cap_ok (capacity b)); [|done].
  pose proof (Remove_loop_items el (items b) 0 [] (pos b)) as Hit.
  destruct (Remove_loop el 0 (items b) [] (pos b)) as [newb p'].
  by simplify_eq.
Qed.

Lemma Remove_ok b el :
  window_ok b → ∃ b', Remove b el = Ok b' ∧ window_ok b'.
Proof.
  intros (Hcap & (Hlen & Hpos) & Hnd). unfold Remove, len_items in *.
  destruct (Z.eqb_spec (Z.of_nat (length (items b))) 0) as [H0|H0].
  { exists b. by unfold window_ok, window_inv, len_items. }
  rewrite Hcap.
  destruct (decide (el ∈ items b)) as [Hin|Hnotin].
  - apply list_elem_of_split in Hin as (l1 & l2 & Heq). rewrite Heq in *.
    apply NoDup_app in Hnd as (Hnd1 & Hdisj & Hnd2).
    apply NoDup_cons in Hnd2 as [Hn2 Hnd2].
    assert (el ∉ l1) as Hn1 by (intros Hin; apply (Hdisj _ Hin); by left).
    rewrite Remove_loop_once by done.
    eexists. split; [reflexivity|].
    rewrite length_app in *. simpl in *.
    unfold window_ok, window_inv, len_items. simpl. rewrite length_app.
    repeat split; try done; try lia.
    + destruct (Z.ltb_spec (Z.of_nat (length l1)) (pos b)); lia.
    + destruct (Z.ltb_spec (Z.of_nat (length l1)) (pos b)); lia.
    + apply NoDup_app. repeat split; try done.
      intros x Hx Hx2. apply (Hdisj _ Hx). by right.
  - rewrite Remove_loop_absent by done. exists b.
    split; [by destruct b|]. by unfold window_ok, window_inv, len_items.
Qed.

Lemma run_op_ok o b :
  window_ok b → admissible_op o b → ∃ b', run_op o b = Ok b' ∧ window_ok b' ∧
                                          capacity b' = capacity b.
Proof.
  intros Hok Hadm. destruct o as [| |hm|el]; simpl.
  - exists (Restart b). split; [done|].
    destruct Hok as (Hcap & (Hlen & Hpos) & Hnd).
    unfold window_ok, window_inv, len_items in *. simpl. repeat split; try done; lia.
  - destruct (Next_ok b Hok) as (x & b' & -> & Hok' & Hc & _). simpl. eauto.
  - exists (Append b hm). split; [done|].
    destruct Hok as (Hcap & (Hlen & Hpos) & Hnd). destruct Hadm as [Hroom Hfresh].
    unfold window_ok, window_inv, len_items in *. simpl. rewrite length_app. simpl.
    repeat split; try done; try lia.
    apply NoDup_app. repeat split; try done.
    + intros x Hx Hx'. apply list_elem_of_singleton in Hx'. by subst.
    + apply NoDup_singleton.
  - destruct (Remove_ok b el Hok) as (b' & Hrm & Hok'). exists b'.
    apply Remove_items in Hrm as Hc. destruct Hc as [Hc _]. done.
Qed.

Lemma run_ops_ok ops b :
  window_ok b → admissible ops b →
  ∃ b', run_ops ops b = Ok b' ∧ window_ok b' ∧ capacity b' = capacity b.
Proof.
  revert b. induction ops as [|o ops IH]; intros b Hok Hadm; simpl in *.
  - by exists b.
  - destruct Hadm as [Hop Hrest].
    destruct (run_op_ok o b Hok Hop) as (b1 & Hrun & Hok1 & Hcap1).
    rewrite Hrun in *. simpl.
    destruct (IH b1 Hok1 Hrest) as (b' & -> & Hok' & Hcap').
    exists b'. split; [done|]. split; [done|]. congruence.
Qed.

(** C6, as amended. From a fresh window, every sequence of operations whose
    appends are issued with room left and with an item the window does not
    hold runs without a panic and ends in a window of the same capacity
    with at most [capacity] items and its cursor in [0, len]. *)
Theorem window_inv_admissible (cap : Z) (ops : list Op) (b0 : MeasurementsBuffer)
    (Hnew : NewMeasurementsBuffer cap = Ok b0)
    (Hadm : admissible ops b0) :
  ∃ b, run_ops ops b0 = Ok b ∧ capacity b = cap ∧
       len_items b ≤ capacity b ∧ 0 ≤ pos b ≤ len_items b.
Proof.
  unfold NewMeasurementsBuffer in Hnew.
  destruct (make_cap_ok cap) eqn:Hrange; [|done]. simplify_eq.
  assert (0 ≤ cap) as Hcap0 by (unfold make_cap_ok in Hrange; lia).
  destruct (run_ops_ok ops {| capacity := cap; items := []; pos := 0 |})
    as (b & Hrun & (Hcap & (Hlen & Hpos) & Hnd) & Hc); [|done|].
  { unfold window_ok, window_inv, len_items. simpl.
    repeat split; try done; try lia. apply NoDup_nil_2. }
  exists b. done.
Qed.

(** C6 fails as stated. [Append] does not look at the capacity: two appends
    on a fresh window of capacity 1 leave it with two items. And once an
    item is held twice, removing it leaves the cursor beyond the end. *)
Lemma window_inv_broken :
  (∃ b0 b, NewMeasurementsBuffer 1 = Ok b0 ∧
           run_ops [OpAppend (Addr 0); OpAppend (Addr 1)] b0 = Ok b ∧
           len_items b = 2 ∧ capacity b = 1 ∧ ¬ window_inv b) ∧
  (∃ b0 b, NewMeasurementsBuffer 2 = Ok b0 ∧
           run_ops [OpAppend (Addr 0); OpAppend (Addr 0); OpNext; OpNext;
                    OpRemove (Addr 0)] b0 = Ok b ∧
           len_items b = 0 ∧ pos b = 1 ∧ ¬ window_inv b).
Proof.
  split; eexists; eexists; (split; [reflexivity|]); (split; [reflexivity|]);
    (split; [reflexivity|]); (split; [reflexivity|]);
    unfold window_inv, len_items; simpl; lia.
Qed.

(** C4 fails as stated. The window has room and holds an item with its
    partially-finished flag set, and [CanAppend] does not return true: the
    nil entry that comes first is dereferenced and the call panics. With
    room and a nil entry alone it panics where the claim says false. *)
Lemma CanAppend_nil_entry_panics :
  let h := [ {| Id := "m1"; Status := StatusInProgress; ProbeStatus := [];
                StartedAt := 0; IsPartiallyFinishedFlag := true |} ] in
  let b := {| capacity := 3; items := [Nil; Addr 0]; pos := 0 |} in
  (len_items b < capacity b ∧ some_partially_finished h b ∧
   CanAppend h b = Panic) ∧
  (len_items (Append {| capacity := 2; items := []; pos := 0 |} Nil) < 2 ∧
   CanAppend h (Append {| capacity := 2; items := []; pos := 0 |} Nil) = Panic).
Proof.
  intros h b. split.
  - split; [unfold len_items; simpl; lia|]. split; [|reflexivity].
    exists 0%nat. eexists. split; [|split; reflexivity].
    apply elem_of_cons. right. by left.
  - split; [unfold len_items; simpl; lia|reflexivity].
Qed.


Lemma CanAppend_spec_witness :
  let h := [ {| Id := "m1"; Status := StatusInProgress; ProbeStatus := [];
                StartedAt := 0; IsPartiallyFinishedFlag := true |} ] in
  let b := {| capacity := 2; items := [Addr 0]; pos := 1 |} in
  (len_items b < capacity b → held_allocated h b) ∧
  ∃ r, CanAppend h b = Ok r ∧
       (r = true ↔ len_items b < capacity b ∧ some_partially_finished h b) ∧
       (len_items b = capacity b → r = false).
Proof.
  intros h b.
  assert (len_items b < capacity b → held_allocated h b) as Hheld.
  { intros _. repeat constructor. by eexists. }
  split; [exact Hheld|]. exact (CanAppend_spec h b Hheld).
Defined.


Lemma window_inv_admissible_witness :
  let ops := [OpAppend (Addr 0); OpNext; OpAppend (Addr 1); OpRemove (Addr 0);
              OpNext; OpRestart] in
  ∃ b0 b, NewMeasurementsBuffer 2 = Ok b0 ∧ admissible ops b0 ∧
          run_ops ops b0 = Ok b ∧ capacity b = 2 ∧
          len_items b ≤ capacity b ∧ 0 ≤ pos b ≤ len_items b.
Proof.
  intros ops. eexists.
  assert (admissible ops {| capacity := 2; items := []; pos := 0 |}) as Hadm.
  { unfold len_items. simpl. repeat split; try lia.
    - apply not_elem_of_nil.
    - apply not_elem_of_cons. split; [discriminate|apply not_elem_of_nil]. }
  destruct (window_inv_admissible 2 ops _ eq_refl Hadm) as (b & Hrun & Hcap & Hlen & Hpos).
  exists b. split; [reflexivity|]. split; [exact Hadm|]. split; [exact Hrun|].
  split; [exact Hcap|]. split; [exact Hlen|exact Hpos].
Defined.

(** * Properties of the engine *)

Section EngineProperties.
Context {W : Type} `{!Collaborators W}.

Ltac unfold_engine :=
  unfold ping_step, ping_body, ping_after_sweep, maybe_overlap, overlap, retarget,
    start_round, advance, createMeasurement, saveIdToSession, Now, Printf, call,
    with_root, with_mbuf, with_heap, with_ctx, with_session, with_SilenceUsage in *.

Lemma ping_step_trace (s : PingState W) :
  ∃ evs, trace (outcome_root (ping_step s)) = trace (root s) ++ evs ∧
         Forall (ping_event (mc_Options (opts s))) evs ∧
         mc_Options (outcome_opts (opts s) (ping_step s)) = mc_Options (opts s).
Proof.
  unfold_engine.
  repeat (case_match; simplify_eq/=);
    rewrite <- ?app_assoc;
    (eexists; split; [try reflexivity; by rewrite app_nil_r | split; [repeat constructor|done]]).
Qed.

Lemma ping_run_trace (n : nat) (s : PingState W) :
  ∃ evs, trace (outcome_root (ping_run n s)) = trace (root s) ++ evs ∧
         Forall (ping_event (mc_Options (opts s))) evs.
Proof.
  revert s. induction n as [|n IH]; intros s; simpl.
  - exists []. by rewrite app_nil_r.
  - destruct (ping_step_trace s) as (evs & Htr & Hall & Hopts).
    destruct (ping_step s) as [s'|e s'|r'] eqn:Hstep; simpl in *; eauto.
    destruct (IH s') as (evs' & Htr' & Hall').
    exists (evs ++ evs'). rewrite Htr', Htr, app_assoc. split; [done|].
    apply Forall_app. split; [done|]. by rewrite <- Hopts.
Qed.

Lemma ping_run_options (n : nat) (s : PingState W) :
  mc_Options (outcome_opts (opts s) (ping_run n s)) = mc_Options (opts s).
Proof.
  revert s. induction n as [|n IH]; intros s; simpl; [done|].
  destruct (ping_step_trace s) as (_ & _ & _ & Hopts).
  destruct (ping_step s) as [s'|e s'|r']; simpl in *; [|done|done].
  specialize (IH s'). destruct (ping_run n s'); simpl in *; congruence.
Qed.

(** The main task renders the summary while the goroutine is at [s]. *)
Lemma ping_run_after_summary (m : nat) (s : PingState W) :
  ∃ evs, trace (outcome_root (ping_run m (with_root (OutputSummary (root s)) s)))
         = trace (root s) ++ EvOutputSummary :: evs ∧
         Forall (ping_event (mc_Options (opts s))) evs.
Proof.
  destruct (ping_run_trace m (with_root (OutputSummary (root s)) s))
    as (evs & Htr & Hall).
  exists evs. split; [|done]. rewrite Htr. simpl. by rewrite <- app_assoc.
Qed.

Lemma ping_init_eq (o : MeasurementCreate) (r : Root W) :
  ping_init o r = Continue {| root := r; opts := o; runErr := None;
                              mbuf := {| capacity := 2; items := []; pos := 0 |};
                              elapsedTime := 0; el := Nil |}.
Proof. reflexivity. Qed.

Lemma ping_trace (n : nat) (o : MeasurementCreate) (r : Root W) :
  ∃ evs, trace (outcome_root (ping n o r)) = trace r ++ evs ∧
         Forall (ping_event (mc_Options o)) evs.
Proof. unfold ping. rewrite ping_init_eq. apply ping_run_trace. Qed.


(** C7. A continuous run whose probe limit exceeds 5 is rejected with the
    fixed error (it ends in "limited to 5 probes") and the receiver is
    handed back as it was: no call on a collaborator is logged and the loop
    is not entered. With a limit of at most 5 the check passes and the
    result is that of the run of [ping]. *)
Theorem pingInfinite_limit (n m : nat) (o : MeasurementCreate) (r : Root W) :
  (5 < ctx_Limit (ctx r) →
   pingInfinite n m o r
   = Done (Some "continous mode is currently limited to 5 probes") r ∧
   ∃ pre, "continous mode is currently limited to 5 probes" = pre +:+ "limited to 5 probes") ∧
  (ctx_Limit (ctx r) ≤ 5 →
   pingInfinite n m o r
   = match ping n o r with
     | Crash r' => Panicked r'
     | Return err s => Done (Some err) (root s)
     | Continue s =>
         match ping_run m (with_root (OutputSummary (root s)) s) with
         | Crash r' => Panicked r'
         | Return err s' => Done (Some err) (root s')
         | Continue s' => Done None (root s')
         end
     end ∧
   pingInfinite n 0 o r
   = match ping n o r with
     | Crash r' => Panicked r'
     | Return err s => Done (Some err) (root s)
     | Continue s => Done None (OutputSummary (root s))
     end).
Proof.
  unfold pingInfinite. split; intros Hlim.
  - destruct (Z.ltb_spec 5 (ctx_Limit (ctx r))); [|lia].
    split; [done|]. by exists "continous mode is currently ".
  - by destruct (Z.ltb_spec 5 (ctx_Limit (ctx r))); [lia|].
Qed.


Lemma session_grows_refl (r : Root W) : session_grows r r.
Proof.
  exists []. rewrite app_nil_r. split; [done|]. split; [simpl; lia|].
  split; [by intros ->|done].
Qed.

Lemma session_grows_trans (r1 r2 r3 : Root W) :
  session_grows r1 r2 → session_grows r2 r3 → session_grows r1 r3.
Proof.
  intros (l & Hs & Hlen & Hoff & Hon) (l' & Hs' & Hlen' & Hoff' & Hon').
  exists (l ++ l'). rewrite Hs', Hs, app_assoc. split; [done|].
  destruct l as [|x l].
  - simpl. split; [done|]. split.
    + intros Hf. destruct (Hoff Hf) as [_ Hf']. by apply Hoff'.
    + done.
  - destruct (Hoff' (Hon ltac:(done))) as [-> Hf3]. rewrite app_nil_r.
    split; [done|]. split; [|done].
    intros Hf. by destruct (Hoff Hf).
Qed.

Lemma ping_step_session (s : PingState W) :
  session_grows (root s) (outcome_root (ping_step s)).
Proof.
  unfold session_grows. unfold_engine.
  repeat (case_match; simplify_eq/=);
    first [ exists []; rewrite app_nil_r; split; [done|]; split; [simpl; lia|];
            split; [intros; split; (done || congruence)|done]
          | eexists [_]; split; [reflexivity|]; split; [simpl; lia|];
            split; [intros; split; (done || congruence)|done] ].
Qed.

Lemma ping_run_session (n : nat) (s : PingState W) :
  session_grows (root s) (outcome_root (ping_run n s)).
Proof.
  revert s. induction n as [|n IH]; intros s; simpl; [apply session_grows_refl|].
  pose proof (ping_step_session s) as Hstep.
  destruct (ping_step s) as [s'|e s'|r']; simpl in *; [|done|done].
  eapply session_grows_trans; [done|apply IH].
Qed.

Lemma ping_session (n : nat) (o : MeasurementCreate) (r : Root W) :
  session_grows r (outcome_root (ping n o r)).
Proof. unfold ping. rewrite ping_init_eq. apply (ping_run_session n). Qed.

(** C2, as amended. A successful creation counts the measurement (the
    counter goes up by one, as a 64-bit integer) and leaves the
    record-to-session flag down. With the flag up at the call, it appends
    one line holding the id to the session record when the store write
    succeeds and nothing when it fails; with the flag down it appends
    nothing. *)
Theorem createMeasurement_session (o : MeasurementCreate) (r : Root W)
    (id : string) (w : W)
    (Hok : client_CreateMeasurement o (world r) = (CreateOk id, w)) :
  ∃ a r', createMeasurement o r = ((Addr a, None), r') ∧
          ctx_MeasurementsCreated (ctx r')
          = wrap64 (ctx_MeasurementsCreated (ctx r) + 1) ∧
          (in_int64 (ctx_MeasurementsCreated (ctx r) + 1) →
           ctx_MeasurementsCreated (ctx r') = ctx_MeasurementsCreated (ctx r) + 1) ∧
          ctx_RecordToSession (ctx r') = false ∧
          (if ctx_RecordToSession (ctx r)
           then match store_Append id (time_Now w).2 with
                | (None, _) => session r' = session r ++ [id]
                | (Some _, _) => session r' = session r
                end
           else session r' = session r).
Proof.
  unfold_engine. rewrite Hok. simpl.
  repeat (case_match; simplify_eq/=); eexists _, _; (split; [reflexivity|]); simpl;
    (split; [reflexivity|]); (split; [apply wrap64_id|]); done.
Qed.

Lemma not_elem_of_take_le {A} (x : A) (l : list A) (n m : nat) :
  (n ≤ m)%nat → x ∉ take m l → x ∉ take n l.
Proof.
  intros Hle Hnot Hin. apply Hnot.
  replace n with (n `min` m)%nat in Hin by lia.
  rewrite <- take_take in Hin. by apply subseteq_take in Hin.
Qed.

Lemma advance_mid (s : PingState W) :
  mid_state s →
  ∃ s', advance s = Continue s' ∧ wf_state s' ∧
        root s' = root s ∧ opts s' = opts s ∧ runErr s' = runErr s ∧
        items (mbuf s') = items (mbuf s).
Proof.
  intros [(Hcap & Hlen & Hpos & Hnd & Hbound & Hnil) Htake].
  unfold advance, len_items in *.
  destruct (items (mbuf s) !! Z.to_nat (pos (mbuf s))) as [x|] eqn:Hx.
  - rewrite (Next_in_range _ x) by (done || lia).
    eexists. split; [reflexivity|]. apply lookup_lt_Some in Hx as Hlt.
    unfold wf_state, window_sound, len_items. simpl.
    replace (pos (mbuf s) + 1 - 1) with (pos (mbuf s)) by lia.
    repeat split; try done; try lia.
    destruct x; [done|]. split; [lia|done].
  - apply lookup_ge_None in Hx.
    rewrite Next_at_end by (unfold len_items; lia).
    eexists. split; [reflexivity|].
    unfold wf_state, window_sound, len_items. simpl.
    repeat split; try done; try lia.
    eapply not_elem_of_take_le; [|done]. lia.
Qed.

Lemma start_round_sound (s : PingState W) :
  window_sound s →
  ∃ s', start_round s = Continue s' ∧ wf_state s' ∧
        root s' = root s ∧ opts s' = opts s ∧ runErr s' = runErr s ∧
        items (mbuf s') = items (mbuf s).
Proof.
  intros (Hcap & Hlen & Hpos & Hnd & Hbound & Hnil). unfold start_round.
  match goal with |- context [advance ?x] => destruct (advance_mid x) as (s' & Hadv & Hrest) end.
  { unfold mid_state, window_sound, len_items in *. simpl.
    repeat split; try done; try lia. rewrite take_0. apply not_elem_of_nil. }
  exists s'. done.
Qed.

Lemma createMeasurement_alloc (o : MeasurementCreate) (r : Root W) :
  (∃ r', createMeasurement o r = ((Addr (length (heap r)), None), r') ∧
         length (heap r') = S (length (heap r))) ∨
  (∃ e r', createMeasurement o r = ((Nil, Some e), r') ∧ heap r' = heap r).
Proof.
  unfold createMeasurement, saveIdToSession, Now, Printf, call,
    with_heap, with_ctx, with_session, with_SilenceUsage.
  repeat (case_match; simplify_eq/=);
    first [ left; eexists; split; [reflexivity|]; simpl; rewrite length_app; simpl; lia
          | right; eexists _, _; split; [reflexivity|]; done ].
Qed.

Lemma Now_frame (r r' : Root W) (t : Z) :
  Now r = (t, r') → heap r' = heap r ∧ ctx r' = ctx r.
Proof. unfold Now, call. case_match. intros; by simplify_eq/=. Qed.

Lemma CanAppend_true_room (h : heap_t) (b : MeasurementsBuffer) :
  CanAppend h b = Ok true → len_items b < capacity b.
Proof.
  unfold CanAppend. destruct (Z.leb_spec (capacity b) (len_items b)); [done|lia].
Qed.

Lemma retarget_frame (s s1 : PingState W) :
  retarget s = Ok s1 →
  root s1 = root s ∧ mbuf s1 = mbuf s ∧ runErr s1 = runErr s ∧ el s1 = el s ∧
  elapsedTime s1 = elapsedTime s.
Proof.
  unfold retarget. intros Hre. repeat (case_match; simplify_eq/=); done.
Qed.

Lemma overlap_mid (s s' : PingState W) :
  mid_state s → runErr s = None → len_items (mbuf s) < 2 →
  overlap s = Ok s' → mid_state s'.
Proof.
  intros [(Hcap & Hlen & Hpos & Hnd & Hbound & Hnil) Htake] Herr Hroom.
  unfold overlap, retarget.
  destruct (History_Last _); [done|]. destruct (heap (root s) !! a); [|done]. simpl.
  destruct (Now (root s)) as [start r1] eqn:HNow1.
  apply Now_frame in HNow1 as [Hh1 _].
  pose proof (createMeasurement_alloc
                (set_Locations [ {| Magic := Id h |} ] (opts s)) r1) as Hcreate.
  destruct (createMeasurement _ r1) as [[hm err] r2].
  destruct (Now r2) as [stop r3] eqn:HNow2.
  apply Now_frame in HNow2 as [Hh2 _].
  intros Heq. simplify_eq. specialize (Hnil Herr).
  unfold mid_state, window_sound, len_items in *. simpl. rewrite length_app. simpl.
  rewrite take_app_le by lia. rewrite Hh1 in Hcreate.
  destruct Hcreate as [(r' & Hc & Hheap)|(e & r' & Hc & Hheap)]; simplify_eq.
  - repeat split; try done; try lia.
    + apply NoDup_app. repeat split; [done| |apply NoDup_singleton].
      intros x Hx Hx'. apply list_elem_of_singleton in Hx'. subst.
      apply Hbound in Hx. lia.
    + intros a' Hin. rewrite Hh2, Hheap.
      apply elem_of_app in Hin as [Hin|Hin].
      * apply Hbound in Hin. lia.
      * apply list_elem_of_singleton in Hin. simplify_eq. lia.
    + intros _ Hin. apply elem_of_app in Hin as [Hin|Hin]; [done|].
      by apply list_elem_of_singleton in Hin.
  - repeat split; try done; try lia.
    + apply NoDup_app. repeat split; [done| |apply NoDup_singleton].
      intros x Hx Hx'. apply list_elem_of_singleton in Hx'. by subst.
    + intros a' Hin. rewrite Hh2, Hheap.
      apply elem_of_app in Hin as [Hin|Hin].
      * apply Hbound in Hin. lia.
      * by apply list_elem_of_singleton in Hin.
Qed.

Lemma mid_state_held (s : PingState W) :
  window_sound s → runErr s = None → held_allocated (heap (root s)) (mbuf s).
Proof.
  intros (Hcap & Hlen & Hpos & Hnd & Hbound & Hnil) Herr.
  apply Forall_forall. intros p Hp.
  destruct p as [|a]; [by apply Hnil in Hp|].
  apply Hbound in Hp. by apply lookup_lt_is_Some in Hp.
Qed.

Lemma maybe_overlap_mid (s : PingState W) :
  mid_state s →
  match maybe_overlap s with
  | Continue s' | Return _ s' =>
      wf_state s' ∧ (Nil ∈ items (mbuf s) → Nil ∈ items (mbuf s'))
  | Crash _ => runErr s = None
  end.
Proof.
  intros Hmid. unfold maybe_overlap.
  destruct (runErr s) as [e|] eqn:Herr.
  - destruct (advance_mid s Hmid) as (s' & -> & Hwf & _ & _ & _ & Hit).
    by rewrite Hit.
  - destruct (CanAppend_loop_spec (heap (root s)) (items (mbuf s))) as (c & Hc & _).
    { apply mid_state_held; [apply Hmid|done]. }
    destruct (CanAppend _ _) as [[|]|] eqn:Hcan; [| |done].
    + apply CanAppend_true_room in Hcan. destruct Hmid as [Hs Htake].
      assert (len_items (mbuf s) < 2) as Hroom.
      { destruct Hs as (Hcap & _). by rewrite Hcap in Hcan. }
      destruct (overlap s) as [s1|] eqn:Hov; [|done].
      apply overlap_mid in Hov; [|done..].
      destruct (advance_mid s1 Hov) as (s' & -> & Hwf & _).
      split; [done|]. intros Hin. destruct Hs as (_ & _ & _ & _ & _ & Hnil).
      by apply Hnil in Hin.
    + destruct (advance_mid s Hmid) as (s' & -> & Hwf & _ & _ & _ & Hit).
      by rewrite Hit.
Qed.

Lemma Remove_current (b : MeasurementsBuffer) (a : nat) :
  make_cap_ok (capacity b) = true → NoDup (items b) → 1 ≤ pos b →
  items b !! Z.to_nat (pos b - 1) = Some (Addr a) →
  Remove b (Addr a)
  = Ok {| capacity := capacity b;
          items := delete (Z.to_nat (pos b - 1)) (items b);
          pos := pos b - 1 |}.
Proof.
  intros Hcap Hnd Hpos Hat. unfold Remove, len_items. rewrite delete_take_drop.
  apply lookup_lt_Some in Hat as Hlt.
  destruct (Z.eqb_spec (Z.of_nat (length (items b))) 0); [lia|].
  rewrite Hcap.
  pose proof (take_drop_middle _ _ _ Hat) as Hsplit.
  rewrite <- Hsplit in Hnd.
  apply NoDup_app in Hnd as (_ & Hdisj & Hnd2).
  apply NoDup_cons in Hnd2 as [Hn2 _].
  rewrite <- Hsplit at 1. rewrite Remove_loop_once; [| |done].
  - rewrite length_take, Nat.min_l by lia.
    destruct (Z.ltb_spec (Z.of_nat (Z.to_nat (pos b - 1))) (pos b)); [done|lia].
  - intros Hin. apply (Hdisj _ Hin). by left.
Qed.

Lemma window_sound_heap (s s' : PingState W) :
  length (heap (root s')) = length (heap (root s)) →
  mbuf s' = mbuf s → runErr s' = runErr s →
  window_sound s → window_sound s'.
Proof.
  unfold window_sound. intros -> -> ->. done.
Qed.

Lemma wf_state_cursor (s : PingState W) (a : nat) :
  wf_state s → el s = Addr a →
  1 ≤ pos (mbuf s) ∧
  items (mbuf s) !! Z.to_nat (pos (mbuf s) - 1) = Some (Addr a) ∧
  Nil ∉ take (Z.to_nat (pos (mbuf s))) (items (mbuf s)).
Proof.
  intros (Hs & Htake & Hel) Ha. rewrite Ha in Hel. destruct Hel as [Hpos Hat].
  split; [done|]. split; [done|].
  replace (Z.to_nat (pos (mbuf s))) with (S (Z.to_nat (pos (mbuf s) - 1))) by lia.
  rewrite (take_S_r _ _ _ Hat). intros Hin.
  apply elem_of_app in Hin as [Hin|Hin]; [done|].
  by apply list_elem_of_singleton in Hin.
Qed.

Lemma wf_state_root (s : PingState W) (r' : Root W) :
  wf_state s → length (heap r') = length (heap (root s)) →
  wf_state (with_root r' s).
Proof.
  intros (Hs & Htake & Hel) Hlen. split; [|done].
  by apply (window_sound_heap s).
Qed.

Lemma mid_after_remove (s : PingState W) (a : nat) (r' : Root W) :
  wf_state s → el s = Addr a →
  length (heap r') = length (heap (root s)) →
  mid_state (with_mbuf {| capacity := capacity (mbuf s);
                          items := delete (Z.to_nat (pos (mbuf s) - 1)) (items (mbuf s));
                          pos := pos (mbuf s) - 1 |} (with_root r' s)) ∧
  (Nil ∈ items (mbuf s) →
   Nil ∈ delete (Z.to_nat (pos (mbuf s) - 1)) (items (mbuf s))).
Proof.
  intros Hwf Hel Hheap.
  destruct (wf_state_cursor s a Hwf Hel) as (Hpos & Hat & Htake).
  destruct Hwf as ((Hcap & Hlen & Hrange & Hnd & Hbound & Hnil) & Htake1 & _).
  apply lookup_lt_Some in Hat as Hlt.
  pose proof (sublist_delete (items (mbuf s)) (Z.to_nat (pos (mbuf s) - 1))) as Hsub.
  split; [split|].
  - unfold window_sound, len_items in *. simpl.
    rewrite length_delete by eauto. rewrite Hheap.
    split; [done|]. split; [lia|]. split; [lia|].
    split; [by apply (sublist_NoDup _ _ Hnd)|].
    split.
    + intros a' Ha'. apply Hbound. by apply (elem_of_sublist _ _ _ Ha').
    + intros Herr Hn. apply (Hnil Herr). by apply (elem_of_sublist _ _ _ Hn).
  - simpl. rewrite delete_take_drop, take_app_le by (rewrite length_take; lia).
    by rewrite take_take, Nat.min_id.
  - intros Hn. rewrite <- (take_drop_middle _ _ _ Hat) in Hn.
    rewrite delete_take_drop.
    apply elem_of_app in Hn as [Hn|Hn]; [apply elem_of_app; by left|].
    apply elem_of_cons in Hn as [Hn|Hn]; [done|apply elem_of_app; by right].
Qed.

Lemma ping_body_wf (s : PingState W) (a : nat) :
  wf_state s → el s = Addr a →
  match ping_body a s with
  | Continue s' | Return _ s' =>
      wf_state s' ∧ (Nil ∈ items (mbuf s) → Nil ∈ items (mbuf s'))
  | Crash _ => runErr s = None
  end.
Proof.
  intros Hwf Hel.
  destruct (wf_state_cursor s a Hwf Hel) as (Hpos & Hat & Htake).
  pose proof Hwf as (Hs & Htake1 & _).
  pose proof Hs as (Hcap & Hlen & Hrange & Hnd & Hbound & Hnil).
  assert (Addr a ∈ items (mbuf s)) as Hin by (by eapply list_elem_of_lookup_2).
  apply Hbound, lookup_lt_is_Some in Hin as [it Hit].
  unfold ping_body. rewrite Hit.
  destruct (client_GetMeasurement _ _) as [[m|err] w].
  2:{ split; [|done]. by apply wf_state_root. }
  case_bool_decide.
  { match goal with |- context [advance ?x] =>
      destruct (advance_mid x) as (s' & -> & Hwf' & _ & _ & _ & Hitems) end.
    - split; [|done]. apply (window_sound_heap s); [|done..].
      simpl. by rewrite length_insert.
    - by rewrite Hitems. }
  destruct (viewer_OutputInfinite _ _) as [[err|] w'].
  { split; [|done]. apply wf_state_root; [done|]. simpl. by rewrite length_insert. }
  case_decide.
  - rewrite Remove_current by (done || lia || (by rewrite Hcap)).
    match goal with |- context [maybe_overlap (with_mbuf _ (with_root ?r _))] =>
      destruct (mid_after_remove s a r Hwf Hel) as [Hmid Hkeep];
        [simpl; by rewrite length_insert|] end.
    apply maybe_overlap_mid in Hmid.
    destruct (maybe_overlap _) as [s'|e s'|r']; [| |done];
      (destruct Hmid as [Hwf' Hkeep']; split; [done|]; intros Hn; by apply Hkeep', Hkeep).
  - match goal with |- context [maybe_overlap ?x] =>
      pose proof (maybe_overlap_mid x) as Hmo; destruct (maybe_overlap x) as [s'|e s'|r'] end.
    all: apply Hmo; split; try done;
      (apply (window_sound_heap s); [|done..]); simpl; by rewrite !length_insert.
Qed.

Lemma ping_after_sweep_wf (s : PingState W) :
  wf_state s → el s = Nil →
  match ping_after_sweep s with
  | Continue s' => wf_state s' ∧ (Nil ∈ items (mbuf s) → Nil ∈ items (mbuf s'))
  | Return _ s' => wf_state s' ∧ Nil ∉ items (mbuf s)
  | Crash _ => runErr s = None
  end.
Proof.
  intros Hwf Hel. pose proof Hwf as (Hs & _).
  pose proof Hs as (Hcap & Hlen & Hrange & Hnd & Hbound & Hnil).
  unfold ping_after_sweep, Len.
  destruct (Z.ltb_spec 0 (len_items (mbuf s))) as [Hpos|Hzero].
  { match goal with |- context [start_round ?x] =>
      destruct (start_round_sound x) as (s' & -> & Hwf' & _ & _ & _ & Hitems) end.
    - by apply (window_sound_heap s).
    - by rewrite Hitems. }
  assert (items (mbuf s) = []) as Hempty.
  { unfold len_items in Hzero. destruct (items (mbuf s)); [done|simpl in Hzero; lia]. }
  destruct (runErr s) as [e|] eqn:Herr.
  { split; [done|]. rewrite Hempty. apply not_elem_of_nil. }
  match goal with |- match match ?x with _ => _ end with _ => _ end =>
    assert (∀ s1, x = Ok s1 → root s1 = root s ∧ mbuf s1 = mbuf s ∧
                              runErr s1 = runErr s ∧ el s1 = el s)
      as Hre; [|destruct x as [s1|]; [|done]] end.
  { unfold retarget. intros s1 Hs1.
    repeat (case_match; simplify_eq/=); done. }
  destruct (Hre s1 eq_refl) as (Hroot & Hmbuf & HrunErr & Hel1).
  pose proof (createMeasurement_alloc (opts s1) (root s1)) as Hcreate.
  destruct (createMeasurement _ _) as [[hm err] r'].
  rewrite Hroot in Hcreate.
  destruct Hcreate as [(r2 & Hc & Hheap)|(e & r2 & Hc & Hheap)]; simplify_eq.
  - match goal with |- context [start_round ?x] =>
      destruct (start_round_sound x) as (s' & -> & Hwf' & _ & _ & _ & Hitems) end.
    + unfold window_sound, len_items in *. simpl. rewrite Hmbuf, Hempty. simpl.
      rewrite Hheap, Hcap.
      repeat split; try done; try lia.
      * apply NoDup_singleton.
      * intros a Ha. apply list_elem_of_singleton in Ha. simplify_eq. lia.
      * intros _ Hn. by apply list_elem_of_singleton in Hn.
    + split; [done|]. rewrite Hempty. intros Hn. by apply elem_of_nil in Hn.
  - split.
    + split; [|split].
      * unfold window_sound in *. simpl. rewrite Hmbuf, Hheap, HrunErr. done.
      * simpl. rewrite Hmbuf, Hempty. rewrite take_nil. apply not_elem_of_nil.
      * simpl. by rewrite Hel1, Hel.
    + rewrite Hempty. apply not_elem_of_nil.
Qed.

Lemma ping_step_wf (s : PingState W) :
  wf_state s →
  match ping_step s with
  | Continue s' => wf_state s' ∧ (Nil ∈ items (mbuf s) → Nil ∈ items (mbuf s'))
  | Return _ s' =>
      wf_state s' ∧ (Nil ∈ items (mbuf s) → Nil ∈ items (mbuf s') ∧ el s ≠ Nil)
  | Crash _ => runErr s = None
  end.
Proof.
  intros Hwf. unfold ping_step. destruct (el s) as [|a] eqn:Hel.
  - pose proof (ping_after_sweep_wf s Hwf Hel) as Hafter.
    destruct (ping_after_sweep s); [done| |done].
    destruct Hafter as [Hwf' Hno]. split; [done|]. intros Hn. by apply Hno in Hn.
  - pose proof (ping_body_wf s a Hwf Hel) as Hbody.
    destruct (ping_body a s); [done| |done].
    destruct Hbody as [Hwf' Hkeep]. split; [done|]. intros Hn. split; [auto|done].
Qed.

Lemma ping_run_wf (n : nat) (s : PingState W) :
  wf_state s →
  match ping_run n s with
  | Continue s' | Return _ s' => wf_state s'
  | Crash _ => True
  end.
Proof.
  revert s. induction n as [|n IH]; intros s Hwf; simpl; [done|].
  pose proof (ping_step_wf s Hwf) as Hstep.
  destruct (ping_step s) as [s'|e s'|r']; [|by destruct Hstep|done].
  apply IH. by destruct Hstep.
Qed.

Lemma ping_wf (n : nat) (o : MeasurementCreate) (r : Root W) :
  match ping n o r with
  | Continue s | Return _ s => wf_state s
  | Crash _ => True
  end.
Proof.
  unfold ping. 
  change (ping_init o r) with
    (Continue {| root := r; opts := o; runErr := None;
                 mbuf := {| capacity := 2; items := []; pos := 0 |};
                 elapsedTime := 0; el := Nil |}).
  apply ping_run_wf.
  unfold wf_state, window_sound, len_items. simpl.
  repeat split; try done; try lia; try apply not_elem_of_nil.
  - apply NoDup_nil_2.
  - intros a Ha. by apply elem_of_nil in Ha.
  - intros _. apply not_elem_of_nil.
Qed.

Lemma wf_blocked (s : PingState W) :
  wf_state s → Nil ∈ items (mbuf s) → blocked s.
Proof.
  intros (Hs & Htake & Hel) Hn.
  apply list_elem_of_split_l in Hn as (l1 & l2 & Heq & Hl1).
  exists l1, l2. split; [done|]. split; [done|]. split.
  - destruct (el s) as [|a]; [by left|right].
    destruct Hel as [Hpos Hat]. rewrite Heq in Hat, Htake.
    destruct (decide (Z.to_nat (pos (mbuf s) - 1) < length l1)%nat) as [Hlt|Hge].
    + rewrite lookup_app_l in Hat by done. by eapply list_elem_of_lookup_2.
    + exfalso. destruct (decide (Z.to_nat (pos (mbuf s) - 1) = length l1)) as [Heq'|Hne].
      * rewrite Heq', list_lookup_middle in Hat by done. done.
      * apply Htake. rewrite take_app_ge by lia.
        apply elem_of_app. right.
        destruct (Z.to_nat (pos (mbuf s) - 1) - length l1)%nat eqn:Hd; [lia|].
        simpl. by left.
  - unfold Len, len_items. rewrite Heq, length_app. simpl. lia.
Qed.

Lemma ping_step_return_el (s s' : PingState W) (e : error) :
  ping_step s = Return e s' → el s' = el s.
Proof.
  unfold ping_step, ping_body, ping_after_sweep, maybe_overlap, start_round, advance,
    retarget, with_root, with_mbuf.
  intros Hstep. repeat (case_match; simplify_eq/=); done.
Qed.

Lemma ping_run_blocked (n : nat) (s : PingState W) :
  wf_state s → Nil ∈ items (mbuf s) →
  match ping_run n s with
  | Continue s' => blocked s'
  | Return _ s' => blocked s' ∧ el s' ≠ Nil
  | Crash _ => False
  end.
Proof.
  revert s. induction n as [|n IH]; intros s Hwf Hn; simpl; [by apply wf_blocked|].
  pose proof (ping_step_wf s Hwf) as Hstep.
  pose proof (ping_step_return_el s) as Hret.
  destruct (ping_step s) as [s'|e s'|r'].
  - destruct Hstep as [Hwf' Hkeep]. apply IH; auto.
  - destruct Hstep as [Hwf' Hkeep]. destruct (Hkeep Hn) as [Hn' Hel].
    split; [by apply wf_blocked|]. by rewrite (Hret s' e).
  - destruct Hwf as ((_ & _ & _ & _ & _ & Hnil) & _). by apply (Hnil Hstep).
Qed.

(** C9. The loop is past the render of an item, no error is recorded and
    [CanAppend] allows an overlap, but the creation fails with [e]. Then
    the nil handle is appended to the window and [e] is recorded; and
    whatever number of steps follow, the loop does not panic, the window
    still holds the nil entry and is not empty, the item polled is always
    one that lies before the nil entry, and the loop returns only from
    inside a sweep (on a poll or render error), never with the recorded
    error at the end of one. *)
Theorem failed_creation_blocks_window (s s1 : PingState W) (hm : Ptr) (e : error)
    (r2 : Root W) (n : nat)
    (Hmid : mid_state s)
    (Herr : runErr s = None)
    (Hcan : CanAppend (heap (root s)) (mbuf s) = Ok true)
    (Hre : retarget s = Ok s1)
    (Hfail : createMeasurement (opts s1) (Now (root s1)).2 = ((hm, Some e), r2)) :
  ∃ s2, maybe_overlap s = Continue s2 ∧
        runErr s2 = Some e ∧
        items (mbuf s2) = items (mbuf s) ++ [Nil] ∧
        match ping_run n s2 with
        | Continue s' => blocked s'
        | Return _ s' => blocked s' ∧ el s' ≠ Nil
        | Crash _ => False
        end.
Proof.
  pose proof (overlap_mid s) as Hov.
  unfold maybe_overlap. rewrite Herr, Hcan.
  apply CanAppend_true_room in Hcan.
  assert (len_items (mbuf s) < 2) as Hroom.
  { destruct Hmid as [(Hcap & _) _]. by rewrite Hcap in Hcan. }
  unfold overlap in *. rewrite Hre in *. simpl in *.
  destruct (Now (root s1)) as [start r1]. simpl in Hfail. rewrite Hfail in *.
  destruct (createMeasurement_alloc (opts s1) r1)
    as [(r' & Hc & _)|(e' & r' & Hc & _)]; rewrite Hfail in Hc; simplify_eq.
  destruct (Now r') as [stop r3].
  specialize (Hov _ Hmid Herr Hroom eq_refl).
  destruct (advance_mid _ Hov) as (s2 & -> & Hwf2 & _ & _ & HrunErr & Hitems).
  apply retarget_frame in Hre as (_ & Hmbuf & _).
  simpl in HrunErr, Hitems. rewrite Hmbuf in Hitems.
  exists s2. split; [done|]. split; [done|]. split; [done|].
  apply ping_run_blocked; [done|]. rewrite Hitems. simpl.
  apply elem_of_app. right. by left.
Qed.



End EngineProperties.

Section SweepProperties.
Context {W : Type} `{!Collaborators W}.

Lemma Next_total (b : MeasurementsBuffer) :
  0 ≤ pos b →
  ∃ x b', Next b = Ok (x, b') ∧ items b' = items b ∧ capacity b' = capacity b.
Proof.
  intros Hpos. destruct (items b !! Z.to_nat (pos b)) as [x|] eqn:Hx.
  - exists x. eexists. by split; [apply Next_in_range|].
  - exists Nil, b. apply lookup_ge_None in Hx.
    by split; [apply Next_at_end; unfold len_items; lia|].
Qed.

(** C1, as amended. In continuous mode an error of the poll or of the
    incremental render is not deferred: the step that meets it returns it
    at once, with usage help silenced, with the polling window and the
    recorded error as they stood, and with no call made after the failing
    one; the items not yet polled in that sweep are left unrendered. *)
Theorem poll_and_render_errors_return_at_once (s : PingState W) (a : nat)
    (it : HistoryItem) (err : error)
    (Hel : el s = Addr a)
    (Hit : heap (root s) !! a = Some it)
    (Hfail : sweep_call_fails s it err) :
  ∃ s', ping_step s = Return err s' ∧
        mbuf s' = mbuf s ∧ runErr s' = runErr s ∧ el s' = el s ∧
        SilenceUsage (root s') = true ∧
        ∃ evs, trace (root s') = trace (root s) ++ EvGetMeasurement (Id it) :: evs ∧
               (evs = [] ∨ ∃ m, evs = [EvOutputInfinite m]).
Proof.
  unfold sweep_call_fails in Hfail. unfold ping_step, ping_body. rewrite Hel, Hit.
  destruct (client_GetMeasurement _ _) as [[m|e] w].
  - destruct Hfail as [Hres Hout].
    rewrite bool_decide_eq_false_2 by (by destruct (m_Results m)).
    cbn [world with_heap call].
    destruct (viewer_OutputInfinite m w) as [oerr w']. simpl in Hout. subst oerr.
    eexists. split; [reflexivity|]. simpl. repeat split; try done.
    eexists. rewrite <- app_assoc. split; [reflexivity|]. right. by eexists.
  - subst e. eexists. split; [reflexivity|]. simpl. repeat split; try done.
    eexists. split; [reflexivity|]. by left.
Qed.

(** C3, as amended. When the poll of an outstanding item answers with an
    empty result list the loop moves on to the next item; the window
    contents, the context with its history, the session record, the request
    and the recorded error are unchanged, nothing is rendered or created,
    and of the polled item only the status changes: it is overwritten with
    the polled status before the result list is looked at. *)
Theorem empty_poll_skips (s : PingState W) (a : nat) (it : HistoryItem)
    (m : Measurement) (w : W)
    (Hel : el s = Addr a)
    (Hit : heap (root s) !! a = Some it)
    (Hpos : 0 ≤ pos (mbuf s))
    (Hpoll : client_GetMeasurement (Id it) (world (root s)) = (inl m, w))
    (Hempty : m_Results m = []) :
  ∃ x b,
    Next (mbuf s) = Ok (x, b) ∧ items b = items (mbuf s) ∧
    capacity b = capacity (mbuf s) ∧
    ping_step s
    = Continue
        {| root := {| ctx := ctx (root s); SilenceUsage := SilenceUsage (root s);
                      heap := <[a := set_Status (m_Status m) it]> (heap (root s));
                      session := session (root s); world := w;
                      trace := trace (root s) ++ [EvGetMeasurement (Id it)] |};
           opts := opts s; runErr := runErr s; mbuf := b;
           elapsedTime := elapsedTime s; el := x |} ∧
    (m_Status m = Status it →
     <[a := set_Status (m_Status m) it]> (heap (root s)) = heap (root s)).
Proof.
  destruct (Next_total (mbuf s) Hpos) as (x & b & HNext & Hitems & Hcap).
  exists x, b. split; [done|]. split; [done|]. split; [done|]. split.
  - unfold ping_step, ping_body. rewrite Hel, Hit, Hpoll, Hempty. simpl.
    unfold advance. simpl. by rewrite HNext.
  - intros Hsame. apply list_insert_id. rewrite Hit. f_equal.
    destruct it. simpl in *. by subst.
Qed.

(** A recorded error waits for the window to be empty: at the end of a
    sweep the loop returns it only then, and starts another round
    otherwise. *)
Lemma recorded_error_waits (s : PingState W) (e : error) :
  el s = Nil → runErr s = Some e →
  (0 < Len (mbuf s) → ∃ s', ping_step s = Continue s' ∧ runErr s' = Some e ∧
                            items (mbuf s') = items (mbuf s)) ∧
  (Len (mbuf s) ≤ 0 → ping_step s = Return e s).
Proof.
  intros Hel Herr. unfold ping_step, ping_after_sweep. rewrite Hel, Herr. split.
  - intros Hlen. destruct (Z.ltb_spec 0 (Len (mbuf s))); [|lia].
    unfold start_round, advance. simpl.
    destruct (Next_total (Restart (mbuf s))) as (x & b & -> & Hitems & _); [done|].
    eexists. split; [reflexivity|]. by simpl.
  - intros Hlen. by destruct (Z.ltb_spec 0 (Len (mbuf s))); [lia|].
Qed.

(** Where the loop calls [Remove], the window has its cursor in range and
    holds the item once, just before the cursor. *)
Lemma loop_removes_held_once (s : PingState W) (a : nat) :
  wf_state s → el s = Addr a →
  0 ≤ capacity (mbuf s) ∧
  0 ≤ pos (mbuf s) ≤ len_items (mbuf s) ∧
  ∃ l1 l2, items (mbuf s) = l1 ++ Addr a :: l2 ∧ (Addr a ∉ l1) ∧ (Addr a ∉ l2) ∧
           Z.of_nat (length l1) = pos (mbuf s) - 1.
Proof.
  intros Hwf Hel. destruct (wf_state_cursor s a Hwf Hel) as (Hpos & Hat & _).
  destruct Hwf as ((Hcap & _ & Hrange & Hnd & _) & _).
  split; [lia|]. split; [done|].
  exists (take (Z.to_nat (pos (mbuf s) - 1)) (items (mbuf s))),
         (drop (S (Z.to_nat (pos (mbuf s) - 1))) (items (mbuf s))).
  rewrite <- (take_drop_middle _ _ _ Hat) in Hnd at 1.
  apply NoDup_app in Hnd as (_ & Hdisj & Hnd2).
  apply NoDup_cons in Hnd2 as [Hn2 _].
  split; [by rewrite take_drop_middle|]. split; [|split; [done|]].
  - intros Hin. apply (Hdisj _ Hin). by left.
  - apply lookup_lt_Some in Hat. rewrite length_take. lia.
Qed.

Lemma createMeasurement_trace (o : MeasurementCreate) (r : Root W) :
  ∃ evs, trace (createMeasurement o r).2 = trace r ++ evs ∧
         Forall (ping_event (mc_Options o)) evs.
Proof.
  unfold createMeasurement, saveIdToSession, Now, Printf, call,
    with_heap, with_ctx, with_session, with_SilenceUsage.
  repeat (case_match; simplify_eq/=);
    rewrite <- ?app_assoc; (eexists; split; [reflexivity|repeat constructor]).
Qed.

Lemma ping_event_packets (O : MeasurementOptions) (evs : list Event) :
  Forall (ping_event O) evs → Forall (creates_with_packets (opt_Packets O)) evs.
Proof.
  intros Hall. eapply Forall_impl; [done|].
  intros [] He; simpl in *; try done. by rewrite He.
Qed.

Lemma pingInfinite_trace (n m : nat) (o : MeasurementCreate) (r : Root W) :
  ∃ evs, trace (result_root (pingInfinite n m o r)) = trace r ++ evs ∧
         Forall (creates_with_packets (opt_Packets (mc_Options o))) evs.
Proof.
  unfold pingInfinite. destruct (5 <? ctx_Limit (ctx r)).
  { exists []. by rewrite app_nil_r. }
  destruct (ping_trace n o r) as (evs & Htr & Hall).
  apply ping_event_packets in Hall.
  assert (∀ s, ping n o r = Continue s → mc_Options (opts s) = mc_Options o)
    as Hopts.
  { intros s Hs. unfold ping in Hs. rewrite ping_init_eq in Hs.
    match type of Hs with ping_run n ?s0 = _ =>
      pose proof (ping_run_options n s0) as Ho end.
    by rewrite Hs in Ho. }
  destruct (ping n o r) as [s|e s|r']; simpl in *; eauto.
  destruct (ping_run_after_summary m s) as (evs' & Htr' & Hall').
  rewrite (Hopts s eq_refl) in Hall'. apply ping_event_packets in Hall'.
  exists (evs ++ EvOutputSummary :: evs').
  split.
  - rewrite app_assoc, <- Htr, <- Htr'.
    by destruct (ping_run m (with_root (OutputSummary (root s)) s)).
  - apply Forall_app. split; [done|]. by constructor.
Qed.

(** The creations of a command carry the packets value that [prepare]
    leaves in the context: 16 with the infinite flag, else the value that
    was there. *)
Lemma RunPing_creates
    (updateContext : Root W → option error * Root W)
    (getLocations : Root W → (list Locations + error) * Root W)
    (n m : nat) (r r1 : Root W) :
  updateContext r = (None, r1) →
  let packets := if ctx_Infinite (ctx r1) then 16 else ctx_Packets (ctx r1) in
  ctx_Packets (ctx (prepare r1)) = packets ∧
  trace (prepare r1) = trace r1 ∧
  ∃ evs, trace (result_root (RunPing updateContext getLocations n m r))
         = trace (getLocations (prepare r1)).2 ++ evs ∧
         Forall (creates_with_packets packets) evs.
Proof.
  intros Hupd packets.
  assert (ctx_Packets (ctx (prepare r1)) = packets) as Hpk.
  { unfold prepare, packets. simpl. by destruct (ctx_Infinite (ctx r1)). }
  split; [done|]. split.
  { unfold prepare. simpl. by destruct (ctx_Infinite (ctx r1)). }
  unfold RunPing. rewrite Hupd.
  destruct (getLocations (prepare r1)) as [[l|e] r2]; simpl.
  2:{ exists []. by rewrite app_nil_r. }
  destruct (ctx_Infinite (ctx r2)).
  - destruct (pingInfinite_trace n m (set_Locations l (request (prepare r1))) r2)
      as (evs & Htr & Hall).
    exists evs. split; [done|]. simpl in Hall. by rewrite Hpk in Hall.
  - destruct (createMeasurement_trace (set_Locations l (request (prepare r1))) r2)
      as (evs & Htr & Hall).
    apply ping_event_packets in Hall. simpl in Hall. rewrite Hpk in Hall.
    destruct (createMeasurement _ r2) as [[hm err] r3]. simpl in Htr.
    destruct err as [e|]; [by exists evs|].
    destruct hm as [|a]; [by exists evs|].
    destruct (heap r3 !! a) as [it|]; [|by exists evs].
    destruct (viewer_Output _ _ _) as [oerr w]. simpl.
    eexists (evs ++ [_]). rewrite Htr, app_assoc. split; [done|].
    apply Forall_app. split; [done|]. by repeat constructor.
Qed.

(** C10. The ping command is invoked with the flags [packets] and
    [infinite] (a flag left out is [None]); [updateContext] succeeds and
    leaves the two flag fields of the context as the flags set them. With
    [--infinite] the packets option is overwritten with 16 before any call
    is made, and every measurement the command creates carries 16 packets,
    whatever [--packets] said; without it every creation carries the value
    given with [--packets] (the flag's default 0 when left out). *)
Theorem RunPing_packets
    (updateContext : Root W → option error * Root W)
    (getLocations : Root W → (list Locations + error) * Root W)
    (packets : option Z) (infinite : option bool) (n m : nat) (r0 r1 : Root W)
    (Hupd : updateContext (with_ctx (bind_flags packets infinite (ctx r0)) r0)
            = (None, r1))
    (Hpackets : ctx_Packets (ctx r1) = default 0 packets)
    (Hinfinite : ctx_Infinite (ctx r1) = default false infinite) :
  let sent := if default false infinite then 16 else default 0 packets in
  ctx_Packets (ctx (prepare r1)) = sent ∧
  trace (prepare r1) = trace r1 ∧
  ∃ evs, trace (result_root (RunPing updateContext getLocations n m
                               (with_ctx (bind_flags packets infinite (ctx r0)) r0)))
         = trace (getLocations (prepare r1)).2 ++ evs ∧
         Forall (creates_with_packets sent) evs.
Proof.
  intros sent.
  pose proof (RunPing_creates updateContext getLocations n m _ r1 Hupd) as Hcreates.
  simpl in Hcreates. rewrite Hpackets, Hinfinite in Hcreates. exact Hcreates.
Qed.

End SweepProperties.

(** ** The loop does not panic *)

Section Safety.
Context {W : Type} `{!Collaborators W}.

Lemma History_Last_Push (h : HistoryBuffer) (p : Ptr) :
  (writeIndex h < length (slots h))%nat →
  History_Last (History_Push h p) = p ∧
  (writeIndex (History_Push h p) < length (slots (History_Push h p)))%nat.
Proof.
  intros Hwi. unfold History_Last, History_Push. simpl.
  rewrite length_insert. split.
  - replace (createdCount h + 1)%nat with (S (createdCount h)) by lia.
    assert (((writeIndex h + 1) `mod` length (slots h) + length (slots h) - 1)
              `mod` length (slots h) = writeIndex h)%nat as ->.
    { destruct (decide (writeIndex h + 1 = length (slots h))%nat) as [Heq|Hne].
      - rewrite Heq, Nat.Div0.mod_same. simpl.
        rewrite Nat.mod_small by lia. lia.
      - rewrite (Nat.mod_small (writeIndex h + 1)) by lia.
        replace (writeIndex h + 1 + length (slots h) - 1)%nat
          with (writeIndex h + 1 * length (slots h))%nat by lia.
        rewrite Nat.Div0.mod_add. apply Nat.mod_small. lia. }
    by rewrite list_lookup_insert_eq.
  - apply Nat.mod_upper_bound. lia.
Qed.

Lemma createMeasurement_history (o : MeasurementCreate) (r : Root W) :
  (writeIndex (ctx_History (ctx r)) < length (slots (ctx_History (ctx r))))%nat →
  match createMeasurement o r with
  | ((hm, None), r') =>
      History_Last (ctx_History (ctx r')) = hm ∧
      (writeIndex (ctx_History (ctx r')) < length (slots (ctx_History (ctx r'))))%nat
  | ((_, Some _), r') => ctx_History (ctx r') = ctx_History (ctx r)
  end.
Proof.
  intros Hwi.
  unfold createMeasurement, saveIdToSession, Now, Printf, call,
    with_heap, with_ctx, with_session, with_SilenceUsage.
  repeat (case_match; simplify_eq/=); try done;
    by apply History_Last_Push.
Qed.

Lemma history_sound_frame (s s' : PingState W) :
  ctx_History (ctx (root s')) = ctx_History (ctx (root s)) →
  length (heap (root s')) = length (heap (root s)) →
  (items (mbuf s) = [] → items (mbuf s') = []) →
  history_sound s → history_sound s'.
Proof.
  unfold history_sound. intros -> -> Hitems (Hwi & Hlast & Hnone).
  split; [done|]. split; [done|]. auto.
Qed.

Lemma retarget_safe (s : PingState W) :
  history_sound s → History_Last (ctx_History (ctx (root s))) ≠ Nil →
  ∃ s1, retarget s = Ok s1.
Proof.
  intros (_ & Hlast & _) Hne. unfold retarget.
  destruct (History_Last _) as [|a]; [done|].
  destruct (lookup_lt_is_Some_2 (heap (root s)) a (Hlast a eq_refl)) as [it ->].
  by eexists.
Qed.

Lemma overlap_safe (s : PingState W) :
  history_sound s → items (mbuf s) ≠ [] →
  ∃ s', overlap s = Ok s' ∧ history_sound s'.
Proof.
  intros Hh Hne. pose proof Hh as (Hwi & Hlast & Hnone).
  destruct (retarget_safe s Hh) as [s1 Hre]; [by intros Hn%Hnone|].
  unfold overlap. rewrite Hre. simpl.
  apply retarget_frame in Hre as Hframe. destruct Hframe as (Hroot & Hmbuf & _).
  unfold retarget in Hre.
  destruct (History_Last (ctx_History (ctx (root s)))) as [|a] eqn:HL; [done|].
  destruct (Now (root s1)) as [start r1] eqn:HNow1.
  apply Now_frame in HNow1 as [Hh1 Hc1]. rewrite Hroot in Hh1, Hc1.
  pose proof (createMeasurement_alloc (opts s1) r1) as Halloc.
  pose proof (createMeasurement_history (opts s1) r1) as Hhist.
  rewrite Hc1 in Hhist. specialize (Hhist Hwi).
  destruct (createMeasurement (opts s1) r1) as [[hm err] r2].
  destruct (Now r2) as [stop r3] eqn:HNow2.
  apply Now_frame in HNow2 as [Hh2 Hc2].
  eexists. split; [reflexivity|]. unfold history_sound. simpl. rewrite Hc2, Hh2.
  destruct Halloc as [(r' & Heq & Hlen)|(e & r' & Heq & Hheap)]; simplify_eq.
  - destruct Hhist as [HL' Hwi']. rewrite HL'. split; [done|]. split; [|done].
    intros a' Ha'. simplify_eq. lia.
  - rewrite Hhist, Hheap, Hh1, HL. split; [done|]. split; [|done].
    intros a' Ha'. simplify_eq. by apply Hlast.
Qed.

Lemma maybe_overlap_safe (s : PingState W) :
  mid_state s → history_sound s →
  ∃ s', maybe_overlap s = Continue s' ∧ history_sound s'.
Proof.
  intros Hmid Hh. unfold maybe_overlap.
  destruct (runErr s) as [e|] eqn:Herr.
  { destruct (advance_mid s Hmid) as (s' & -> & _ & Hroot & _ & _ & Hitems).
    exists s'. split; [done|].
    apply (history_sound_frame s); [by rewrite Hroot..|by rewrite Hitems|done]. }
  destruct (CanAppend_loop_spec (heap (root s)) (items (mbuf s))) as (c & Hc & Hiff).
  { apply mid_state_held; [apply Hmid|done]. }
  unfold CanAppend.
  destruct (Z.leb_spec (capacity (mbuf s)) (len_items (mbuf s))) as [Hfull|Hroom].
  { destruct (advance_mid s Hmid) as (s' & -> & _ & Hroot & _ & _ & Hitems).
    exists s'. split; [done|].
    apply (history_sound_frame s); [by rewrite Hroot..|by rewrite Hitems|done]. }
  rewrite Hc. destruct c.
  - destruct (proj1 Hiff eq_refl) as (a & it & Hin & _).
    destruct (overlap_safe s Hh) as (s1 & Hov & Hh1).
    { intros Hempty. rewrite Hempty in Hin. by apply elem_of_nil in Hin. }
    rewrite Hov.
    assert (mid_state s1) as Hmid1.
    { apply (overlap_mid s); [done..| |done].
      destruct Hmid as [(Hcap & _) _]. by rewrite Hcap in Hroom. }
    destruct (advance_mid s1 Hmid1) as (s' & -> & _ & Hroot & _ & _ & Hitems).
    exists s'. split; [done|].
    apply (history_sound_frame s1); [by rewrite Hroot..|by rewrite Hitems|done].
  - destruct (advance_mid s Hmid) as (s' & -> & _ & Hroot & _ & _ & Hitems).
    exists s'. split; [done|].
    apply (history_sound_frame s); [by rewrite Hroot..|by rewrite Hitems|done].
Qed.

Lemma ping_body_safe (s : PingState W) (a : nat) :
  wf_state s → history_sound s → el s = Addr a →
  match ping_body a s with
  | Continue s' | Return _ s' => history_sound s'
  | Crash _ => False
  end.
Proof.
  intros Hwf Hh Hel.
  destruct (wf_state_cursor s a Hwf Hel) as (Hpos & Hat & Htake).
  pose proof Hwf as (Hs & Htake1 & _).
  pose proof Hs as (Hcap & Hlen & Hrange & Hnd & Hbound & Hnil).
  assert (Addr a ∈ items (mbuf s)) as Hin by (by eapply list_elem_of_lookup_2).
  apply Hbound, lookup_lt_is_Some in Hin as [it Hit].
  unfold ping_body. rewrite Hit.
  destruct (client_GetMeasurement _ _) as [[m|err] w].
  2:{ by apply (history_sound_frame s). }
  case_bool_decide.
  { match goal with |- context [advance ?x] =>
      destruct (advance_mid x) as (s' & -> & _ & Hroot & _ & _ & Hitems) end.
    - split; [|done]. apply (window_sound_heap s); [|done..].
      simpl. by rewrite length_insert.
    - apply (history_sound_frame s); [by rewrite Hroot| |by rewrite Hitems|done].
      rewrite Hroot. simpl. by rewrite length_insert. }
  destruct (viewer_OutputInfinite _ _) as [[err|] w'].
  { apply (history_sound_frame s); [done| |done..]. simpl. by rewrite length_insert. }
  case_decide.
  - rewrite Remove_current by (done || lia || (by rewrite Hcap)).
    match goal with |- context [maybe_overlap (with_mbuf ?b (with_root ?r _))] =>
      destruct (mid_after_remove s a r Hwf Hel) as [Hmid _];
        [simpl; by rewrite length_insert|];
      destruct (maybe_overlap_safe (with_mbuf b (with_root r s)) Hmid)
        as (s' & -> & Hh'); [|done] end.
    apply (history_sound_frame s); [done| |simpl|done].
    + simpl. by rewrite length_insert.
    + by intros ->.
  - match goal with |- context [maybe_overlap ?x] =>
      destruct (maybe_overlap_safe x) as (s' & -> & Hh'); [| |done] end.
    + split; [|done]. apply (window_sound_heap s); [|done..].
      simpl. by rewrite !length_insert.
    + apply (history_sound_frame s); [done| |done..]. simpl. by rewrite !length_insert.
Qed.

Lemma ping_after_sweep_safe (s : PingState W) :
  wf_state s → history_sound s → el s = Nil →
  match ping_after_sweep s with
  | Continue s' | Return _ s' => history_sound s'
  | Crash _ => False
  end.
Proof.
  intros Hwf Hh Hel. pose proof Hwf as (Hs & _).
  pose proof Hs as (Hcap & Hlen & Hrange & Hnd & Hbound & Hnil).
  pose proof Hh as (Hwi & Hlast & Hnone).
  unfold ping_after_sweep, Len.
  destruct (Z.ltb_spec 0 (len_items (mbuf s))) as [Hpos|Hzero].
  { match goal with |- context [start_round ?x] =>
      destruct (start_round_sound x) as (s' & -> & _ & Hroot & _ & _ & Hitems) end.
    - by apply (window_sound_heap s).
    - apply (history_sound_frame s); [by rewrite Hroot..|by rewrite Hitems|done]. }
  destruct (runErr s) as [e|] eqn:Herr; [done|].
  assert (∃ s1, match History_Last (ctx_History (ctx (root s))) with
                | Nil => Ok s
                | Addr _ => retarget s
                end = Ok s1 ∧ root s1 = root s ∧ mbuf s1 = mbuf s ∧
                runErr s1 = runErr s) as (s1 & -> & Hroot & Hmbuf & HrunErr).
  { destruct (History_Last _) eqn:HL; [by exists s|].
    destruct (retarget_safe s Hh) as [s1 Hre]; [by rewrite HL|].
    exists s1. split; [done|]. by apply retarget_frame in Hre as (? & ? & ? & _). }
  pose proof (createMeasurement_alloc (opts s1) (root s1)) as Halloc.
  pose proof (createMeasurement_history (opts s1) (root s1)) as Hhist.
  rewrite Hroot in Halloc, Hhist. specialize (Hhist Hwi).
  rewrite Hroot.
  destruct (createMeasurement (opts s1) (root s)) as [[hm err] r'].
  destruct Halloc as [(r2 & Heq & Hheap)|(e & r2 & Heq & Hheap)]; simplify_eq.
  - match goal with |- context [start_round ?x] =>
      destruct (start_round_sound x) as (s' & -> & _ & Hroot' & _ & _ & Hitems) end.
    + assert (items (mbuf s) = []) as Hempty.
      { unfold len_items in Hzero. destruct (items (mbuf s)); [done|simpl in Hzero; lia]. }
      unfold window_sound, len_items in *. simpl. rewrite Hmbuf, Hempty. simpl.
      rewrite Hheap, Hcap.
      repeat split; try done; try lia.
      * apply NoDup_singleton.
      * intros a Ha. apply list_elem_of_singleton in Ha. simplify_eq. lia.
      * intros _ Hn. by apply list_elem_of_singleton in Hn.
    + destruct Hhist as [HL Hwi']. unfold history_sound. rewrite Hroot'. simpl.
      rewrite HL. split; [done|]. split; [|done].
      intros a Ha. simplify_eq. lia.
  - unfold history_sound. simpl. rewrite Hhist, Hheap, Hmbuf. done.
Qed.

Lemma ping_step_safe (s : PingState W) :
  wf_state s → history_sound s →
  match ping_step s with
  | Continue s' | Return _ s' => history_sound s'
  | Crash _ => False
  end.
Proof.
  intros Hwf Hh. unfold ping_step. destruct (el s) as [|a] eqn:Hel.
  - by apply ping_after_sweep_safe.
  - by apply ping_body_safe.
Qed.

Lemma ping_run_safe (n : nat) (s : PingState W) :
  wf_state s → history_sound s → ∀ r, ping_run n s ≠ Crash r.
Proof.
  revert s. induction n as [|n IH]; intros s Hwf Hh r; simpl; [done|].
  pose proof (ping_step_wf s Hwf) as Hstep.
  pose proof (ping_step_safe s Hwf Hh) as Hsafe.
  destruct (ping_step s) as [s'|e s'|r']; [|done|done].
  apply IH; [by destruct Hstep|done].
Qed.

(** The loop does not panic when the history it starts from is usable: the
    write index is in range and the last item, if any, is allocated. *)
Lemma ping_never_panics (n : nat) (o : MeasurementCreate) (r : Root W) :
  (writeIndex (ctx_History (ctx r)) < length (slots (ctx_History (ctx r))))%nat →
  (∀ a, History_Last (ctx_History (ctx r)) = Addr a → (a < length (heap r))%nat) →
  ∀ r', ping n o r ≠ Crash r'.
Proof.
  intros Hwi Hlast. unfold ping. rewrite ping_init_eq.
  apply ping_run_safe.
  - unfold wf_state, window_sound, len_items. simpl.
    repeat split; try done; try lia; try apply not_elem_of_nil.
    + apply NoDup_nil_2.
    + intros a Ha. by apply elem_of_nil in Ha.
    + intros _. apply not_elem_of_nil.
  - by unfold history_sound.
Qed.
End Safety.

(** * Concrete runs *)

(** C1 fails as stated. Two measurements are in flight when the poll of the
    first one fails (or, in the second run, when rendering it fails): [ping]
    returns the error on the spot, with both items still in the window, no
    error recorded and the second measurement never rendered. *)
Lemma poll_error_interrupts_sweep :
  (∃ s, ping 5 defaultOpts (defaultRoot poll_fails) = Return "poll failed" s ∧
        items (mbuf s) = [Addr 0; Addr 1] ∧ Len (mbuf s) = 2 ∧ runErr s = None ∧
        polled (trace (root s)) = ["m1"; "m2"; "m1"] ∧
        rendered (trace (root s)) = ["m1"]) ∧
  (∃ s, ping 5 defaultOpts (defaultRoot render_fails) = Return "render failed" s ∧
        items (mbuf s) = [Addr 0; Addr 1] ∧ Len (mbuf s) = 2 ∧ runErr s = None ∧
        polled (trace (root s)) = ["m1"; "m2"; "m1"] ∧
        rendered (trace (root s)) = ["m1"; "m1"]).
Proof.
  split; eexists; (split; [vm_compute; reflexivity|]); simpl; done.
Qed.

(** C2 fails as stated. A continuous run interrupted after four steps of
    its loop (and returning before a fifth) has created two measurements
    and ends in success, and the session record holds one line, for the
    first of them. *)
Lemma continuous_mode_records_first_only :
  ∃ r, RunPing no_updateContext locations_Berlin 4 0 (defaultRoot poll_fails)
       = Done None r ∧
       ctx_MeasurementsCreated (ctx r) = 2 ∧
       Id <$> heap r = ["m1"; "m2"] ∧
       session r = ["m1"].
Proof.
  eexists. split; [vm_compute; reflexivity|]. simpl. done.
Qed.

(** C3 fails as stated. The first poll answers with a terminal status and
    an empty result list: the iteration is skipped, the item stays in the
    window and nothing is rendered, yet its status has changed. *)
Lemma empty_poll_overwrites_status :
  ∃ s1 s2, ping 1 defaultOpts (defaultRoot finished_without_results) = Continue s1 ∧
           el s1 = Addr 0 ∧
           Status <$> heap (root s1) !! 0%nat = Some StatusInProgress ∧
           ping_step s1 = Continue s2 ∧
           Status <$> heap (root s2) !! 0%nat = Some StatusFinished ∧
           items (mbuf s2) = [Addr 0] ∧
           rendered (trace (root s2)) = [].
Proof.
  eexists. eexists. split; [vm_compute; reflexivity|].
  split; [reflexivity|]. split; [reflexivity|].
  split; [vm_compute; reflexivity|]. simpl. done.
Qed.


(** A run in which the creation issued mid-sweep fails. The nil handle
    stays in the window when the first measurement has finished and been
    removed; from then on every round finds nothing to poll and sleeps, the
    recorded error is not returned, and an interrupt ends the command with
    the summary. *)
Lemma recorded_error_is_not_returned :
  ∃ s, ping 20 defaultOpts (defaultRoot creation_fails) = Continue s ∧
       items (mbuf s) = [Nil] ∧ runErr s = Some "quota exceeded" ∧
       polled (trace (root s)) = ["m1"; "m1"; "m1"] ∧
       pingInfinite 20 0 defaultOpts (defaultRoot creation_fails)
       = Done None (OutputSummary (root s)).
Proof.
  eexists. split; [vm_compute; reflexivity|].
  split; [reflexivity|]. split; [reflexivity|]. split; [reflexivity|].
  vm_compute. reflexivity.
Qed.

Lemma poll_and_render_errors_return_at_once_witness :
  let s := polling_first true (script [] [inr "poll failed"] []) in
  let it := item "m1" true in
  (el s = Addr 0 ∧ heap (root s) !! 0%nat = Some it ∧
   sweep_call_fails s it "poll failed") ∧
  ∃ s', ping_step s = Return "poll failed" s' ∧
        mbuf s' = mbuf s ∧ runErr s' = runErr s ∧ el s' = el s ∧
        SilenceUsage (root s') = true ∧
        ∃ evs, trace (root s') = trace (root s) ++ EvGetMeasurement (Id it) :: evs ∧
               (evs = [] ∨ ∃ m, evs = [EvOutputInfinite m]).
Proof.
  intros s it.
  assert (sweep_call_fails s it "poll failed") as Hfail by reflexivity.
  split; [by repeat split|].
  pose proof (poll_and_render_errors_return_at_once s 0 it "poll failed"
                eq_refl eq_refl Hfail) as Hreturn.
  exact Hreturn.
Defined.

Lemma createMeasurement_session_witness :
  let r := defaultRoot (script [CreateOk "m1"] [] []) in
  let r1 := with_ctx (set_RecordToSession true (ctx r)) r in
  client_CreateMeasurement defaultOpts (world r1) = (CreateOk "m1", script [] [] []) ∧
  ∃ a r', createMeasurement defaultOpts r1 = ((Addr a, None), r') ∧
          ctx_MeasurementsCreated (ctx r') = 1 ∧
          ctx_RecordToSession (ctx r') = false ∧
          session r' = ["m1"].
Proof.
  intros r r1.
  assert (client_CreateMeasurement defaultOpts (world r1)
          = (CreateOk "m1", script [] [] [])) as Hok by reflexivity.
  split; [exact Hok|].
  destruct (createMeasurement_session defaultOpts r1 "m1" _ Hok)
    as (a & r' & Hc & _ & Hn & Hflag & Hsession).
  assert (in_int64 (ctx_MeasurementsCreated (ctx r1) + 1)) as Hint
    by (vm_compute; split; discriminate).
  exists a, r'. split; [exact Hc|]. split; [exact (Hn Hint)|].
  split; [exact Hflag|exact Hsession].
Defined.

Lemma empty_poll_skips_witness :
  let m := measurement "m1" StatusInProgress [] in
  let s := polling_first false (script [] [inl m] []) in
  (el s = Addr 0 ∧ heap (root s) !! 0%nat = Some (item "m1" false) ∧
   0 ≤ pos (mbuf s) ∧
   client_GetMeasurement "m1" (world (root s)) = (inl m, script [] [] []) ∧
   m_Results m = []) ∧
  ∃ s', ping_step s = Continue s' ∧ el s' = Nil ∧
        items (mbuf s') = items (mbuf s) ∧ heap (root s') = heap (root s) ∧
        ctx (root s') = ctx (root s) ∧ session (root s') = session (root s).
Proof.
  intros m s.
  assert (client_GetMeasurement "m1" (world (root s)) = (inl m, script [] [] []))
    as Hpoll by reflexivity.
  assert (0 ≤ pos (mbuf s)) as Hpos by (simpl; lia).
  split; [by repeat split|].
  destruct (empty_poll_skips s 0 (item "m1" false) m (script [] [] [])
              eq_refl eq_refl Hpos Hpoll eq_refl)
    as (x & b & HNext & Hitems & Hcap & Hstep & Hsame).
  eexists. split; [exact Hstep|]. simpl.
  vm_compute in HNext. injection HNext as <- <-.
  split; [reflexivity|]. split; [reflexivity|]. split; [exact (Hsame eq_refl)|].
  split; reflexivity.
Defined.

Lemma pingInfinite_limit_witness :
  let six := with_ctx {| ctx_Target := "jsdelivr.com"; ctx_Limit := 6;
                         ctx_CIMode := true; ctx_Packets := 16;
                         ctx_Infinite := true; ctx_RecordToSession := true;
                         ctx_MeasurementsCreated := 0; ctx_APIMinInterval := 0;
                         ctx_History := NewHistoryBuffer 10 |}
                      (defaultRoot poll_fails) in
  let one := defaultRoot poll_fails in
  (5 < ctx_Limit (ctx six) ∧
   pingInfinite 5 2 defaultOpts six
   = Done (Some "continous mode is currently limited to 5 probes") six) ∧
  (ctx_Limit (ctx one) ≤ 5 ∧
   pingInfinite 5 0 defaultOpts one
   = match ping 5 defaultOpts one with
     | Crash r' => Panicked r'
     | Return err s => Done (Some err) (root s)
     | Continue s => Done None (OutputSummary (root s))
     end).
Proof.
  intros six one. split.
  - assert (5 < ctx_Limit (ctx six)) as Hlim by (simpl; lia).
    split; [exact Hlim|].
    pose proof (proj1 (proj1 (pingInfinite_limit 5 2 defaultOpts six) Hlim)) as H.
    exact H.
  - assert (ctx_Limit (ctx one) ≤ 5) as Hlim by (simpl; lia).
    split; [exact Hlim|].
    pose proof (proj2 (proj2 (pingInfinite_limit 5 0 defaultOpts one) Hlim)) as H.
    exact H.
Defined.


Lemma failed_creation_blocks_window_witness :
  let s := polling_first true (script [CreateErr false "quota exceeded"] [] []) in
  let s1 := {| root := root s;
               opts := set_Locations [ {| Magic := "m1" |} ] (opts s);
               runErr := runErr s; mbuf := mbuf s;
               elapsedTime := elapsedTime s; el := el s |} in
  let r2 := (createMeasurement (opts s1) (Now (root s1)).2).2 in
  (mid_state s ∧ runErr s = None ∧
   CanAppend (heap (root s)) (mbuf s) = Ok true ∧
   retarget s = Ok s1 ∧
   createMeasurement (opts s1) (Now (root s1)).2 = ((Nil, Some "quota exceeded"), r2)) ∧
  ∃ s2, maybe_overlap s = Continue s2 ∧
        runErr s2 = Some "quota exceeded" ∧
        items (mbuf s2) = items (mbuf s) ++ [Nil] ∧
        match ping_run 3 s2 with
        | Continue s' => blocked s'
        | Return _ s' => blocked s' ∧ el s' ≠ Nil
        | Crash _ => False
        end.
Proof.
  intros s s1 r2.
  assert (mid_state s) as Hmid.
  { unfold mid_state, window_sound, len_items. simpl.
    split; [split; [reflexivity|]|].
    - split; [lia|]. split; [lia|]. split; [apply NoDup_singleton|]. split.
      + intros a Ha. apply list_elem_of_singleton in Ha. injection Ha as ->. lia.
      + intros _ Hn. apply list_elem_of_singleton in Hn. discriminate.
    - intros Hn. apply list_elem_of_singleton in Hn. discriminate. }
  assert (CanAppend (heap (root s)) (mbuf s) = Ok true) as Hcan by reflexivity.
  assert (retarget s = Ok s1) as Hre by reflexivity.
  assert (createMeasurement (opts s1) (Now (root s1)).2
          = ((Nil, Some "quota exceeded"), r2)) as Hfail by reflexivity.
  split.
  { split; [exact Hmid|]. split; [reflexivity|]. split; [exact Hcan|].
    split; [exact Hre|exact Hfail]. }
  pose proof (failed_creation_blocks_window s s1 Nil "quota exceeded" r2 3
                Hmid eq_refl Hcan Hre Hfail) as Hblocked.
  exact Hblocked.
Defined.

Lemma RunPing_packets_witness :
  let r0 := defaultRoot poll_fails in
  let r := with_ctx (bind_flags (Some 3) (Some true) (ctx r0)) r0 in
  (no_updateContext r = (None, r) ∧
   ctx_Packets (ctx r) = default 0 (Some 3) ∧
   ctx_Infinite (ctx r) = default false (Some true)) ∧
  ctx_Packets (ctx (prepare r)) = 16 ∧
  trace (prepare r) = trace r ∧
  ∃ evs, trace (result_root (RunPing no_updateContext locations_Berlin 4 1 r))
         = trace (locations_Berlin (prepare r)).2 ++ evs ∧
         Forall (creates_with_packets 16) evs.
Proof.
  intros r0 r. split; [by repeat split|].
  pose proof (RunPing_packets no_updateContext locations_Berlin (Some 3) (Some true)
                4 1 r0 r eq_refl eq_refl eq_refl) as Hpackets.
  exact Hpackets.
Defined.

(** * Further properties of the polling window *)

Lemma until_nil_all (l : list Ptr) :
  Nil ∉ l → Addr <$> until_nil l = l.
Proof.
  induction l as [|[|a] l IH]; intros Hnil; [done| |].
  - exfalso. apply Hnil. by left.
  - simpl. f_equal. apply IH. intros Hin. apply Hnil. by right.
Qed.

(** X1. A sweep started by [Restart] hands out the held items in the order
    they were appended, up to the first nil entry, and leaves the contents
    alone; on a window without a nil entry that is every held item, once. *)
Theorem Restart_sweep (b : MeasurementsBuffer) (fuel : nat)
    (Hfuel : (length (items b) ≤ fuel)%nat) :
  Next_seq fuel (Restart b) = Ok (until_nil (items b)) ∧
  items (Restart b) = items b ∧ capacity (Restart b) = capacity b ∧
  (Nil ∉ items b → Addr <$> until_nil (items b) = items b).
Proof.
  split.
  - rewrite Next_seq_closed; simpl; [done|lia|].
    etrans; [apply until_nil_length|]. by rewrite drop_0.
  - split; [done|]. split; [done|]. apply until_nil_all.
Qed.

Lemma Restart_sweep_witness :
  let b := {| capacity := 2; items := [Addr 3; Addr 1]; pos := 2 |} in
  (length (items b) ≤ 2)%nat ∧
  Next_seq 2 (Restart b) = Ok [3%nat; 1%nat].
Proof.
  intros b. assert (length (items b) ≤ 2)%nat as Hfuel by (simpl; lia).
  split; [exact Hfuel|].
  pose proof (proj1 (Restart_sweep b 2 Hfuel)) as Hsweep. exact Hsweep.
Defined.

Lemma Remove_loop_pos (el : Ptr) (rest : list Ptr) (i : Z) (newb : list Ptr) (p : Z) :
  p - Z.of_nat (occurrences el rest) ≤ (Remove_loop el i rest newb p).2 ≤ p.
Proof.
  revert i newb p. unfold occurrences.
  induction rest as [|x rest IH]; intros i newb p; simpl; [lia|].
  destruct (decide (x ≠ el)) as [Hne|Heq].
  - rewrite filter_cons_False by done. apply IH.
  - rewrite filter_cons_True by (by destruct (decide (x = el))).
    simpl. destruct (i <? p).
    + specialize (IH (i + 1) newb (p - 1)). lia.
    + specialize (IH (i + 1) newb p). lia.
Qed.

(** X2. [Remove] panics exactly on a window that is not empty and whose
    capacity [make] refuses: a negative one, or one of more than 2^45
    items (2^48 bytes of pointers). On any other window it deletes every
    occurrence of the item and keeps the other items in their order; the
    capacity stays, the cursor never moves up and moves down by at most the
    number of entries deleted, and removing an item that is not held
    changes nothing. *)
Theorem Remove_all_occurrences (b : MeasurementsBuffer) (el : Ptr) :
  (items b = [] ∨ 0 ≤ capacity b ≤ 35184372088832 →
   ∃ b', Remove b el = Ok b' ∧
         capacity b' = capacity b ∧
         items b' = filter (λ x, x ≠ el) (items b) ∧
         pos b - Z.of_nat (occurrences el (items b)) ≤ pos b' ≤ pos b ∧
         (el ∉ items b → b' = b)) ∧
  (items b ≠ [] → capacity b < 0 ∨ 35184372088832 < capacity b →
   Remove b el = Panic).
Proof.
  unfold Remove, len_items. split.
  - intros Hok.
    destruct (Z.eqb_spec (Z.of_nat (length (items b))) 0) as [H0|H0].
    { assert (items b = []) as Hnil by (destruct (items b); [done|simpl in H0; lia]).
      exists b. rewrite Hnil. unfold occurrences. simpl. repeat split; try done; lia. }
    destruct Hok as [Hnil|Hcap]; [rewrite Hnil in H0; done|].
    apply make_cap_ok_spec in Hcap. rewrite Hcap.
    pose proof (Remove_loop_items el (items b) 0 [] (pos b)) as Hitems.
    pose proof (Remove_loop_pos el (items b) 0 [] (pos b)) as Hpos.
    pose proof (Remove_loop_absent el (items b) (pos b)) as Habsent.
    destruct (Remove_loop el 0 (items b) [] (pos b)) as [newb p'].
    simpl in *. eexists. split; [reflexivity|]. simpl.
    split; [done|]. split; [done|]. split; [lia|].
    intros Hnotin. specialize (Habsent Hnotin). clear Hitems Hpos.
    injection Habsent as -> ->. by destruct b.
  - intros Hne Hcap.
    destruct (Z.eqb_spec (Z.of_nat (length (items b))) 0) as [H0|H0].
    { destruct (items b); [done|simpl in H0; lia]. }
    destruct (make_cap_ok (capacity b)) eqn:Hrange; [|done].
    apply make_cap_ok_spec in Hrange. lia.
Qed.

Lemma Remove_all_occurrences_witness :
  let b := {| capacity := 3; items := [Addr 0; Nil; Addr 1; Nil]; pos := 2 |} in
  (items b = [] ∨ 0 ≤ capacity b ≤ 35184372088832) ∧
  ∃ b', Remove b Nil = Ok b' ∧ items b' = [Addr 0; Addr 1] ∧ pos b' = 1.
Proof.
  intros b.
  assert (items b = [] ∨ 0 ≤ capacity b ≤ 35184372088832) as Hok
    by (right; simpl; lia).
  split; [exact Hok|].
  destruct (proj1 (Remove_all_occurrences b Nil) Hok) as (b' & Hrm & _).
  exists b'. split; [exact Hrm|].
  vm_compute in Hrm. injection Hrm as <-. split; reflexivity.
Defined.

(** X3. An item appended in the middle of a sweep is handed out by that same
    sweep: after [Append] the calls of [Next] hand out the items not yet
    visited and then the new one (unless a nil entry comes first). [Append]
    itself adds one item at the end, whatever the capacity, and leaves the
    cursor where it is. *)
Theorem Append_is_visited (b : MeasurementsBuffer) (hm : Ptr) (fuel : nat)
    (Hpos : 0 ≤ pos b ≤ len_items b)
    (Hfuel : (S (length (items b)) ≤ fuel)%nat) :
  Next_seq fuel (Append b hm)
  = Ok (until_nil (drop (Z.to_nat (pos b)) (items b) ++ [hm])) ∧
  Len (Append b hm) = Len b + 1 ∧ pos (Append b hm) = pos b ∧
  capacity (Append b hm) = capacity b.
Proof.
  unfold len_items in Hpos. split.
  - rewrite Next_seq_closed; simpl; [|lia|].
    + by rewrite drop_app_le by lia.
    + etrans; [apply until_nil_length|]. rewrite length_drop, length_app. simpl. lia.
  - unfold Len, len_items. simpl. rewrite length_app. simpl. split; [lia|done].
Qed.

Lemma Append_is_visited_witness :
  let b := {| capacity := 2; items := [Addr 0]; pos := 1 |} in
  (0 ≤ pos b ≤ len_items b ∧ (S (length (items b)) ≤ 2)%nat) ∧
  Next_seq 2 (Append b (Addr 1)) = Ok [1%nat].
Proof.
  intros b.
  assert (0 ≤ pos b ≤ len_items b) as Hpos by (unfold len_items; simpl; lia).
  assert (S (length (items b)) ≤ 2)%nat as Hfuel by (simpl; lia).
  split; [by split|].
  pose proof (proj1 (Append_is_visited b (Addr 1) 2 Hpos Hfuel)) as Hvisit.
  exact Hvisit.
Defined.

(** X4. [NewMeasurementsBuffer] panics exactly on a capacity that [make]
    refuses: a negative one, or one of more than 2^45 items (2^48 bytes of
    pointers, the largest allocation on 64-bit Linux). Otherwise it gives
    an empty window with its cursor at the start, on which [Next] returns
    nil and changes nothing, [Remove] changes nothing and [CanAppend]
    answers false whatever the capacity is: the first item of a window
    cannot be appended on [CanAppend]'s word. *)
Theorem NewMeasurementsBuffer_fresh (cap : Z) (h : heap_t) (el : Ptr) :
  (cap < 0 ∨ 35184372088832 < cap → NewMeasurementsBuffer cap = Panic) ∧
  (0 ≤ cap ≤ 35184372088832 →
   ∃ b, NewMeasurementsBuffer cap = Ok b ∧
        capacity b = cap ∧ Len b = 0 ∧ pos b = 0 ∧
        Next b = Ok (Nil, b) ∧ Remove b el = Ok b ∧ CanAppend h b = Ok false).
Proof.
  unfold NewMeasurementsBuffer. split; intros Hcap.
  - destruct (make_cap_ok cap) eqn:Hrange; [|done].
    apply make_cap_ok_spec in Hrange. lia.
  - apply make_cap_ok_spec in Hcap. rewrite Hcap. eexists. split; [reflexivity|].
    do 5 (split; [reflexivity|]).
    unfold CanAppend, len_items. cbn -[Z.leb]. by destruct (cap <=? _).
Qed.

Lemma NewMeasurementsBuffer_fresh_witness :
  ((-1 < 0 ∨ 35184372088832 < -1) ∧ NewMeasurementsBuffer (-1) = Panic) ∧
  ((4611686018427387904 < 0 ∨ 35184372088832 < 4611686018427387904) ∧
   NewMeasurementsBuffer 4611686018427387904 = Panic) ∧
  (0 ≤ 2 ≤ 35184372088832 ∧
   ∃ b, NewMeasurementsBuffer 2 = Ok b ∧ Len b = 0 ∧ CanAppend [] b = Ok false).
Proof.
  split; [|split].
  - assert (-1 < 0 ∨ 35184372088832 < -1) as Hneg by lia. split; [exact Hneg|].
    exact (proj1 (NewMeasurementsBuffer_fresh (-1) [] Nil) Hneg).
  - assert (4611686018427387904 < 0 ∨ 35184372088832 < 4611686018427387904)
      as Hbig by lia.
    split; [exact Hbig|].
    exact (proj1 (NewMeasurementsBuffer_fresh 4611686018427387904 [] Nil) Hbig).
  - assert (0 ≤ 2 ≤ 35184372088832) as Hcap by lia. split; [exact Hcap|].
    destruct (proj2 (NewMeasurementsBuffer_fresh 2 [] Nil) Hcap)
      as (b & Hnew & _ & Hlen & _ & _ & _ & Hcan).
    exists b. split; [exact Hnew|]. split; [exact Hlen|exact Hcan].
Defined.

(** X5. [IsPartiallyFinished] holds exactly of a measurement that is in
    progress overall and has at least one probe result with status
    finished; a measurement without results, or with any other overall
    status, is never partially finished. *)
Theorem IsPartiallyFinished_spec (m : Measurement) :
  IsPartiallyFinished m = true ↔
  m_Status m = StatusInProgress ∧
  ∃ p, p ∈ m_Results m ∧ Result_Status p = StatusFinished.
Proof.
  unfold IsPartiallyFinished.
  destruct (decide (m_Status m ≠ StatusInProgress)) as [Hne|Heq].
  - split; [done|]. by intros [Hs _].
  - apply dec_stable in Heq. rewrite existsb_exists. split.
    + intros (p & Hin & Hp). split; [done|]. exists p.
      split; [by apply list_elem_of_In|]. by apply bool_decide_eq_true in Hp.
    + intros (_ & p & Hin & Hp). exists p.
      split; [by apply list_elem_of_In|]. by apply bool_decide_eq_true.
Qed.

(** * Further properties of the engine *)

Section RunProperties.
Context {W : Type} `{!Collaborators W}.

(** X6. At every step of a continuous run the polling window has capacity
    2, holds at most two items and has its cursor in range; the held items
    are pairwise distinct, every handle in it is an allocated history item,
    a nil entry is there only once an error has been recorded, and the item
    being polled is one of the held items. *)
Theorem ping_window_invariant (n : nat) (o : MeasurementCreate) (r : Root W) :
  match ping n o r with
  | Continue s | Return _ s =>
      capacity (mbuf s) = 2 ∧ Len (mbuf s) ≤ 2 ∧
      0 ≤ pos (mbuf s) ≤ Len (mbuf s) ∧
      NoDup (items (mbuf s)) ∧
      (∀ a, Addr a ∈ items (mbuf s) → is_Some (heap (root s) !! a)) ∧
      (Nil ∈ items (mbuf s) → is_Some (runErr s)) ∧
      (el s ≠ Nil → el s ∈ items (mbuf s))
  | Crash _ => True
  end.
Proof.
  pose proof (ping_wf n o r) as Hwf.
  destruct (ping n o r) as [s|e s|r']; [| |done].
  all: destruct Hwf as ((Hcap & Hlen & Hpos & Hnd & Hbound & Hnil) & _ & Hel).
  all: split; [done|]; split; [done|]; split; [done|]; split; [done|].
  all: split; [intros a Ha; by apply lookup_lt_is_Some, Hbound|].
  all: split;
    [intros Hin; destruct (runErr s); [by eexists|by apply Hnil in Hin]|].
  all: intros Hne; destruct (el s) as [|a]; [done|];
    destruct Hel as [_ Hat]; by eapply list_elem_of_lookup_2.
Qed.

Lemma root_evolves_refl (r : Root W) : root_evolves r r.
Proof.
  unfold root_evolves, same_identity. split; [eauto 6|].
  rewrite Nat.sub_diag. simpl. repeat split; lia.
Qed.

Lemma root_evolves_trans (r1 r2 r3 : Root W) :
  root_evolves r1 r2 → root_evolves r2 r3 → root_evolves r1 r3.
Proof.
  unfold root_evolves, same_identity.
  intros (Hh & Hl & Hc & ? & ? & ? & ? & ? & ?) (Hh' & Hl' & Hc' & ? & ? & ? & ? & ? & ?).
  split.
  { intros a it Hit. destruct (Hh a it Hit) as (it1 & Hit1 & ? & ? & ?).
    destruct (Hh' a it1 Hit1) as (it2 & Hit2 & ? & ? & ?).
    exists it2. repeat split; congruence. }
  split; [lia|]. split; [|repeat split; congruence].
  rewrite Hc', Hc, <- Nat.iter_add. f_equal. lia.
Qed.

Lemma root_evolves_frame (r r' : Root W) :
  heap r' = heap r → ctx r' = ctx r → root_evolves r r'.
Proof.
  intros Hh Hc. unfold root_evolves. rewrite Hh, Hc.
  apply (root_evolves_refl r).
Qed.

Lemma saved_ids_app (l1 l2 : list Event) :
  saved_ids (l1 ++ l2) = saved_ids l1 ++ saved_ids l2.
Proof. apply omap_app. Qed.

Lemma saves_first_frame (r r' : Root W) (evs : list Event) :
  trace r' = trace r ++ evs → saved_ids evs = [] →
  ctx_RecordToSession (ctx r') = ctx_RecordToSession (ctx r) →
  length (heap r') = length (heap r) →
  saves_first r r'.
Proof.
  intros Htr Hno Hflag Hlen. exists evs. split; [done|]. rewrite Hflag.
  split; [done|]. intros ?. by left.
Qed.

Lemma follows_refl (r : Root W) : follows r r.
Proof.
  split; [apply root_evolves_refl|].
  apply (saves_first_frame r r []); [by rewrite app_nil_r|done..].
Qed.

Lemma follows_trans (r1 r2 r3 : Root W) :
  follows r1 r2 → follows r2 r3 → follows r1 r3.
Proof.
  intros [He1 (evs1 & Htr1 & Hdown1 & Hup1)] [He2 (evs2 & Htr2 & Hdown2 & Hup2)].
  split; [by eapply root_evolves_trans|].
  exists (evs1 ++ evs2). rewrite Htr2, Htr1, app_assoc, saved_ids_app.
  split; [done|]. split.
  - intros Hf. destruct (Hdown1 Hf) as [-> Hf2].
    destruct (Hdown2 Hf2) as [-> ?]. done.
  - intros Hf. destruct (Hup1 Hf) as [(-> & Hf2 & Hlen)|(it & -> & Hit & Hf2)].
    + destruct (Hup2 Hf2) as [(-> & ? & ?)|(it & -> & Hit & ?)].
      * left. split; [done|]. split; [done|]. congruence.
      * right. exists it. rewrite <- Hlen. done.
    + destruct (Hdown2 Hf2) as [-> ?].
      destruct He2 as (Hkeep & _).
      destruct (Hkeep _ _ Hit) as (it' & Hit' & Hid & _).
      right. exists it'. rewrite Hid. done.
Qed.

Lemma follows_frame (r r' : Root W) (evs : list Event) :
  heap r' = heap r → ctx r' = ctx r →
  trace r' = trace r ++ evs → saved_ids evs = [] →
  follows r r'.
Proof.
  intros Hh Hc Htr Hno. split; [by apply root_evolves_frame|].
  apply (saves_first_frame r r' evs); [done..|by rewrite Hc|by rewrite Hh].
Qed.

Lemma follows_call (e : Event) (w : W) (r : Root W) :
  saved_ids [e] = [] → follows r (call e w r).
Proof. intros. by apply (follows_frame r (call e w r) [e]). Qed.

Lemma follows_silence (b : bool) (r : Root W) :
  follows r (with_SilenceUsage b r).
Proof.
  apply (follows_frame r (with_SilenceUsage b r) []); [done..| |done].
  simpl. by rewrite app_nil_r.
Qed.

Lemma evolves_insert (r : Root W) (a : nat) (it0 it1 : HistoryItem) :
  heap r !! a = Some it0 → same_identity it0 it1 →
  root_evolves r (with_heap (<[a := it1]> (heap r)) r).
Proof.
  intros Hit Hsame. unfold root_evolves. simpl. rewrite length_insert. split.
  - intros a' it Hit'. destruct (decide (a = a')) as [<-|Hne].
    + exists it1. rewrite list_lookup_insert_eq by (by eapply lookup_lt_Some).
      split; [done|]. congruence.
    + exists it. rewrite list_lookup_insert_ne by done. by split.
  - rewrite Nat.sub_diag. simpl. repeat split; lia.
Qed.

Lemma follows_insert (r : Root W) (a : nat) (it0 it1 : HistoryItem) :
  heap r !! a = Some it0 → same_identity it0 it1 →
  follows r (with_heap (<[a := it1]> (heap r)) r).
Proof.
  intros Hit Hsame. split; [by eapply evolves_insert|].
  apply (saves_first_frame _ _ []); simpl;
    [by rewrite app_nil_r|done|done|by rewrite length_insert].
Qed.

Lemma evolves_create (o : MeasurementCreate) (r : Root W) :
  root_evolves r (createMeasurement o r).2.
Proof.
  unfold createMeasurement, saveIdToSession, Now, Printf, call,
    with_heap, with_ctx, with_session, with_SilenceUsage.
  repeat (case_match; simplify_eq/=); try by apply root_evolves_frame.
  all: unfold root_evolves, same_identity; simpl; rewrite length_app; simpl.
  all: split; [intros a it Hit; exists it; by rewrite lookup_app_l by (by eapply lookup_lt_Some)|].
  all: replace (length (heap r) + 1 - length (heap r))%nat with 1%nat by lia.
  all: simpl; repeat split; lia.
Qed.

Lemma saves_create (o : MeasurementCreate) (r : Root W) :
  saves_first r (createMeasurement o r).2.
Proof.
  unfold saves_first, createMeasurement, saveIdToSession, Now, Printf, call,
    with_heap, with_ctx, with_session, with_SilenceUsage.
  repeat (case_match; simplify_eq/=); rewrite <- ?app_assoc;
    (eexists; split; [reflexivity|]; simpl; split; [done|]; intros ?;
     first [ by left
           | right; eexists (Build_HistoryItem _ _ _ _ _);
             split; [reflexivity|]; split; [|done];
             by apply list_lookup_middle ]).
Qed.

Lemma follows_create (o : MeasurementCreate) (r : Root W) :
  follows r (createMeasurement o r).2.
Proof. split; [apply evolves_create|apply saves_create]. Qed.

Lemma follows_Now (r : Root W) : follows r (Now r).2.
Proof. unfold Now. case_match. by apply follows_call. Qed.

Lemma advance_root (s : PingState W) : outcome_root (advance s) = root s.
Proof. unfold advance. by repeat case_match. Qed.

Lemma start_round_root (s : PingState W) : outcome_root (start_round s) = root s.
Proof. unfold start_round. by rewrite advance_root. Qed.

Lemma follows_overlap (s s' : PingState W) :
  overlap s = Ok s' → follows (root s) (root s').
Proof.
  unfold overlap. destruct (retarget s) as [s1|] eqn:Hre; [|done]. simpl.
  apply retarget_frame in Hre as (Hroot & _).
  pose proof (follows_Now (root s1)) as H1.
  destruct (Now (root s1)) as [start r1].
  pose proof (follows_create (opts s1) r1) as H2.
  destruct (createMeasurement (opts s1) r1) as [[hm err] r2].
  pose proof (follows_Now r2) as H3.
  destruct (Now r2) as [stop r3]. intros Heq. simplify_eq/=.
  rewrite <- Hroot. eauto using follows_trans.
Qed.

Lemma follows_maybe_overlap (s : PingState W) :
  follows (root s) (outcome_root (maybe_overlap s)).
Proof.
  unfold maybe_overlap.
  destruct (runErr s); [rewrite advance_root; apply follows_refl|].
  destruct (CanAppend _ _) as [[|]|]; simpl;
    [|rewrite advance_root|]; try apply follows_refl.
  destruct (overlap s) as [s'|] eqn:Hov; simpl; [|apply follows_refl].
  rewrite advance_root. by apply follows_overlap.
Qed.

Lemma follows_body (s : PingState W) (a : nat) :
  follows (root s) (outcome_root (ping_body a s)).
Proof.
  unfold ping_body.
  destruct (heap (root s) !! a) as [it|] eqn:Hit; [|apply follows_refl].
  destruct (client_GetMeasurement _ _) as [[m|err] w].
  2:{ eapply follows_trans; [|apply follows_silence]. by apply follows_call. }
  set (r1 := call (EvGetMeasurement (Id it)) w (root s)).
  assert (follows (root s)
            (with_heap (<[a := set_Status (m_Status m) it]> (heap r1)) r1)) as H1.
  { apply (follows_trans _ r1); [by apply follows_call|].
    by apply (follows_insert r1 a it). }
  case_bool_decide; [by rewrite advance_root|].
  cbn [world with_heap call].
  destruct (viewer_OutputInfinite m _) as [[err|] w'].
  { eapply follows_trans; [exact H1|].
    eapply follows_trans; [|apply follows_silence]. by apply follows_call. }
  set (r2 := call (EvOutputInfinite m) w'
               (with_heap (<[a := set_Status (m_Status m) it]> (heap r1)) r1)) in *.
  assert (follows (root s) r2) as H2
    by (eapply follows_trans; [exact H1|]; by apply follows_call).
  case_decide.
  - destruct (Remove _ _) as [b|]; [|done].
    eapply follows_trans; [exact H2|].
    apply (follows_maybe_overlap (with_mbuf b (with_root r2 s))).
  - eapply follows_trans;
      [|apply (follows_maybe_overlap
                 (with_root
                    (with_heap
                       (<[a := set_IsPartiallyFinished (IsPartiallyFinished m)
                                 (set_Status (m_Status m) it)]> (heap r2)) r2) s))].
    eapply follows_trans; [exact H2|].
    apply (follows_insert r2 a (set_Status (m_Status m) it)); [|done].
    subst r2 r1. simpl. apply list_lookup_insert_eq. by eapply lookup_lt_Some.
Qed.

Lemma follows_after_sweep (s : PingState W) :
  follows (root s) (outcome_root (ping_after_sweep s)).
Proof.
  unfold ping_after_sweep.
  destruct (0 <? Len (mbuf s)); [rewrite start_round_root; by apply follows_call|].
  destruct (runErr s); [apply follows_refl|].
  match goal with |- context [match ?x with Ok _ => _ | Panic => _ end] =>
    assert (∀ s1, x = Ok s1 → root s1 = root s) as Hre;
      [|destruct x as [s1|]; [|apply follows_refl]] end.
  { intros s1. destruct (History_Last _); [by intros [= <-]|].
    by intros (? & _)%retarget_frame. }
  rewrite <- (Hre s1 eq_refl).
  pose proof (follows_create (opts s1) (root s1)) as Hc.
  destruct (createMeasurement _ _) as [[hm err] r']. simpl in Hc.
  destruct err; [done|]. by rewrite start_round_root.
Qed.

Lemma follows_step (s : PingState W) :
  follows (root s) (outcome_root (ping_step s)).
Proof.
  unfold ping_step. destruct (el s); [apply follows_after_sweep|apply follows_body].
Qed.

Lemma follows_run (n : nat) (s : PingState W) :
  follows (root s) (outcome_root (ping_run n s)).
Proof.
  revert s. induction n as [|n IH]; intros s; simpl; [apply follows_refl|].
  pose proof (follows_step s) as Hstep.
  destruct (ping_step s) as [s'|e s'|r']; [|done|done].
  eapply follows_trans; [exact Hstep|apply IH].
Qed.

Lemma ping_follows (n : nat) (o : MeasurementCreate) (r : Root W) :
  follows r (outcome_root (ping n o r)).
Proof.
  unfold ping. rewrite ping_init_eq.
  apply (follows_run n {| root := r; opts := o; runErr := None;
                          mbuf := {| capacity := 2; items := []; pos := 0 |};
                          elapsedTime := 0; el := Nil |}).
Qed.

Lemma iter_incr_in_range (k : nat) (c : Z) :
  in_int64 c → in_int64 (c + Z.of_nat k) →
  Nat.iter k (λ c, wrap64 (c + 1)) c = c + Z.of_nat k.
Proof.
  unfold in_int64. intros Hc. induction k as [|k IH]; intros Hk; simpl; [lia|].
  rewrite IH by lia. rewrite wrap64_id by (unfold in_int64; lia). lia.
Qed.

(** X7. Whatever a continuous run does, at every step and when it stops the
    history items that existed before are still at their addresses with
    their id, probe statuses and start time: the loop writes only the
    status and the partially-finished flag of an item. No item is ever
    deallocated, the counter of created measurements has been incremented
    once for each item allocated, as a 64-bit integer (so it has grown by
    exactly that number unless it wrapped around), and the target, limit,
    CI mode, packets, infinite flag and minimum interval of the context
    are unchanged. *)
Theorem ping_keeps_history_items (n : nat) (o : MeasurementCreate) (r : Root W) :
  let r' := outcome_root (ping n o r) in
  let allocated := (length (heap r') - length (heap r))%nat in
  root_evolves r r' ∧
  (in_int64 (ctx_MeasurementsCreated (ctx r)) →
   in_int64 (ctx_MeasurementsCreated (ctx r) + Z.of_nat allocated) →
   ctx_MeasurementsCreated (ctx r')
   = ctx_MeasurementsCreated (ctx r) + Z.of_nat allocated).
Proof.
  intros r' allocated.
  assert (root_evolves r r') as Hev by apply ping_follows.
  split; [done|]. intros Hc Hk.
  destruct Hev as (_ & _ & -> & _). by apply iter_incr_in_range.
Qed.

(** X8. However many measurements a continuous run creates, it asks the
    session store to save at most one id, and only when it starts with the
    record-to-session flag up: the id saved is that of the first
    measurement the run created, and the flag is down from then on. As long
    as nothing has been saved the flag is still up and no measurement has
    been created. A run that starts with the flag down saves nothing. *)
Theorem ping_saves_first_id (n : nat) (o : MeasurementCreate) (r : Root W) :
  saves_first r (outcome_root (ping n o r)).
Proof. apply ping_follows. Qed.

Ltac unfold_loop :=
  unfold ping_step, ping_body, ping_after_sweep, maybe_overlap, overlap, retarget,
    start_round, advance, createMeasurement, saveIdToSession, Now, Printf, call,
    with_root, with_mbuf, with_heap, with_ctx, with_session, with_SilenceUsage in *.

Lemma ping_step_calls (o0 : MeasurementCreate) (s : PingState W) :
  same_but_locations o0 (opts s) →
  ∃ evs, trace (outcome_root (ping_step s)) = trace (root s) ++ evs ∧
         Forall (loop_event o0) evs ∧
         same_but_locations o0 (outcome_opts (opts s) (ping_step s)).
Proof.
  unfold same_but_locations. intros (? & ? & ? & ? & ?). unfold_loop.
  repeat (case_match; simplify_eq/=);
    rewrite <- ?app_assoc;
    (eexists; split; [try reflexivity; by rewrite app_nil_r
                     | split; [repeat constructor; simpl; done|done]]).
Qed.

Lemma ping_run_calls (o0 : MeasurementCreate) (n : nat) (s : PingState W) :
  same_but_locations o0 (opts s) →
  ∃ evs, trace (outcome_root (ping_run n s)) = trace (root s) ++ evs ∧
         Forall (loop_event o0) evs.
Proof.
  revert s. induction n as [|n IH]; intros s Hsame; simpl.
  - exists []. by rewrite app_nil_r.
  - destruct (ping_step_calls o0 s Hsame) as (evs & Htr & Hall & Hopts).
    destruct (ping_step s) as [s'|e s'|r'] eqn:Hstep; simpl in *; eauto.
    destruct (IH s' Hopts) as (evs' & Htr' & Hall').
    exists (evs ++ evs'). rewrite Htr', Htr, app_assoc. split; [done|].
    by apply Forall_app.
Qed.

(** X9. A continuous run only ever creates the measurement it was asked
    for: every request it sends has the type, target, probe limit,
    in-progress-updates flag and options of the request the run started
    with, and differs from it at most in its locations. The loop never
    calls the one-shot renderer and never prints the summary. *)
Theorem ping_creates_same_request (n : nat) (o : MeasurementCreate) (r : Root W) :
  ∃ evs, trace (outcome_root (ping n o r)) = trace r ++ evs ∧
         Forall (loop_event o) evs.
Proof.
  unfold ping. rewrite ping_init_eq.
  apply (ping_run_calls o n {| root := r; opts := o; runErr := None;
                               mbuf := {| capacity := 2; items := []; pos := 0 |};
                               elapsedTime := 0; el := Nil |}).
  by unfold same_but_locations.
Qed.

End RunProperties.

Section Retirement.
Context {W : Type} `{!Collaborators W}.

Lemma Next_elem (b b' : MeasurementsBuffer) (x : Ptr) :
  Next b = Ok (x, b') → items b' = items b ∧ (x = Nil ∨ x ∈ items b).
Proof.
  unfold Next, index. intros HNext.
  repeat (case_match; simplify_eq/=); [by auto|].
  split; [done|]. right. by eapply list_elem_of_lookup_2.
Qed.

Lemma createMeasurement_heap (o : MeasurementCreate) (r : Root W) :
  match createMeasurement o r with
  | ((hm, None), r') => hm = Addr (length (heap r)) ∧ ∃ it, heap r' = heap r ++ [it]
  | ((hm, Some _), r') => hm = Nil ∧ heap r' = heap r
  end.
Proof.
  unfold createMeasurement, saveIdToSession, Now, Printf, call,
    with_heap, with_ctx, with_session, with_SilenceUsage.
  repeat (case_match; simplify_eq/=); (split; [done|]); by eauto.
Qed.

Lemma retired_advance (a : nat) (s : PingState W) :
  out_of_window a s →
  match advance s with
  | Continue s' | Return _ s' => retired a s' ∧ root s' = root s
  | Crash _ => True
  end.
Proof.
  intros [Hlt Hout]. unfold advance.
  destruct (Next (mbuf s)) as [[x b]|] eqn:HNext; [|done].
  apply Next_elem in HNext as [Hitems Hx].
  unfold retired, out_of_window. simpl. rewrite Hitems.
  split; [|done]. split; [done|]. intros ->. by destruct Hx.
Qed.

Lemma retired_start_round (a : nat) (s : PingState W) :
  out_of_window a s →
  match start_round s with
  | Continue s' | Return _ s' => retired a s' ∧ root s' = root s
  | Crash _ => True
  end.
Proof.
  intros Hout. unfold start_round.
  apply (retired_advance a {| root := root s; opts := opts s; runErr := runErr s;
                              mbuf := Restart (mbuf s); elapsedTime := 0;
                              el := el s |}).
  exact Hout.
Qed.

Lemma retired_overlap (a : nat) (s s' : PingState W) :
  out_of_window a s → overlap s = Ok s' →
  out_of_window a s' ∧ heap (root s') !! a = heap (root s) !! a.
Proof.
  intros [Hlt Hout]. unfold overlap.
  destruct (retarget s) as [s1|] eqn:Hre; [|done]. simpl.
  apply retarget_frame in Hre as (Hroot & Hmbuf & _).
  destruct (Now (root s1)) as [start r1] eqn:HNow1.
  apply Now_frame in HNow1 as [Hh1 _].
  pose proof (createMeasurement_heap (opts s1) r1) as Hc.
  destruct (createMeasurement (opts s1) r1) as [[hm err] r2].
  destruct (Now r2) as [stop r3] eqn:HNow2.
  apply Now_frame in HNow2 as [Hh3 _].
  intros Heq. simplify_eq/=. unfold out_of_window. simpl.
  rewrite Hh3, Hmbuf. rewrite Hroot in Hh1.
  destruct err as [e|].
  - destruct Hc as [-> ->]. rewrite Hh1. split; [|done]. split; [done|].
    rewrite elem_of_app, list_elem_of_singleton. by intros [|].
  - destruct Hc as [-> [it ->]]. rewrite Hh1, length_app. simpl.
    split; [|by rewrite lookup_app_l]. split; [lia|].
    rewrite elem_of_app, list_elem_of_singleton. intros [|[= ->]]; [done|lia].
Qed.

Lemma retired_maybe_overlap (a : nat) (s : PingState W) :
  out_of_window a s →
  match maybe_overlap s with
  | Continue s' | Return _ s' =>
      retired a s' ∧ heap (root s') !! a = heap (root s) !! a
  | Crash _ => True
  end.
Proof.
  intros Hout. unfold maybe_overlap.
  assert (match advance s with
          | Continue s' | Return _ s' =>
              retired a s' ∧ heap (root s') !! a = heap (root s) !! a
          | Crash _ => True
          end) as Hadv.
  { pose proof (retired_advance a s Hout) as H.
    destruct (advance s) as [s'|e s'|]; [| |done]; destruct H as [? ->]; done. }
  destruct (runErr s); [done|].
  destruct (CanAppend _ _) as [[|]|]; [|done|done].
  destruct (overlap s) as [s1|] eqn:Hov; [|done].
  destruct (retired_overlap a s s1 Hout Hov) as [Hout1 Hh1].
  pose proof (retired_advance a s1 Hout1) as H.
  destruct (advance s1) as [s'|e s'|]; [| |done]; destruct H as [? ->]; done.
Qed.

Lemma retired_body (a a' : nat) (s : PingState W) :
  out_of_window a s → a' ≠ a →
  match ping_body a' s with
  | Continue s' | Return _ s' =>
      (out_of_window a s' ∧ (el s' = el s ∨ retired a s')) ∧
      heap (root s') !! a = heap (root s) !! a
  | Crash _ => True
  end.
Proof.
  intros [Hlt Hout] Hne. unfold ping_body.
  destruct (heap (root s) !! a') as [it|] eqn:Hit; [|done].
  destruct (client_GetMeasurement _ _) as [[m|err] w];
    [|by (split; [split; [split|left]|])].
  set (r1 := call (EvGetMeasurement (Id it)) w (root s)).
  set (r1' := with_heap (<[a' := set_Status (m_Status m) it]> (heap r1)) r1).
  assert (out_of_window a (with_root r1' s)) as Hout1.
  { split; [|done]. simpl. by rewrite length_insert. }
  assert (heap r1' !! a = heap (root s) !! a) as Hh1.
  { simpl. by rewrite list_lookup_insert_ne. }
  case_bool_decide.
  { pose proof (retired_advance a _ Hout1) as H1.
    destruct (advance _) as [s'|e s'|]; [| |done];
      destruct H1 as [Hr ->]; (split; [|done]); (split; [apply Hr|by right]). }
  cbn [world with_heap call].
  destruct (viewer_OutputInfinite m _) as [[err|] w'];
    [by (split; [split; [exact Hout1|left]|])|].
  set (r2 := call (EvOutputInfinite m) w' r1') in *.
  case_decide.
  - destruct (Remove _ _) as [b|] eqn:Hrm; [|done].
    apply Remove_items in Hrm as [_ Hitems].
    assert (out_of_window a (with_mbuf b (with_root r2 s))) as Hout2.
    { split; [exact (proj1 Hout1)|]. simpl. rewrite Hitems.
      by intros [_ ?]%list_elem_of_filter. }
    pose proof (retired_maybe_overlap a _ Hout2) as H2.
    destruct (maybe_overlap _) as [s'|e s'|]; [| |done].
    all: destruct H2 as [Hr Hh].
    all: split; [split; [apply Hr|by right]|].
    all: by rewrite Hh.
  - set (r3 := with_heap
                 (<[a' := set_IsPartiallyFinished (IsPartiallyFinished m)
                            (set_Status (m_Status m) it)]> (heap r2)) r2).
    assert (out_of_window a (with_root r3 s)) as Hout2.
    { split; [|done]. simpl. by rewrite !length_insert. }
    pose proof (retired_maybe_overlap a _ Hout2) as H2.
    destruct (maybe_overlap _) as [s'|e s'|]; [| |done].
    all: destruct H2 as [Hr Hh].
    all: split; [split; [apply Hr|by right]|].
    all: rewrite Hh; simpl; by rewrite !list_lookup_insert_ne.
Qed.

Lemma retired_after_sweep (a : nat) (s : PingState W) :
  out_of_window a s → el s ≠ Addr a →
  match ping_after_sweep s with
  | Continue s' | Return _ s' =>
      retired a s' ∧ heap (root s') !! a = heap (root s) !! a
  | Crash _ => True
  end.
Proof.
  intros Hout Hel. unfold ping_after_sweep.
  destruct (0 <? Len (mbuf s)).
  { pose proof (retired_start_round a
                  (with_root (call (EvSleep (wrap64 (ctx_APIMinInterval (ctx (root s))
                                                     - elapsedTime s)))
                                   (world (root s)) (root s)) s) Hout) as H.
    destruct (start_round _) as [s'|e s'|]; [| |done]; destruct H as [? ->]; done. }
  destruct (runErr s); [done|].
  match goal with |- context [match ?x with Ok _ => _ | Panic => _ end] =>
    assert (∀ s1, x = Ok s1 → root s1 = root s ∧ mbuf s1 = mbuf s ∧ el s1 = el s)
      as Hre; [|destruct x as [s1|]; [|done]] end.
  { intros s1. destruct (History_Last _); [by intros [= <-]|].
    by intros (? & ? & _ & ? & _)%retarget_frame. }
  destruct (Hre s1 eq_refl) as (Hroot & Hmbuf & Hel1).
  pose proof (createMeasurement_heap (opts s1) (root s1)) as Hc.
  destruct (createMeasurement _ _) as [[hm err] r'].
  destruct Hout as [Hlt Hout]. rewrite Hroot in Hc.
  destruct err as [e|].
  - destruct Hc as [-> Hh]. unfold retired, out_of_window. simpl.
    rewrite Hh, Hmbuf, Hel1. done.
  - destruct Hc as [-> [it Hh]].
    assert (out_of_window a
              (with_mbuf (Append (mbuf s1) (Addr (length (heap (root s)))))
                 (with_root r' s1))) as Hout2.
    { split; simpl; [rewrite Hh, length_app; lia|].
      rewrite Hmbuf, elem_of_app, list_elem_of_singleton.
      intros [|[= ->]]; [done|lia]. }
    pose proof (retired_start_round a _ Hout2) as H.
    destruct (start_round _) as [s'|e s'|]; [| |done].
    all: destruct H as [Hr ->].
    all: split; [done|]; simpl; rewrite Hh; by rewrite lookup_app_l.
Qed.

Lemma retired_step (a : nat) (s : PingState W) :
  retired a s →
  match ping_step s with
  | Continue s' | Return _ s' =>
      retired a s' ∧ heap (root s') !! a = heap (root s) !! a
  | Crash _ => True
  end.
Proof.
  intros [Hout Hel]. unfold ping_step. destruct (el s) as [|a'] eqn:Hels.
  - apply retired_after_sweep; [done|]. by rewrite Hels.
  - assert (a' ≠ a) as Hne by congruence.
    pose proof (retired_body a a' s Hout Hne) as H.
    destruct (ping_body a' s) as [s'|e s'|]; [| |done].
    all: destruct H as [[Hout' [Hsame|Hr]] Hh]; (split; [|done]); [|done].
    all: split; [done|]; rewrite Hsame, Hels; congruence.
Qed.

Lemma retired_run (a : nat) (n : nat) (s : PingState W) :
  retired a s →
  match ping_run n s with
  | Continue s' | Return _ s' =>
      retired a s' ∧ heap (root s') !! a = heap (root s) !! a
  | Crash _ => True
  end.
Proof.
  revert s. induction n as [|n IH]; intros s Hr; simpl; [done|].
  pose proof (retired_step a s Hr) as Hstep.
  destruct (ping_step s) as [s1|e s1|]; [|done|done].
  destruct Hstep as [Hr1 Hh1]. specialize (IH s1 Hr1).
  destruct (ping_run n s1) as [s'|e s'|]; [| |done];
    destruct IH as [? ->]; done.
Qed.

End Retirement.

Section CommandProperties.
Context {W : Type} `{!Collaborators W}.

(** X10. A measurement that is polled with a terminal status and rendered
    leaves the polling window for good. After that step of the loop and
    after any number of further steps, unless the loop panics, the item is
    not in the window and is not the one being polled, and its history
    record is the one it had before the poll with the polled status: it
    is never polled, rendered or written again. *)
Theorem finished_measurement_is_retired (s : PingState W) (a : nat)
    (it : HistoryItem) (m : Measurement) (w w' : W) (n : nat)
    (Hel : el s = Addr a)
    (Hit : heap (root s) !! a = Some it)
    (Hpoll : client_GetMeasurement (Id it) (world (root s)) = (inl m, w))
    (Hres : m_Results m ≠ [])
    (Hrender : viewer_OutputInfinite m w = (None, w'))
    (Hdone : m_Status m ≠ StatusInProgress) :
  match ping_run (S n) s with
  | Continue s' | Return _ s' =>
      retired a s' ∧ heap (root s') !! a = Some (set_Status (m_Status m) it)
  | Crash _ => True
  end.
Proof.
  simpl. unfold ping_step, ping_body. rewrite Hel, Hit, Hpoll.
  rewrite bool_decide_eq_false_2 by (by destruct (m_Results m)).
  cbn [world with_heap call]. rewrite Hrender.
  destruct (decide (m_Status m ≠ StatusInProgress)) as [_|]; [|done].
  destruct (Remove _ _) as [b|] eqn:Hrm; [|done].
  apply Remove_items in Hrm as [_ Hitems].
  match goal with |- context [maybe_overlap ?s0] =>
    pose proof (retired_maybe_overlap a s0) as Hmo;
    destruct (maybe_overlap s0) as [s1|e s1|]; [| |done] end.
  all: destruct Hmo as [Hr Hh];
    [split; simpl;
     [rewrite length_insert; by eapply lookup_lt_Some
     |rewrite Hitems; intros [Hne _]%list_elem_of_filter; by apply Hne]|].
  all: simpl in Hh; rewrite list_lookup_insert_eq in Hh
    by (by eapply lookup_lt_Some).
  2: done.
  pose proof (retired_run a n s1 Hr) as Hrun.
  destruct (ping_run n s1) as [s'|e s'|]; [| |done];
    destruct Hrun as [? ->]; done.
Qed.

Lemma ping_run_sound (n : nat) (s : PingState W) :
  wf_state s → history_sound s →
  match ping_run n s with
  | Continue s' | Return _ s' => wf_state s' ∧ history_sound s'
  | Crash _ => False
  end.
Proof.
  revert s. induction n as [|n IH]; intros s Hwf Hh; simpl; [done|].
  pose proof (ping_step_wf s Hwf) as Hstep.
  pose proof (ping_step_safe s Hwf Hh) as Hsafe.
  destruct (ping_step s) as [s'|e s'|r']; [|by destruct Hstep|done].
  apply IH; [by destruct Hstep|done].
Qed.

(** X11. The command does not panic when, once the context is updated and
    the locations are resolved, the history is usable: its write index is
    in range and its last item, if any, is allocated (as it is when the
    history is empty or holds what [createMeasurement] pushed). This holds
    in one-shot mode and in continuous mode, whenever the main task is
    woken and however long the goroutine goes on while the summary is
    rendered, and for all answers of the client that are an error or a
    result, of the renderer, of the clock and of the session store. An
    answer of the client with a nil result and a nil error is not among
    them: ping.go dereferences the result after testing only the error
    (lines 134 and 206) and would panic on it. The theorem relies on
    [HistoryBuffer.Last] returning the item pushed last. *)
Theorem RunPing_never_panics
    (updateContext : Root W → option error * Root W)
    (getLocations : Root W → (list Locations + error) * Root W)
    (n m : nat) (r : Root W)
    (Hhist : ∀ r1 l r2,
       updateContext r = (None, r1) → getLocations (prepare r1) = (inl l, r2) →
       (writeIndex (ctx_History (ctx r2)) < length (slots (ctx_History (ctx r2))))%nat ∧
       ∀ a, History_Last (ctx_History (ctx r2)) = Addr a → (a < length (heap r2))%nat) :
  ∀ r', RunPing updateContext getLocations n m r ≠ Panicked r'.
Proof.
  intros r'. unfold RunPing.
  destruct (updateContext r) as [[e|] r1] eqn:Hupd; [done|].
  destruct (getLocations (prepare r1)) as [[l|e] r2] eqn:Hloc; [|done].
  destruct (Hhist r1 l r2 eq_refl Hloc) as [Hwi Hlast].
  destruct (ctx_Infinite (ctx r2)).
  - unfold pingInfinite. destruct (5 <? ctx_Limit (ctx r2)); [done|].
    unfold ping. rewrite ping_init_eq.
    match goal with |- context [ping_run n ?s0] =>
      pose proof (ping_run_sound n s0) as Hrun end.
    destruct (ping_run n _) as [s|e s|r3]; [|done|].
    + destruct Hrun as [Hwf Hh].
      { unfold wf_state, window_sound, len_items. simpl.
        repeat split; try done; try lia; try apply not_elem_of_nil.
        - apply NoDup_nil_2.
        - intros a Ha. by apply elem_of_nil in Ha.
        - intros _. apply not_elem_of_nil. }
      { by unfold history_sound. }
      pose proof (ping_run_sound m (with_root (OutputSummary (root s)) s)) as Hrun'.
      destruct (ping_run m _) as [s'|e s'|r3]; [done|done|].
      destruct Hrun'; [by apply wf_state_root|].
      by apply (history_sound_frame s).
    + destruct Hrun.
      { unfold wf_state, window_sound, len_items. simpl.
        repeat split; try done; try lia; try apply not_elem_of_nil.
        - apply NoDup_nil_2.
        - intros a Ha. by apply elem_of_nil in Ha.
        - intros _. apply not_elem_of_nil. }
      { by unfold history_sound. }
  - pose proof (createMeasurement_heap (set_Locations l (request (prepare r1))) r2)
      as Hc.
    destruct (createMeasurement _ r2) as [[hm [e|]] r3]; [done|].
    destruct Hc as [-> [it ->]]. rewrite list_lookup_middle by done.
    by destruct (viewer_Output _ _ _).
Qed.

(** X12. One-shot mode: with the context updated, the locations resolved to
    [l] and the infinite flag down, the command sends exactly one creation
    request, the request built from the context with locations [l]. When
    the API refuses it the command returns that error and calls nothing
    else. When the API answers with an id, the measurement is counted and
    recorded in the history under that id, and the command ends by
    rendering that id with the same request, once, returning what the
    renderer returns; in between it only reads the clock and possibly saves
    the id to the session. It never polls, renders incrementally, sleeps
    or prints the summary. *)
Theorem RunPing_one_shot
    (updateContext : Root W → option error * Root W)
    (getLocations : Root W → (list Locations + error) * Root W)
    (n m : nat) (r r1 r2 : Root W) (l : list Locations)
    (Hupd : updateContext r = (None, r1))
    (Hloc : getLocations (prepare r1) = (inl l, r2))
    (Hone : ctx_Infinite (ctx r2) = false) :
  let o := set_Locations l (request (prepare r1)) in
  match client_CreateMeasurement o (world r2) with
  | (CreateErr _ e, _) =>
      ∃ r', RunPing updateContext getLocations n m r = Done (Some e) r' ∧
            trace r' = trace r2 ++ [EvCreateMeasurement o] ∧
            heap r' = heap r2 ∧ ctx r' = ctx r2
  | (CreateOk id, _) =>
      ∃ r' it evs w,
        RunPing updateContext getLocations n m r
        = Done (viewer_Output id o w).1 r' ∧
        world r' = (viewer_Output id o w).2 ∧
        trace r' = trace r2 ++ EvCreateMeasurement o :: evs ++ [EvOutput id o] ∧
        Forall housekeeping evs ∧
        heap r' = heap r2 ++ [it] ∧ Id it = id ∧
        History_Last (ctx_History (ctx r'))
        = History_Last (History_Push (ctx_History (ctx r2)) (Addr (length (heap r2)))) ∧
        ctx_MeasurementsCreated (ctx r')
        = wrap64 (ctx_MeasurementsCreated (ctx r2) + 1) ∧
        (in_int64 (ctx_MeasurementsCreated (ctx r2) + 1) →
         ctx_MeasurementsCreated (ctx r') = ctx_MeasurementsCreated (ctx r2) + 1)
  end.
Proof.
  intros o. unfold RunPing. rewrite Hupd, Hloc, Hone. fold o.
  unfold createMeasurement.
  destruct (client_CreateMeasurement o (world r2)) as [[id|showHelp e] w].
  2:{ eexists. split; [reflexivity|]. by destruct showHelp. }
  unfold Now. cbn [world call with_ctx].
  destruct (time_Now w) as [now w0].
  cbn [heap ctx call with_ctx with_heap set_History set_MeasurementsCreated
       ctx_RecordToSession ctx_History].
  destruct (ctx_RecordToSession (ctx r2)).
  - unfold saveIdToSession. cbn [world call with_ctx with_heap].
    destruct (store_Append id w0) as [[e|] w1].
    + unfold Printf. cbn [heap call with_ctx with_heap with_session world].
      rewrite list_lookup_middle by done. cbn [Id].
      destruct (viewer_Output id o w1) as [oerr w2] eqn:Hv.
      eexists _, _, [EvNow; EvSaveIdToSession id; EvPrintf _], w1.
      rewrite Hv. split; [reflexivity|]. simpl. rewrite <- !app_assoc.
      split; [done|]. split; [done|]. split; [by repeat constructor|].
      do 4 (split; [done|]). intros Hin. simpl. by apply wrap64_id.
    + cbn [heap call with_ctx with_heap with_session world].
      rewrite list_lookup_middle by done. cbn [Id].
      destruct (viewer_Output id o w1) as [oerr w2] eqn:Hv.
      eexists _, _, [EvNow; EvSaveIdToSession id], w1.
      rewrite Hv. split; [reflexivity|]. simpl. rewrite <- !app_assoc.
      split; [done|]. split; [done|]. split; [by repeat constructor|].
      do 4 (split; [done|]). intros Hin. simpl. by apply wrap64_id.
  - cbn [heap call with_ctx with_heap with_session world].
    rewrite list_lookup_middle by done. cbn [Id].
    destruct (viewer_Output id o w0) as [oerr w2] eqn:Hv.
    eexists _, _, [EvNow], w0.
    rewrite Hv. split; [reflexivity|]. simpl. rewrite <- !app_assoc.
    split; [done|]. split; [done|]. split; [by repeat constructor|].
    do 4 (split; [done|]). intros Hin. simpl. by apply wrap64_id.
Qed.

End CommandProperties.

Section CommandLineProperties.
Variable TrimSpace : string → string.

Lemma Split_nonempty (sep : Ascii.ascii) (s : string) : Split sep s ≠ [].
Proof. destruct s as [|c s]; simpl; [done|]. by repeat case_match. Qed.

Lemma Split_Join (sep : Ascii.ascii) (s : string) :
  Join (Split sep s) (String sep EmptyString) = s.
Proof.
  unfold Join. induction s as [|c s IH]; simpl; [done|].
  pose proof (Split_nonempty sep s) as Hne.
  destruct (Ascii.eqb_spec c sep) as [->|Hc].
  - simpl. destruct (Split sep s) as [|x xs]; [done|]. by rewrite IH.
  - destruct (Split sep s) as [|x xs]; [done|].
    simpl in *. destruct xs; simpl in *; by rewrite <- IH.
Qed.

Lemma Split_length (sep : Ascii.ascii) (s : string) :
  length (Split sep s) = S (count_byte sep s).
Proof.
  induction s as [|c s IH]; simpl; [done|].
  pose proof (Split_nonempty sep s) as Hne.
  destruct (Ascii.eqb c sep); simpl; [by rewrite IH|].
  destruct (Split sep s) as [|x xs]; [done|]. by simpl in *.
Qed.

Lemma Split_pieces (sep : Ascii.ascii) (s : string) :
  Forall (fun p => count_byte sep p = 0%nat) (Split sep s).
Proof.
  induction s as [|c s IH]; simpl; [by repeat constructor|].
  destruct (Ascii.eqb c sep) eqn:Hc; [by constructor|].
  destruct (Split sep s) as [|x xs]; [repeat constructor; simpl; by rewrite Hc|].
  apply Forall_cons in IH as [Hx Hxs]. constructor; [|done].
  simpl. by rewrite Hc.
Qed.

(** X13. [createLocations] makes one location per piece of the [from]
    string between commas, in order: the pieces hold no comma and joined
    with commas they give [from] back, each location is the piece with its
    outer white space trimmed, and empty pieces are not dropped. So a
    string with k commas gives k + 1 locations, and the list is never
    empty: the empty string gives one location. *)
Theorem createLocations_pieces (from : string) :
  ∃ pieces,
    createLocations TrimSpace from
    = (fun v => {| Magic := TrimSpace v |}) <$> pieces ∧
    Join pieces "," = from ∧
    Forall (fun p => count_byte comma p = 0%nat) pieces ∧
    length (createLocations TrimSpace from) = S (count_byte comma from) ∧
    createLocations TrimSpace from ≠ [].
Proof.
  exists (Split comma from). unfold createLocations.
  split; [done|]. split; [apply (Split_Join comma)|]. split; [apply Split_pieces|].
  rewrite length_fmap, Split_length. split; [done|].
  pose proof (Split_nonempty comma from). by destruct (Split comma from).
Qed.

(** X14. The positional arguments always decide the origin; the four
    shapes they can have are told apart. A lone target is accepted by
    [checkCommandFormat], and [createContext] sets [Target] to it and
    [From] to [world]. A target followed by the word [from] is accepted,
    and [From] becomes the words after [from], joined with blanks and
    trimmed (the trimmed empty string when no word follows). In both cases
    [From] does not depend on what the context held: the value of the
    [--from] flag is discarded. A target followed by any other word is
    rejected with the error [invalid command format], and [createContext]
    sets [Target] and leaves [From] as it was. Without arguments
    [checkCommandFormat] accepts and [createContext] panics on [args[0]].
    [Limit], [JsonOutput] and [Latency] are never written, and
    [checkCommandFormat] never panics. *)
Theorem createContext_overrides_from :
  (checkCommandFormat [] = Ok None ∧
   ∀ c, createContext TrimSpace [] c = Panic) ∧
  (∀ target c,
     checkCommandFormat [target] = Ok None ∧
     createContext TrimSpace [target] c
     = Ok {| model.Target := target; model.From := "world";
             model.Limit := model.Limit c;
             model.JsonOutput := model.JsonOutput c;
             model.Latency := model.Latency c |}) ∧
  (∀ target words c,
     checkCommandFormat (target :: "from" :: words) = Ok None ∧
     createContext TrimSpace (target :: "from" :: words) c
     = Ok {| model.Target := target;
             model.From := TrimSpace (Join words " ");
             model.Limit := model.Limit c;
             model.JsonOutput := model.JsonOutput c;
             model.Latency := model.Latency c |}) ∧
  (∀ target second rest c,
     second ≠ "from" →
     checkCommandFormat (target :: second :: rest)
     = Ok (Some "invalid command format") ∧
     createContext TrimSpace (target :: second :: rest) c
     = Ok {| model.Target := target; model.From := model.From c;
             model.Limit := model.Limit c;
             model.JsonOutput := model.JsonOutput c;
             model.Latency := model.Latency c |}).
Proof.
  assert (∀ (t a : string) rest,
            (1 <? Z.of_nat (length (t :: a :: rest))) = true ∧
            (Z.of_nat (length (t :: a :: rest)) =? 1) = false) as Hlen.
  { intros t a rest. split; [apply Z.ltb_lt|apply Z.eqb_neq]; simpl length; lia. }
  unfold checkCommandFormat, createContext, index, model.set_From, model.set_Target.
  split; [done|]. split; [done|]. split.
  - intros target words c. destruct (Hlen target "from" words) as [-> ->].
    change (Z.to_nat 1) with 1%nat. change (Z.to_nat 0) with 0%nat.
    cbn [lookup list_lookup drop].
    change (1 <? 0) with false. change (0 <? 0) with false.
    cbn [mbind Go_bind model.Target model.From model.Limit model.JsonOutput
         model.Latency].
    rewrite decide_False by (intros Hne; by apply Hne).
    by rewrite decide_True.
  - intros target second rest c Hne. destruct (Hlen target second rest) as [-> ->].
    change (Z.to_nat 1) with 1%nat. change (Z.to_nat 0) with 0%nat.
    cbn [lookup list_lookup drop].
    change (1 <? 0) with false. change (0 <? 0) with false.
    cbn [mbind Go_bind model.Target model.From model.Limit model.JsonOutput
         model.Latency].
    rewrite decide_True by done. by rewrite decide_False.
Qed.

End CommandLineProperties.

Section ChainProperties.
Context {W : Type} `{!Collaborators W}.

Lemma created_app (l1 l2 : list Event) :
  created (l1 ++ l2) = created l1 ++ created l2.
Proof. apply omap_app. Qed.

Lemma chained_snoc (locs0 : list Locations) (cs : list MeasurementCreate)
    (ids ids' : list string) (o : MeasurementCreate) :
  chained locs0 cs ids → length cs = length ids →
  mc_Locations o = next_locations locs0 ids →
  (ids' = ids ∨ ∃ id, ids' = ids ++ [id]) →
  chained locs0 (cs ++ [o]) ids'.
Proof.
  intros (Hlen & Hfirst & Hnext) Heq Ho Hids'.
  assert (length ids' = length ids ∨ length ids' = S (length ids)) as Hl'.
  { destruct Hids' as [->|[id ->]]; [by left|right].
    rewrite length_app. simpl. lia. }
  assert (∀ k id, ids !! k = Some id → ids' !! k = Some id) as Hpre.
  { intros k id Hk. destruct Hids' as [->|[id' ->]]; [done|].
    by apply lookup_app_l_Some. }
  split; [rewrite length_app; simpl; lia|]. split.
  - intros c Hc. destruct cs as [|c0 cs].
    + simpl in Hc. simplify_eq. rewrite Ho.
      destruct ids; [done|simpl in Heq; lia].
    + simpl in Hc. simplify_eq. by apply Hfirst.
  - intros k c Hc. destruct (decide (S k < length cs)%nat) as [Hlt|Hge].
    + rewrite lookup_app_l in Hc by done.
      destruct (Hnext k c Hc) as (id & Hid & Hloc). eauto.
    + apply lookup_lt_Some in Hc as Hlt. rewrite length_app in Hlt. simpl in Hlt.
      assert (S k = length cs) as Hk by lia.
      rewrite Hk, list_lookup_middle in Hc by done. simplify_eq.
      unfold next_locations in Ho. rewrite last_lookup in Ho.
      replace (pred (length ids)) with k in Ho by lia.
      destruct (ids !! k) as [id|] eqn:Hid.
      * exists id. split; [by apply Hpre|done].
      * apply lookup_ge_None in Hid. lia.
Qed.

Lemma create_chain (o : MeasurementCreate) (r : Root W) :
  history_usable r →
  match createMeasurement o r with
  | ((_, None), r') =>
      ∃ it hk, trace r' = trace r ++ EvCreateMeasurement o :: hk ∧
               created hk = [] ∧
               heap r' = heap r ++ [it] ∧
               History_Last (ctx_History (ctx r')) = Addr (length (heap r)) ∧
               history_usable r'
  | ((_, Some _), r') =>
      trace r' = trace r ++ [EvCreateMeasurement o] ∧ heap r' = heap r ∧
      ctx r' = ctx r
  end.
Proof.
  unfold history_usable. intros Hwi.
  pose proof (History_Last_Push (ctx_History (ctx r)) (Addr (length (heap r))) Hwi)
    as [HL Hwi'].
  unfold createMeasurement, saveIdToSession, Now, Printf, call,
    with_heap, with_ctx, with_session, with_SilenceUsage.
  repeat (case_match; simplify_eq/=); try done.
  all: eexists _, _; rewrite <- ?app_assoc; simpl.
  all: split; [reflexivity|]; split; [done|]; split; [reflexivity|]; done.
Qed.

Lemma fmap_insert_same_id (h : heap_t) (a : nat) (it it' : HistoryItem) :
  h !! a = Some it → Id it' = Id it → Id <$> <[a := it']> h = Id <$> h.
Proof.
  intros Hit Hid. rewrite list_fmap_insert. apply list_insert_id.
  by rewrite list_lookup_fmap, Hit, Hid.
Qed.

Lemma chain_done_quiet (r0 : Root W) (locs0 : list Locations) (r r' : Root W)
    (evs : list Event) :
  chain_done r0 locs0 r →
  trace r' = trace r ++ evs → created evs = [] →
  Id <$> heap r' = Id <$> heap r →
  chain_done r0 locs0 r'.
Proof.
  intros (Hle & evs0 & Htr0 & Hch) Htr Hno Hids.
  split; [apply (f_equal length) in Hids; rewrite !length_fmap in Hids; lia|].
  exists (evs0 ++ evs). rewrite Htr, Htr0, app_assoc, created_app, Hno, app_nil_r.
  unfold new_ids. by rewrite Hids.
Qed.

Lemma chain_done_of_inv (r0 : Root W) (locs0 : list Locations) (s : PingState W) :
  chain_inv r0 locs0 s → chain_done r0 locs0 (root s).
Proof. intros (? & evs & ? & ? & _). split; [done|]. by exists evs. Qed.

Lemma chain_inv_of_done (r0 : Root W) (locs0 : list Locations) (s : PingState W) :
  chain_done r0 locs0 (root s) → is_Some (runErr s) → chain_inv r0 locs0 s.
Proof.
  intros (? & evs & ? & ?) [e He]. split; [done|]. exists evs.
  split; [done|]. split; [done|]. by rewrite He.
Qed.

(** A change of the state that creates nothing and leaves the ids of the
    items, the history and the recorded error alone, and the locations of
    the request too when the history is empty. *)
Lemma chain_quiet (r0 : Root W) (locs0 : list Locations) (s s' : PingState W)
    (evs : list Event) :
  chain_inv r0 locs0 s →
  trace (root s') = trace (root s) ++ evs → created evs = [] →
  Id <$> heap (root s') = Id <$> heap (root s) →
  ctx_History (ctx (root s')) = ctx_History (ctx (root s)) →
  (History_Last (ctx_History (ctx (root s))) = Nil →
   mc_Locations (opts s') = mc_Locations (opts s)) →
  runErr s' = runErr s →
  chain_inv r0 locs0 s'.
Proof.
  intros (Hle & evs0 & Htr0 & Hch & Hnone) Htr Hno Hids Hhist Hopts Herr.
  split; [apply (f_equal length) in Hids; rewrite !length_fmap in Hids; lia|].
  exists (evs0 ++ evs). rewrite Htr, Htr0, app_assoc, created_app, Hno, app_nil_r.
  unfold new_ids, history_usable, primed in *. rewrite Hids, Hhist, Herr.
  split; [done|]. split; [done|]. intros He.
  destruct (Hnone He) as (Hlen & Hwi & Hpr). split; [done|]. split; [done|].
  destruct (History_Last _) as [|a]; [by rewrite Hopts|].
  destruct Hpr as (it & Hit & Hlast).
  assert ((Id <$> heap (root s')) !! a = Some (Id it)) as Hit'
    by (by rewrite Hids, list_lookup_fmap, Hit).
  rewrite list_lookup_fmap in Hit'.
  destruct (heap (root s') !! a) as [it'|]; [|done].
  exists it'. split; [done|]. simpl in Hit'. congruence.
Qed.

Lemma chain_advance (r0 : Root W) (locs0 : list Locations) (s : PingState W) :
  chain_inv r0 locs0 s →
  match advance s with
  | Continue s' => chain_inv r0 locs0 s'
  | Return _ s' => chain_done r0 locs0 (root s')
  | Crash _ => True
  end.
Proof.
  intros Hinv. unfold advance. destruct (Next (mbuf s)) as [[x b]|]; [|done].
  apply (chain_quiet r0 locs0 s _ []); simpl; try done. by rewrite app_nil_r.
Qed.

(** A creation of [o], asked for in a state that has no error recorded and
    is primed for it. *)
Lemma chain_create (r0 : Root W) (locs0 : list Locations) (s : PingState W)
    (o : MeasurementCreate) :
  chain_inv r0 locs0 s → runErr s = None →
  mc_Locations o = next_locations locs0 (new_ids r0 (root s)) →
  match createMeasurement o (root s) with
  | ((_, None), r') =>
      ∀ s', root s' = r' → runErr s' = None → chain_inv r0 locs0 s'
  | ((_, Some _), r') => chain_done r0 locs0 r'
  end.
Proof.
  intros (Hle & evs0 & Htr0 & Hch & Hnone) Herr Ho.
  destruct (Hnone Herr) as (Hlen & Hwi & Hpr).
  pose proof (create_chain o (root s) Hwi) as Hc.
  destruct (createMeasurement o (root s)) as [[hm [e|]] r'].
  - destruct Hc as (Htr & Hheap & _). split; [by rewrite Hheap|].
    exists (evs0 ++ [EvCreateMeasurement o]).
    rewrite Htr, Htr0, app_assoc, created_app. split; [done|].
    unfold new_ids in *. rewrite Hheap. simpl.
    eapply chained_snoc; eauto.
  - intros s' <- Herr'.
    destruct Hc as (it & hk & Htr & Hhk & Hheap & HL & Hwi').
    split; [rewrite Hheap, length_app; lia|].
    exists (evs0 ++ EvCreateMeasurement o :: hk).
    rewrite Htr, Htr0, app_assoc, created_app. simpl. rewrite Hhk.
    assert (new_ids r0 (root s') = new_ids r0 (root s) ++ [Id it]) as Hids.
    { unfold new_ids. rewrite Hheap, fmap_app, drop_app_le; [done|].
      by rewrite length_fmap. }
    rewrite Hids. split; [done|]. split.
    { eapply chained_snoc; eauto. }
    intros _. split; [rewrite !length_app; simpl; lia|]. split; [done|].
    unfold primed. rewrite HL, Hheap, list_lookup_middle by done.
    exists it. split; [done|]. by rewrite last_snoc.
Qed.

Lemma chain_retarget (r0 : Root W) (locs0 : list Locations) (s s1 : PingState W) :
  chain_inv r0 locs0 s → runErr s = None → retarget s = Ok s1 →
  chain_inv r0 locs0 s1 ∧ runErr s1 = None ∧
  mc_Locations (opts s1) = next_locations locs0 (new_ids r0 (root s1)).
Proof.
  intros Hinv Herr Hre.
  pose proof (retarget_frame s s1 Hre) as (Hroot & Hmbuf & Herr1 & _).
  unfold retarget in Hre.
  destruct (History_Last (ctx_History (ctx (root s)))) as [|a] eqn:HL; [done|].
  destruct (heap (root s) !! a) as [lastit|] eqn:Hlast; [|done].
  simplify_eq/=. split; [|split; [done|]].
  - apply (chain_quiet r0 locs0 s _ []); simpl; try done; [by rewrite app_nil_r|].
    by rewrite HL.
  - destruct Hinv as (_ & evs & _ & _ & Hnone).
    destruct (Hnone Herr) as (_ & _ & Hpr). unfold primed in Hpr.
    rewrite HL in Hpr. destruct Hpr as (it & Hit & Hl). simplify_eq.
    unfold next_locations. by rewrite Hl.
Qed.

Lemma chain_overlap (r0 : Root W) (locs0 : list Locations) (s s' : PingState W) :
  chain_inv r0 locs0 s → runErr s = None → overlap s = Ok s' →
  chain_inv r0 locs0 s'.
Proof.
  intros Hinv Herr. unfold overlap.
  destruct (retarget s) as [s1|] eqn:Hre; [|done]. simpl.
  destruct (chain_retarget r0 locs0 s s1 Hinv Herr Hre) as (Hinv1 & Herr1 & Hloc).
  unfold Now at 1. destruct (time_Now (world (root s1))) as [start w1].
  set (r1 := call EvNow w1 (root s1)).
  assert (chain_inv r0 locs0 (with_root r1 s1)) as Hinv2.
  { apply (chain_quiet r0 locs0 s1 _ [EvNow]); by simpl. }
  pose proof (chain_create r0 locs0 (with_root r1 s1) (opts s1) Hinv2 Herr1 Hloc)
    as Hc.
  cbn [root with_root] in Hc.
  destruct (createMeasurement (opts s1) r1) as [[hm err] r2].
  unfold Now. destruct (time_Now (world r2)) as [stop w3].
  intros [= <-]. destruct err as [e|].
  - apply chain_inv_of_done; [|by eexists]. simpl.
    apply (chain_done_quiet r0 locs0 r2 _ [EvNow]); by simpl.
  - apply (chain_quiet r0 locs0
             {| root := r2; opts := opts s1; runErr := None; mbuf := mbuf s1;
                elapsedTime := elapsedTime s1; el := el s1 |} _ [EvNow]);
      simpl; try done.
    by apply Hc.
Qed.

Lemma chain_maybe_overlap (r0 : Root W) (locs0 : list Locations) (s : PingState W) :
  chain_inv r0 locs0 s →
  match maybe_overlap s with
  | Continue s' => chain_inv r0 locs0 s'
  | Return _ s' => chain_done r0 locs0 (root s')
  | Crash _ => True
  end.
Proof.
  intros Hinv. unfold maybe_overlap.
  destruct (runErr s) eqn:Herr; [by apply chain_advance|].
  destruct (CanAppend _ _) as [[|]|]; [|by apply chain_advance|done].
  destruct (overlap s) as [s'|] eqn:Hov; [|done].
  apply chain_advance. by eapply chain_overlap.
Qed.

Lemma chain_body (r0 : Root W) (locs0 : list Locations) (s : PingState W) (a : nat) :
  chain_inv r0 locs0 s →
  match ping_body a s with
  | Continue s' => chain_inv r0 locs0 s'
  | Return _ s' => chain_done r0 locs0 (root s')
  | Crash _ => True
  end.
Proof.
  intros Hinv. unfold ping_body.
  destruct (heap (root s) !! a) as [it|] eqn:Hit; [|done].
  destruct (client_GetMeasurement _ _) as [[m|err] w].
  2:{ apply (chain_done_quiet r0 locs0 (root s) _ [EvGetMeasurement (Id it)]);
        [by apply chain_done_of_inv|done..]. }
  set (r1 := call (EvGetMeasurement (Id it)) w (root s)).
  set (r1' := with_heap (<[a := set_Status (m_Status m) it]> (heap r1)) r1).
  assert (Id <$> heap r1' = Id <$> heap (root s)) as Hids1
    by (by apply (fmap_insert_same_id _ a it)).
  assert (chain_inv r0 locs0 (with_root r1' s)) as Hinv1.
  { by apply (chain_quiet r0 locs0 s _ [EvGetMeasurement (Id it)]). }
  case_bool_decide; [by apply chain_advance|].
  cbn [world with_heap call].
  destruct (viewer_OutputInfinite m _) as [[err|] w'].
  { apply (chain_done_quiet r0 locs0 r1' _ [EvOutputInfinite m]);
      [by apply (chain_done_of_inv r0 locs0 (with_root r1' s))|done..]. }
  set (r2 := call (EvOutputInfinite m) w' r1') in *.
  case_decide.
  - destruct (Remove _ _) as [b|]; [|done].
    apply chain_maybe_overlap.
    by apply (chain_quiet r0 locs0 (with_root r1' s) _ [EvOutputInfinite m]).
  - apply chain_maybe_overlap.
    apply (chain_quiet r0 locs0 (with_root r1' s) _ [EvOutputInfinite m]);
      try done.
    simpl. apply (fmap_insert_same_id _ a (set_Status (m_Status m) it)); [|done].
    apply list_lookup_insert_eq. by eapply lookup_lt_Some.
Qed.

Lemma chain_after_sweep (r0 : Root W) (locs0 : list Locations) (s : PingState W) :
  chain_inv r0 locs0 s →
  match ping_after_sweep s with
  | Continue s' => chain_inv r0 locs0 s'
  | Return _ s' => chain_done r0 locs0 (root s')
  | Crash _ => True
  end.
Proof.
  intros Hinv. unfold ping_after_sweep.
  destruct (0 <? Len (mbuf s)).
  { unfold start_round. apply chain_advance.
    by apply (chain_quiet r0 locs0 s _
                [EvSleep (wrap64 (ctx_APIMinInterval (ctx (root s))
                                  - elapsedTime s))]). }
  destruct (runErr s) eqn:Herr; [by apply chain_done_of_inv|].
  assert (∃ s1, (match History_Last (ctx_History (ctx (root s))) with
                 | Nil => Ok s
                 | Addr _ => retarget s
                 end) = Ok s1 →
          True) as _ by (by exists s).
  match goal with |- context [match ?x with Ok _ => _ | Panic => _ end] =>
    assert (∀ s1, x = Ok s1 →
                  chain_inv r0 locs0 s1 ∧ runErr s1 = None ∧
                  mc_Locations (opts s1)
                  = next_locations locs0 (new_ids r0 (root s1))) as Hre;
      [|destruct x as [s1|]; [|done]] end.
  { intros s1. destruct (History_Last _) eqn:HL.
    - intros [= <-]. split; [done|]. split; [done|].
      destruct Hinv as (_ & evs & _ & _ & Hnone).
      destruct (Hnone Herr) as (_ & _ & Hpr). unfold primed in Hpr.
      rewrite HL in Hpr. by destruct Hpr as [-> ->].
    - by apply chain_retarget. }
  destruct (Hre s1 eq_refl) as (Hinv1 & Herr1 & Hloc).
  pose proof (chain_create r0 locs0 s1 (opts s1) Hinv1 Herr1 Hloc) as Hc.
  destruct (createMeasurement _ _) as [[hm [e|]] r']; [done|].
  unfold start_round. apply chain_advance.
  apply (chain_quiet r0 locs0
           {| root := r'; opts := opts s1; runErr := None; mbuf := mbuf s1;
              elapsedTime := elapsedTime s1; el := el s1 |} _ []);
    simpl; try done; [by apply Hc|by rewrite app_nil_r].
Qed.

Lemma chain_step (r0 : Root W) (locs0 : list Locations) (s : PingState W) :
  chain_inv r0 locs0 s →
  match ping_step s with
  | Continue s' => chain_inv r0 locs0 s'
  | Return _ s' => chain_done r0 locs0 (root s')
  | Crash _ => True
  end.
Proof.
  intros Hinv. unfold ping_step.
  destruct (el s); [by apply chain_after_sweep|by apply chain_body].
Qed.

Lemma chain_run (r0 : Root W) (locs0 : list Locations) (n : nat) (s : PingState W) :
  chain_inv r0 locs0 s →
  match ping_run n s with
  | Continue s' => chain_inv r0 locs0 s'
  | Return _ s' => chain_done r0 locs0 (root s')
  | Crash _ => True
  end.
Proof.
  revert s. induction n as [|n IH]; intros s Hinv; simpl; [done|].
  pose proof (chain_step r0 locs0 s Hinv) as Hstep.
  destruct (ping_step s) as [s1|e s1|]; [|done|done]. by apply IH.
Qed.

(** X15. Started on an empty history, a continuous run sends its first
    creation request to the locations it was given and every later one to
    the probes of the measurement created just before: the only location
    of the request is the id of that measurement. All the creations but
    possibly the last one succeeded, each allocating one history item, in
    order. This relies on [HistoryBuffer.Last] returning the item pushed
    last. *)
Theorem ping_reuses_probes (n : nat) (o : MeasurementCreate) (r : Root W)
    (Hempty : History_Last (ctx_History (ctx r)) = Nil)
    (Husable : history_usable r) :
  ∃ evs, trace (outcome_root (ping n o r)) = trace r ++ evs ∧
         chained (mc_Locations o) (created evs)
                 (new_ids r (outcome_root (ping n o r))).
Proof.
  assert (∀ r', ping n o r ≠ Crash r') as Hsafe.
  { apply ping_never_panics; [done|]. intros a Ha. congruence. }
  unfold ping in *. rewrite ping_init_eq in *.
  match goal with |- context [ping_run n ?s0] =>
    assert (chain_inv r (mc_Locations o) s0) as Hinit;
      [|pose proof (chain_run r (mc_Locations o) n s0 Hinit) as Hrun] end.
  { split; [done|]. exists []. cbn [root trace runErr opts].
    rewrite app_nil_r. split; [done|].
    unfold new_ids, primed. cbn [root opts].
    rewrite Hempty, drop_ge by (by rewrite length_fmap).
    split; [|done]. split; [simpl; lia|]. split; by intros. }
  destruct (ping_run n _) as [s'|e s'|r'].
  - by apply chain_done_of_inv in Hrun as [_ H].
  - by destruct Hrun as [_ H].
  - by destruct (Hsafe r').
Qed.

End ChainProperties.

(** ** Further concrete runs *)

Lemma finished_measurement_is_retired_witness :
  let s := polling_first false finishes_at_once in
  let m := measurement "m1" StatusFinished [StatusFinished] in
  (el s = Addr 0 ∧ heap (root s) !! 0%nat = Some (item "m1" false) ∧
   m_Results m ≠ [] ∧ m_Status m ≠ StatusInProgress) ∧
  match ping_run 3 s with
  | Continue s' | Return _ s' =>
      retired 0 s' ∧
      heap (root s') !! 0%nat = Some (set_Status StatusFinished (item "m1" false))
  | Crash _ => True
  end.
Proof.
  intros s m.
  assert (el s = Addr 0) as Hel by reflexivity.
  assert (heap (root s) !! 0%nat = Some (item "m1" false)) as Hit by reflexivity.
  assert (client_GetMeasurement (Id (item "m1" false)) (world (root s))
          = (inl m, script [CreateOk "m2"] [] [None])) as Hpoll by reflexivity.
  assert (m_Results m ≠ []) as Hres by (vm_compute; discriminate).
  assert (viewer_OutputInfinite m (script [CreateOk "m2"] [] [None])
          = (None, script [CreateOk "m2"] [] [])) as Hrender by reflexivity.
  assert (m_Status m ≠ StatusInProgress) as Hdone by (vm_compute; discriminate).
  split; [by repeat split|].
  pose proof (finished_measurement_is_retired s 0 (item "m1" false) m _ _ 2
                Hel Hit Hpoll Hres Hrender Hdone) as H.
  exact H.
Defined.

Lemma RunPing_never_panics_witness :
  let r := defaultRoot three_rounds in
  history_usable (prepare r) ∧
  ∃ err r', RunPing no_updateContext locations_Berlin 3 4 r = Done err r'.
Proof.
  intros r.
  assert (history_usable (prepare r)) as Husable by (vm_compute; lia).
  split; [exact Husable|].
  assert (∀ r1 l r2,
            no_updateContext r = (None, r1) →
            locations_Berlin (prepare r1) = (inl l, r2) →
            (writeIndex (ctx_History (ctx r2))
             < length (slots (ctx_History (ctx r2))))%nat ∧
            ∀ a, History_Last (ctx_History (ctx r2)) = Addr a →
                 (a < length (heap r2))%nat) as Hhist.
  { intros r1 l r2 Hupd Hloc.
    unfold no_updateContext in Hupd. injection Hupd as <-.
    unfold locations_Berlin in Hloc. injection Hloc as <- <-.
    split; [exact Husable|]. intros a Ha. vm_compute in Ha. discriminate. }
  pose proof (RunPing_never_panics no_updateContext locations_Berlin 3 4 r Hhist)
    as Hsafe.
  destruct (RunPing no_updateContext locations_Berlin 3 4 r) as [err r'|r'].
  - exists err, r'. reflexivity.
  - destruct (Hsafe r' eq_refl).
Defined.

Lemma RunPing_one_shot_witness :
  let r := oneShotRoot (script [CreateOk "m1"] [] [None]) in
  let o := set_Locations [ {| Magic := "Berlin" |} ] (request (prepare r)) in
  (no_updateContext r = (None, r) ∧
   locations_Berlin (prepare r) = (inl [ {| Magic := "Berlin" |} ], prepare r) ∧
   ctx_Infinite (ctx (prepare r)) = false) ∧
  ∃ r', RunPing no_updateContext locations_Berlin 0 0 r = Done None r' ∧
        trace r' = [EvCreateMeasurement o; EvNow; EvSaveIdToSession "m1";
                    EvOutput "m1" o].
Proof.
  intros r o.
  assert (no_updateContext r = (None, r)) as Hupd by reflexivity.
  assert (locations_Berlin (prepare r)
          = (inl [ {| Magic := "Berlin" |} ], prepare r)) as Hloc by reflexivity.
  assert (ctx_Infinite (ctx (prepare r)) = false) as Hone by reflexivity.
  split; [by repeat split|].
  pose proof (RunPing_one_shot no_updateContext locations_Berlin 0 0 r r (prepare r)
                [ {| Magic := "Berlin" |} ] Hupd Hloc Hone) as H.
  vm_compute in H. destruct H as (r' & it & evs & w & Hrun & _).
  vm_compute. eexists. split; [reflexivity|reflexivity].
Defined.

Lemma createContext_overrides_from_witness :
  let c := {| model.Target := ""; model.From := "New York"; model.Limit := 1;
              model.JsonOutput := false; model.Latency := false |} in
  "Berlin" ≠ "from" ∧
  checkCommandFormat ["jsdelivr.com"; "Berlin"]
  = Ok (Some "invalid command format") ∧
  createContext (fun s => s) ["jsdelivr.com"; "Berlin"] c
  = Ok {| model.Target := "jsdelivr.com"; model.From := "New York";
          model.Limit := 1; model.JsonOutput := false; model.Latency := false |}.
Proof.
  intros c.
  assert ("Berlin" ≠ "from") as Hne by discriminate.
  split; [exact Hne|].
  pose proof (createContext_overrides_from (fun s => s)) as (_ & _ & _ & Hrej).
  pose proof (Hrej "jsdelivr.com" "Berlin" [] c Hne) as H.
  exact H.
Defined.

Lemma ping_reuses_probes_witness :
  let r := defaultRoot three_rounds in
  (History_Last (ctx_History (ctx r)) = Nil ∧ history_usable r) ∧
  ∃ evs, trace (outcome_root (ping 7 defaultOpts r)) = trace r ++ evs ∧
         chained [ {| Magic := "Berlin" |} ] (created evs)
                 (new_ids r (outcome_root (ping 7 defaultOpts r))).
Proof.
  intros r.
  assert (History_Last (ctx_History (ctx r)) = Nil) as Hempty by reflexivity.
  assert (history_usable r) as Husable by (vm_compute; lia).
  split; [by split|].
  pose proof (ping_reuses_probes 7 defaultOpts r Hempty Husable) as H.
  exact H.
Defined.

Lemma ping_keeps_history_items_witness :
  let r := defaultRoot three_rounds in
  let r' := outcome_root (ping 7 defaultOpts r) in
  (in_int64 (ctx_MeasurementsCreated (ctx r)) ∧
   in_int64 (ctx_MeasurementsCreated (ctx r)
             + Z.of_nat (length (heap r') - length (heap r)))) ∧
  length (heap r') = 3%nat ∧
  ctx_MeasurementsCreated (ctx r') = 3.
Proof.
  intros r r'.
  assert (length (heap r') = 3%nat) as Hlen by (vm_compute; reflexivity).
  assert (in_int64 (ctx_MeasurementsCreated (ctx r))) as Hc
    by (vm_compute; split; discriminate).
  assert (in_int64 (ctx_MeasurementsCreated (ctx r)
                    + Z.of_nat (length (heap r') - length (heap r)))) as Hk
    by (rewrite Hlen; vm_compute; split; discriminate).
  split; [by split|]. split; [exact Hlen|].
  pose proof (proj2 (ping_keeps_history_items 7 defaultOpts r) Hc Hk) as H.
  fold r' in H. rewrite H, Hlen. reflexivity.
Defined.
